(** * hashring: a consistent-hashing ring (shallow embedding of hashring.go)

    The development follows the Go source function by function.

    Modelling conventions
    - [HashKey] is [uint32]: a [Z] kept below [2^32], the wrap-around of the
      shifts written out in [hashVal].
    - Go's [int] is the 64-bit two's-complement integer of a 64-bit
      platform: a [Z], with the wrap-around of [+] and [*] written out by
      [int] where [generateCircle] adds and multiplies weights.  Sizes and
      guards that only compare are plain [Z]; positions and lengths, which
      are never negative, are [nat].
    - [float64] is IEEE 754 binary64 as the standard library specifies it
      ([SpecFloat], precision 53, round to nearest even): the conversion
      [float64(x)] is [binary_normalize], the quotient is [SFdiv];
      [math.Floor] and the conversion back to [int] are written over
      [spec_float] here.  Converting a NaN, an infinity or a value outside
      the range of [int] is implementation-dependent in Go; the model
      takes the result of amd64, [-2^63].
    - a slice of strings has at most [2^44] entries (a string header takes
      16 bytes and the runtime allocates at most [2^48] bytes), a list any
      number; see [factor] for the lists that stand for no slice.
    - a [panic] (index or slice bound out of range, nil dereference) is
      [None].
    - [map[HashKey]string] and [map[string]int] are [gmap]s; the
      [map[string]bool] that [GetNodes] uses as a set is a [gset].
    - [*HashRing] pointers are locations of a store ([heap]), so that
      "returns [h]" and "allocates a new ring" are different results. *)

From Stdlib Require Import ZArith Lia.
From Stdlib.Floats Require Import SpecFloat.
From Stdlib.Strings Require Import Byte.
From Equations Require Import Equations.
From stdpp Require Import gmap strings list fin_maps sorting pretty.

(** ** Byte slices and digests *)

(** The slice [hasher.Sum(nil)] returns: its [len] visible bytes, and the
    bytes of its backing array between [len] and [cap].  Go checks a slice
    expression [s[lo:hi]] on a slice against [cap(s)], not [len(s)]. *)
Record Digest := mkDigest { visible : list byte; spare : list byte }.

Definition dlen (d : Digest) : nat := length (visible d).

Definition dcap (d : Digest) : nat := length (visible d) + length (spare d).

(** [bKey[lo:hi]]: panics unless [lo <= hi <= cap(bKey)]; the result has
    length [hi - lo]. *)
Definition subslice (bKey : Digest) (lo hi : nat) : option (list byte) :=
  if decide (lo ≤ hi ≤ dcap bKey)
  then Some (take (hi - lo) (drop lo (visible bKey ++ spare bKey)))
  else None.

(** [hasher := h.hashProvider(); hasher.Write([]byte(s)); hasher.Sum(nil)]
    as one function of the string. *)
Definition provider := string → Digest.

Definition HashKey_of_byte (b : byte) : Z := Z.of_N (Byte.to_N b).

Definition uint32 (z : Z) : Z := z mod 2 ^ 32.

(** [hashVal]: little-endian decoding of [bKey[0..3]]; each index is checked
    against the length of [bKey]. *)
Definition hashVal (bKey : list byte) : option Z :=
  b3 ← bKey !! 3; b2 ← bKey !! 2; b1 ← bKey !! 1; b0 ← bKey !! 0;
  Some (Z.lor (Z.lor (Z.lor (uint32 (Z.shiftl (HashKey_of_byte b3) 24))
                            (uint32 (Z.shiftl (HashKey_of_byte b2) 16)))
                     (uint32 (Z.shiftl (HashKey_of_byte b1) 8)))
              (HashKey_of_byte b0)).

(** ** The ring *)

Record HashRing := mkHashRing {
  ring : gmap Z string;
  hashProvider : provider;
  sortedKeys : list Z;
  nodes : list string;
  weights : gmap string Z }.

Definition hashDigest (h : HashRing) (s : string) : Digest := hashProvider h s.

(** A [for ... range] loop whose body may panic. *)
Fixpoint loop {S A : Type} (body : S → A → option S) (s : S) (l : list A) : option S :=
  match l with
  | [] => Some s
  | x :: l => s' ← body s x; loop body s' l
  end.

(** ** generateCircle *)

(** [h.ring] and [h.sortedKeys] while the circle is being built. *)
Definition circle : Type := gmap Z string * list Z.

(** [fmt.Sprintf("%s-%d", node, j)] *)
Definition nodeKey (node : string) (j : Z) : string := node +:+ "-" +:+ pretty j.

(** Go's [int]: the representative of [z] in [[-2^63, 2^63)]. *)
Definition int (z : Z) : Z := ((z + 2 ^ 63) `mod` 2 ^ 64 - 2 ^ 63)%Z.

(** [float64(x)] for an [int] [x]: the nearest binary64, ties to even. *)
Definition float64 (x : Z) : spec_float := binary_normalize 53 1024 x 0 false.

(** [math.Floor(x)]: the greatest integral value not above [x]; zeros,
    infinities and NaN are returned as they are. *)
Definition Floor (x : spec_float) : spec_float :=
  match x with
  | S754_finite s m e =>
      if decide (0 ≤ e)%Z then x
      else binary_normalize 53 1024 (cond_Zopp s (Z.pos m) / 2 ^ (- e))%Z 0 s
  | _ => x
  end.

(** [int(x)] for a float64 [x]: the fraction is discarded; a value that
    [int] cannot hold, an infinity or a NaN gives [-2^63]. *)
Definition int_of_float64 (x : spec_float) : Z :=
  match x with
  | S754_zero _ => 0%Z
  | S754_finite s m e =>
      let z := (if decide (0 ≤ e) then cond_Zopp s (Z.pos m * 2 ^ e)
                else cond_Zopp s (Z.pos m) ÷ 2 ^ (- e))%Z in
      if decide (- 2 ^ 63 ≤ z < 2 ^ 63)%Z then z else (- 2 ^ 63)%Z
  | _ => (- 2 ^ 63)%Z
  end.

(** The first loop of [generateCircle]: [totalWeight += weight] and
    [totalWeight += 1] in [int]. *)
Definition totalWeight (h : HashRing) : Z :=
  foldl (λ total node,
           match weights h !! node with
           | Some weight => int (total + weight)
           | None => int (total + 1)
           end) 0%Z (nodes h).

Definition nodeWeight (h : HashRing) (node : string) : Z :=
  match weights h !! node with Some weight => weight | None => 1%Z end.

(** The longest slice of strings that fits in memory. *)
Definition maxSliceLen : Z := (2 ^ 44)%Z.

(** [int(math.Floor(float64(40*len(h.nodes)*weight) / float64(totalWeight)))]:
    the product in [int], the quotient in binary64.

    [h.nodes] is a slice, so [len(h.nodes)] is at most [maxSliceLen]; a
    list has no such bound.  On a longer list, which stands for no slice,
    the model takes the quotient of the integers rather than follow the
    machine arithmetic into products [40*len] that no run of the program
    forms. *)
Definition factor (h : HashRing) (node : string) : Z :=
  let n := Z.of_nat (length (nodes h)) in
  if decide (n ≤ maxSliceLen)%Z then
    int_of_float64
      (Floor (SFdiv 53 1024 (float64 (int (40 * n * nodeWeight h node)))
                            (float64 (totalWeight h))))
  else
    (40 * n * nodeWeight h node
     / foldr (λ node total, nodeWeight h node + total) 0 (nodes h))%Z.

(** [hashVal(bKey[i*4 : i*4+4])] *)
Definition chunkKey (bKey : Digest) (i : nat) : option Z :=
  chunk ← subslice bKey (i * 4) (i * 4 + 4);
  hashVal chunk.

(** Body of [for i := 0; i < 3; i++]. *)
Definition addKey (node : string) (bKey : Digest) (c : circle) (i : nat) : option circle :=
  key ← chunkKey bKey i;
  Some (<[key := node]> c.1, c.2 ++ [key]).

(** Body of [for j := 0; j < int(factor); j++]. *)
Definition addGroup (h : HashRing) (node : string) (c : circle) (j : Z) : option circle :=
  let bKey := hashDigest h (nodeKey node j) in
  loop (addKey node bKey) c [0; 1; 2].

(** Body of the second [for _, node := range h.nodes]. *)
Definition addNodePoints (h : HashRing) (c : circle) (node : string) : option circle :=
  loop (addGroup h node) c (seqZ 0 (factor h node)).

(** [sort.Sort(HashKeyOrder(s))] leaves the ascending arrangement of [s];
    the keys are plain numbers, so every sorting algorithm gives the same
    list. *)
Definition sortKeys (s : list Z) : list Z := merge_sort Z.le s.

Definition generateCircle (h : HashRing) : option HashRing :=
  c ← loop (addNodePoints h) (ring h, sortedKeys h) (nodes h);
  Some (mkHashRing c.1 (hashProvider h) (sortKeys c.2) (nodes h) (weights h)).

(** ** GetNodePos, GenKey, GetNode *)

(** [sort.Search(n, f)] of the Go standard library:
    [i, j := 0, n; for i < j { h := (i+j)/2; if !f(h) { i = h+1 } else { j = h } }; return i]. *)
Equations search_loop (f : nat → bool) (i j : nat) : nat by wf (j - i) lt :=
  search_loop f i j with decide (i < j) := {
    | left _ => if f ((i + j) / 2)
                then search_loop f i ((i + j) / 2)
                else search_loop f ((i + j) / 2 + 1) j
    | right _ => i }.
Next Obligation.
  intros f i j Hij _.
  change (Nat.divmod (i + j) 1 0 1).1 with ((i + j) / 2).
  pose proof (Nat.div_mod_eq (i + j) 2). pose proof (Nat.mod_upper_bound (i + j) 2). lia.
Qed.
Next Obligation.
  intros f i j Hij _.
  change (Nat.divmod (i + j) 1 0 1).1 with ((i + j) / 2).
  pose proof (Nat.div_mod_eq (i + j) 2). pose proof (Nat.mod_upper_bound (i + j) 2). lia.
Qed.

Definition Search (n : nat) (f : nat → bool) : nat := search_loop f 0 n.

Definition GenKey (h : HashRing) (key : string) : option Z :=
  chunk ← subslice (hashDigest h key) 0 4;
  hashVal chunk.

(** The closure [func(i int) bool { return nodes[i] > key }]; [Search]
    only calls it below [len(nodes)]. *)
Definition greaterAt (keys : list Z) (key : Z) (i : nat) : bool :=
  match keys !! i with
  | Some k => bool_decide (key < k)%Z
  | None => false
  end.

Definition GetNodePos (h : HashRing) (stringKey : string) : option (nat * bool) :=
  if decide (size (ring h) = 0) then Some (0, false)
  else
    key ← GenKey h stringKey;
    let keys := sortedKeys h in
    let pos := Search (length keys) (greaterAt keys key) in
    if decide (pos = length keys) then Some (0, true) else Some (pos, true).

(** [h.ring[key]]: the zero value [""] for a missing key. *)
Definition ringAt (r : gmap Z string) (key : Z) : string := default "" (r !! key).

Definition GetNode (h : HashRing) (stringKey : string) : option (string * bool) :=
  '(pos, ok) ← GetNodePos h stringKey;
  if ok : bool then (key ← sortedKeys h !! pos; Some (ringAt (ring h) key, true))
  else Some ("", false).

(** ** GetNodes *)

(** The [for _, key := range mergedSortedKeys] loop with its [break]. *)
Fixpoint walk (r : gmap Z string) (size : Z) (keys : list Z)
    (returnedValues : gset string) (resultSlice : list string) : list string :=
  match keys with
  | [] => resultSlice
  | key :: keys =>
      let val := ringAt r key in
      let returnedValues' :=
        if decide (val ∈ returnedValues) then returnedValues else {[val]} ∪ returnedValues in
      let resultSlice' :=
        if decide (val ∈ returnedValues) then resultSlice else resultSlice ++ [val] in
      if decide (Z.of_nat (base.size returnedValues') = size) then resultSlice'
      else walk r size keys returnedValues' resultSlice'
  end.

Definition GetNodes (h : HashRing) (stringKey : string) (size : Z) : option (list string * bool) :=
  '(pos, ok) ← GetNodePos h stringKey;
  if ok : bool then
    if decide (Z.of_nat (length (nodes h)) < size)%Z then Some ([], false)
    else
      let mergedSortedKeys := drop pos (sortedKeys h) ++ take pos (sortedKeys h) in
      let resultSlice := walk (ring h) size mergedSortedKeys ∅ [] in
      Some (resultSlice, bool_decide (Z.of_nat (length resultSlice) = size))
  else Some ([], false).

(** ** HashKeyOrder *)

(** [func (h HashKeyOrder) Len() int] *)
Definition Len (h : list Z) : nat := length h.

(** [func (h HashKeyOrder) Swap(i, j int) { h[i], h[j] = h[j], h[i] }]:
    both entries are read, then written; an index out of range panics. *)
Definition Swap (h : list Z) (i j : nat) : option (list Z) :=
  hj ← h !! j; hi ← h !! i; Some (<[j := hi]> (<[i := hj]> h)).

(** [func (h HashKeyOrder) Less(i, j int) bool { return h[i] < h[j] }] *)
Definition Less (h : list Z) (i j : nat) : option bool :=
  hi ← h !! i; hj ← h !! j; Some (bool_decide (hi < hj)%Z).

(** What a run of [sort.Sort] can do to the slice: call [Swap]. *)
Inductive swaps : list Z → list Z → Prop :=
  | swaps_done h : swaps h h
  | swaps_step h i j h1 h2 : Swap h i j = Some h1 → swaps h1 h2 → swaps h h2.

(** What [sort.Sort] establishes ([sort.IsSorted]): no entry is [Less]
    than the entry before it. *)
Definition IsSorted (h : list Z) : Prop :=
  ∀ i, i + 1 < Len h → Less h (i + 1) i = Some false.

(** ** Rings behind pointers: constructors and mutators *)

(** A [*HashRing] is a location of the store.  Every map and slice a ring
    holds is made by the call that builds it ([make], [copy]) or only read
    afterwards, so the store keeps them inside the ring they belong to. *)
Abbreviation loc := positive (only parsing).

Abbreviation heap := (gmap positive HashRing) (only parsing).

(** Computations over the store that may panic. *)
Definition M (A : Type) : Type := heap → option (A * heap).

Definition ret {A} (a : A) : M A := λ σ, Some (a, σ).

Definition bind {A B} (m : M A) (k : A → M B) : M B :=
  λ σ, match m σ with Some (a, σ') => k a σ' | None => None end.

Declare Scope M_scope.

Delimit Scope M_scope with M.

Notation "x <- m ;; k" := (bind m (λ x, k))
  (at level 100, m at next level, right associativity) : M_scope.

Notation "m ;;; k" := (bind m (λ _, k))
  (at level 100, right associativity) : M_scope.

(** [&HashRing{...}]: a location not in use. *)
Definition alloc (h : HashRing) : M loc :=
  λ σ, let l := fresh (dom σ) in Some (l, <[l := h]> σ).

(** [*h] for reading; a dangling pointer panics. *)
Definition deref (l : loc) : M HashRing :=
  λ σ, h ← σ !! l; Some (h, σ).

(** [hashRing.generateCircle()] through the pointer. *)
Definition generateCircleAt (l : loc) : M unit :=
  λ σ, h ← σ !! l; h' ← generateCircle h; Some ((), <[l := h']> σ).

Section Constructors.

(** [defaultHashProvider]: [md5.New], from the Go standard library. *)
Variable defaultHashProvider : provider.

Definition New (nodes : list string) (hashProvider : option provider) : M loc :=
  (let hashProvider := default defaultHashProvider hashProvider in
   hashRing <- alloc (mkHashRing ∅ hashProvider [] nodes ∅);;
   generateCircleAt hashRing;;;
   ret hashRing)%M.

(** [for node, _ := range weights] visits the keys of the map once each, in
    an order the runtime chooses. *)
Definition range_order (weights : gmap string Z) (order : list string) : Prop :=
  NoDup order ∧ list_to_set order = dom weights.

(** [NewWithWeights], with the iteration order [order] the runtime chose
    for [range weights]. *)
Definition NewWithWeights (order : list string) (weights : gmap string Z)
    (hashProvider : option provider) : M loc :=
  (let nodes := foldl (λ nodes node, nodes ++ [node]) [] order in
   let hashProvider := default defaultHashProvider hashProvider in
   hashRing <- alloc (mkHashRing ∅ hashProvider [] nodes weights);;
   generateCircleAt hashRing;;;
   ret hashRing)%M.

End Constructors.

Definition AddWeightedNode (h : loc) (node : string) (weight : Z) : M loc :=
  (if decide (weight ≤ 0)%Z then ret h
   else
     r <- deref h;;
     if decide (node ∈ nodes r) then ret h
     else
       let nodes := nodes r ++ [node] in
       let weights := <[node := weight]> (weights r) in
       hashRing <- alloc (mkHashRing ∅ (hashProvider r) [] nodes weights);;
       generateCircleAt hashRing;;;
       ret hashRing)%M.

Definition AddNode (h : loc) (node : string) : M loc := AddWeightedNode h node 1.

Definition RemoveNode (h : loc) (node : string) : M loc :=
  (r <- deref h;;
   let nodes := filter (λ eNode, eNode ≠ node) (nodes r) in
   let weights := filter (λ e : string * Z, e.1 ≠ node) (weights r) in
   hashRing <- alloc (mkHashRing ∅ (hashProvider r) [] nodes weights);;
   generateCircleAt hashRing;;;
   ret hashRing)%M.

(** ** Programs over the public API *)

Inductive call :=
  | CallNew (nodes : list string) (hashProvider : option provider)
  | CallNewWithWeights (order : list string) (weights : gmap string Z)
      (hashProvider : option provider)
  | CallAddNode (h : loc) (node : string)
  | CallAddWeightedNode (h : loc) (node : string) (weight : Z)
  | CallRemoveNode (h : loc) (node : string).

Definition exec (md5 : provider) (c : call) : M loc :=
  match c with
  | CallNew nodes hp => New md5 nodes hp
  | CallNewWithWeights order weights hp =>
      if decide (range_order weights order) then NewWithWeights md5 order weights hp
      else λ _, None
  | CallAddNode h node => AddNode h node
  | CallAddWeightedNode h node weight => AddWeightedNode h node weight
  | CallRemoveNode h node => RemoveNode h node
  end.

(** The store after a sequence of calls, started with no ring allocated. *)
Definition run (md5 : provider) (script : list call) : option heap :=
  loop (λ σ c, snd <$> exec md5 c σ) ∅ script.

(** ** Sample digest functions *)

Definition byteOf (z : Z) : byte := default x00 (Byte.of_N (Z.to_N (z mod 256))).

Definition strSum (s : string) : Z :=
  foldl (λ acc c, (acc * 131 + Z.of_N (Ascii.N_of_ascii c)) mod 4294967291)%Z 7%Z
        (String.list_ascii_of_string s).

(** Byte [i] of the sample digest: the 32-bit word number [i / 4], a
    multiplicative mix of the string's checksum, read little-endian. *)
Definition sampleByte (sum : Z) (i : nat) : byte :=
  let word := ((sum + 1) * (2654435761 + 2 * Z.of_nat (i / 4)) mod 2 ^ 32)%Z in
  byteOf (Z.shiftr word (8 * Z.of_nat (i mod 4))).

(** A digest of [n] bytes, its backing array padded with [k] zero bytes. *)
Definition sampleDigest (n k : nat) : provider :=
  λ s, mkDigest (map (sampleByte (strSum s)) (seq 0 n)) (replicate k x00).

(** A weak 16-byte digest that only looks at the length of its input. *)
Definition lengthDigest : provider :=
  λ s, mkDigest (map (λ i, byteOf (Z.of_nat (String.length s) + 7 * Z.of_nat i)) (seq 0 16)) [].

(** * Specification-level definitions and sample inputs *)

(** ** The writes of a build *)

(** What [generateCircle] does to the circle is a sequence of writes
    [h.ring[key] = node; h.sortedKeys = append(h.sortedKeys, key)]. *)
Definition applyWrites (c : circle) (ws : list (Z * string)) : circle :=
  (foldl (λ r w, <[w.1 := w.2]> r) c.1 ws, c.2 ++ ws.*1).

Definition keyWrites (node : string) (bKey : Digest) (i : nat) : option (list (Z * string)) :=
  key ← chunkKey bKey i; Some [(key, node)].

Definition groupWrites (h : HashRing) (node : string) (j : Z) : option (list (Z * string)) :=
  @concat _ <$> mapM (keyWrites node (hashDigest h (nodeKey node j))) [0; 1; 2].

Definition nodeWrites (h : HashRing) (node : string) : option (list (Z * string)) :=
  @concat _ <$> mapM (groupWrites h node) (seqZ 0 (factor h node)).

Definition circleWrites (h : HashRing) : option (list (Z * string)) :=
  @concat _ <$> mapM (nodeWrites h) (nodes h).

(** [sortedKeys] ascending, the keys of [sortedKeys] exactly the keys of
    [ring], and every point owned by a node of [nodes]. *)
Definition ring_inv (h : HashRing) : Prop :=
  Sorted Z.le (sortedKeys h) ∧
  list_to_set (sortedKeys h) = dom (ring h) ∧
  map_Forall (λ _ node, node ∈ nodes h) (ring h).

Global Instance ring_inv_dec h : Decision (ring_inv h).
Proof. unfold ring_inv. apply _. Defined.

(** Following the spec's words: the index of the first entry of the ordered
    keys that is strictly greater than [key], if there is one. *)
Definition firstGreater (key : Z) (keys : list Z) : option nat :=
  fst <$> list_find (λ k, (key < k)%Z) keys.

(** Following the spec's words: each node is appended the first time it is
    seen. *)
Definition firstSeen (vals : list string) (acc : list string) : list string :=
  foldl (λ acc v, if decide (v ∈ acc) then acc else acc ++ [v]) acc vals.

(** The nodes met from position [pos] on, wrapping past the end back to
    index 0, each once, in the order of the first encounter. *)
Definition ownersFrom (h : HashRing) (pos : nat) : list string :=
  firstSeen (ringAt (ring h) <$> drop pos (sortedKeys h) ++ take pos (sortedKeys h)) [].

(** The nodes that own at least one point of the ring. *)
Definition pointOwners (h : HashRing) : gset string := map_img (ring h).

(** Sample rings: the struct a build leaves behind (the empty ring if the
    build panics). *)
Definition builtRing (hp : provider) (ns : list string) (ws : gmap string Z) : HashRing :=
  default (mkHashRing ∅ hp [] [] ∅) (generateCircle (mkHashRing ∅ hp [] ns ws)).

Definition singleRing : HashRing := builtRing (sampleDigest 16 0) ["only"] ∅.

Definition threeRing : HashRing := builtRing (sampleDigest 16 0) ["a"; "b"; "c"] ∅.

(** The ring a constructor call returns when it runs in the empty store. *)
Definition ringOf (m : M loc) : option HashRing := '(l, σ) ← m ∅; σ !! l.

(** Two nodes, the second too light to be given any point group:
    [floor(40 * 2 * 1 / 81) = 0]. *)
Definition skewedWeights : gmap string Z := <["a" := 80%Z]> (<["b" := 1%Z]> ∅).

Definition skewedRing : HashRing := builtRing (sampleDigest 16 0) ["a"; "b"] skewedWeights.

(** A short program over the API: build, add a node, remove one. *)
Definition sampleScript : list call :=
  [CallNew ["only"] None; CallAddNode 1%positive "b"; CallRemoveNode 2%positive "only"].

Definition sampleStore : heap := default ∅ (run (sampleDigest 16 0) sampleScript).

Definition shrunkStore : heap := default ∅ (snd <$> RemoveNode 1%positive "only" sampleStore).

(** The second half of [binary_round_aux]: after the mantissa has been
    rounded, it is shifted once more if the rounding carried. *)
Definition round_tail (s : bool) (m1 e : Z) : spec_float :=
  let '(mrs, e') := shr_fexp 53 1024 m1 e loc_Exact in
  match shr_m mrs with
  | Z0 => S754_zero s
  | Z.pos m => if (e' <=? 1024 - 53)%Z then S754_finite s m e' else S754_infinity s
  | _ => S754_nan
  end.

(** Following the spec's words: the sum over the nodes of their weights,
    1 for a node the weight mapping does not name. *)
Definition weightSum (ws : gmap string Z) (ns : list string) : Z :=
  foldr (λ node total, (default 1 (ws !! node) + total)%Z) 0%Z ns.

Definition twoWeights : gmap string Z := <["a" := 1%Z]> (<["b" := 3%Z]> ∅).

(** Two weights whose sum [T] satisfies [80 * 173722837188607 = 79 * T - 1]:
    the share of ["a"] is just below 79, and [80 * 173722837188607] is
    above [2^53]. *)
Definition closeWeights : gmap string Z :=
  <["a" := 173722837188607%Z]> (<["b" := (2 ^ 41)%Z]> ∅).

(** A weight whose product with 40 does not fit [int]. *)
Definition wideWeight : gmap string Z := <["a" := (2 ^ 60)%Z]> ∅.

(** A ring is the build of its own node list, weights and digest
    function, and its weight map names nodes of the node list only. *)
Definition canonical (h : HashRing) : Prop :=
  generateCircle (mkHashRing ∅ (hashProvider h) [] (nodes h) (weights h)) = Some h.

Definition wf_ring (h : HashRing) : Prop :=
  canonical h ∧ dom (weights h) ⊆ (list_to_set (nodes h) : gset string).

(** Following the spec's words ("the ring is circular"): [k] is the first
    key met clockwise from the hash [g], the smallest key strictly greater
    than [g], or the smallest key of all when no key is greater. *)
Definition successor (g : Z) (keys : list Z) (k : Z) : Prop :=
  k ∈ keys ∧
  (((g < k)%Z ∧ ∀ x, x ∈ keys → (g < x)%Z → (k ≤ x)%Z) ∨
   ((∀ x, x ∈ keys → (x ≤ g)%Z) ∧ ∀ x, x ∈ keys → (k ≤ x)%Z)).

Definition grownStore : heap :=
  default ∅ (snd <$> AddWeightedNode 1%positive "b" 7 sampleStore).

(** All weights 1: the weight map, where it names a node, gives it 1. *)
Definition unweighted (ws : gmap string Z) : Prop := map_Forall (λ _ w, w = 1%Z) ws.

Definition grownStore1 : heap := default ∅ (snd <$> AddNode 1%positive "b" sampleStore).

Definition threeScript : list call := [CallNew ["a"; "b"; "c"] None].

Definition threeStore : heap := default ∅ (run (sampleDigest 16 0) threeScript).

Definition twoStore : heap := default ∅ (snd <$> RemoveNode 1%positive "a" threeStore).

(** * Properties *)

(** ** The writes of a build *)

Lemma applyWrites_nil c : applyWrites c [] = c.
Proof. destruct c as [r ks]. unfold applyWrites. simpl. by rewrite app_nil_r. Qed.

Lemma applyWrites_app c ws1 ws2 :
  applyWrites (applyWrites c ws1) ws2 = applyWrites c (ws1 ++ ws2).
Proof.
  unfold applyWrites. simpl. by rewrite foldl_app, fmap_app, app_assoc.
Qed.

(** A loop whose body performs the writes [g x] performs their
    concatenation, and panics as soon as one [g x] does. *)
Lemma loop_writes {A} (body : circle → A → option circle) (g : A → option (list (Z * string))) :
  (∀ c x, body c x = ws ← g x; Some (applyWrites c ws)) →
  ∀ l c, loop body c l = ws ← @concat _ <$> mapM g l; Some (applyWrites c ws).
Proof.
  intros Hbody l. induction l as [|x l IH]; intros c; simpl.
  - by rewrite applyWrites_nil.
  - rewrite Hbody. destruct (g x) as [ws|]; simpl; [|done].
    rewrite IH. destruct (mapM g l) as [wss|]; simpl; [|done].
    by rewrite applyWrites_app.
Qed.

Lemma addKey_writes node bKey c i :
  addKey node bKey c i = ws ← keyWrites node bKey i; Some (applyWrites c ws).
Proof.
  unfold addKey, keyWrites. destruct (chunkKey bKey i) as [key|]; simpl; [|done].
  done.
Qed.

Lemma addGroup_writes h node c j :
  addGroup h node c j = ws ← groupWrites h node j; Some (applyWrites c ws).
Proof. unfold addGroup, groupWrites. apply loop_writes, addKey_writes. Qed.

Lemma addNodePoints_writes h c node :
  addNodePoints h c node = ws ← nodeWrites h node; Some (applyWrites c ws).
Proof. unfold addNodePoints, nodeWrites. apply loop_writes. intros. apply addGroup_writes. Qed.

Lemma generateCircle_writes h :
  generateCircle h =
    ws ← circleWrites h;
    Some (mkHashRing (foldl (λ r w, <[w.1 := w.2]> r) (ring h) ws) (hashProvider h)
            (sortKeys (sortedKeys h ++ ws.*1)) (nodes h) (weights h)).
Proof.
  unfold generateCircle, circleWrites.
  rewrite (loop_writes _ (nodeWrites h)) by (intros; apply addNodePoints_writes).
  by destruct (mapM (nodeWrites h) (nodes h)).
Qed.

(** *** The ring map after a sequence of writes *)

Lemma dom_writes (r : gmap Z string) (ws : list (Z * string)) :
  dom (foldl (λ r w, <[w.1 := w.2]> r) r ws) = dom r ∪ list_to_set ws.*1.
Proof.
  revert r. induction ws as [|w ws IH]; intros r; simpl.
  - set_solver.
  - rewrite IH, dom_insert_L. set_solver.
Qed.

Lemma lookup_writes (r : gmap Z string) (ws : list (Z * string)) k n :
  foldl (λ r w, <[w.1 := w.2]> r) r ws !! k = Some n → r !! k = Some n ∨ (k, n) ∈ ws.
Proof.
  revert r. induction ws as [|[k' n'] ws IH]; intros r; simpl; [by left|].
  intros [Hr|Hin]%IH; [|right; by constructor].
  rewrite lookup_insert in Hr. case_decide; simplify_eq.
  - right. constructor.
  - by left.
Qed.

(** Without colliding keys the order of the writes does not matter. *)
Lemma writes_list_to_map (r : gmap Z string) (ws : list (Z * string)) :
  NoDup ws.*1 → foldl (λ r w, <[w.1 := w.2]> r) r ws = list_to_map ws ∪ r.
Proof.
  revert r. induction ws as [|[k n] ws IH]; intros r; simpl.
  - intros _. by rewrite (left_id_L ∅ (∪)).
  - intros [Hk Hws]%NoDup_cons. rewrite IH by done.
    rewrite <-insert_union_l. symmetry. apply insert_union_r.
    by apply not_elem_of_list_to_map_1.
Qed.

(** *** Reading a chunk of a digest *)

Lemma hashVal_is_Some (bKey : list byte) : 4 ≤ length bKey → is_Some (hashVal bKey).
Proof.
  intros Hlen. unfold hashVal.
  destruct (lookup_lt_is_Some_2 bKey 3) as [b3 ->]; [lia|].
  destruct (lookup_lt_is_Some_2 bKey 2) as [b2 ->]; [lia|].
  destruct (lookup_lt_is_Some_2 bKey 1) as [b1 ->]; [lia|].
  destruct (lookup_lt_is_Some_2 bKey 0) as [b0 ->]; [lia|].
  simpl. eauto.
Qed.

Lemma chunkKey_is_Some bKey i : i * 4 + 4 ≤ dcap bKey → is_Some (chunkKey bKey i).
Proof.
  intros Hcap. unfold chunkKey, subslice.
  rewrite decide_True by lia. simpl. apply hashVal_is_Some.
  unfold dcap in Hcap. rewrite length_take, length_drop, length_app. lia.
Qed.

Lemma chunkKey_None bKey i : dcap bKey < i * 4 + 4 → chunkKey bKey i = None.
Proof. intros Hcap. unfold chunkKey, subslice. rewrite decide_False by lia. done. Qed.

(** *** Sizes and owners of the writes *)

Lemma concat_mapM_length {A B} (g : A → option (list B)) n l wss :
  (∀ x ws, g x = Some ws → length ws = n) →
  mapM g l = Some wss → length (concat wss) = length l * n.
Proof.
  intros Hg Hm. apply mapM_Some_1 in Hm.
  induction Hm as [|x ws l wss Hx _ IH]; simpl; [done|].
  rewrite length_app, IH. by rewrite (Hg _ _ Hx).
Qed.

Lemma concat_mapM_Forall {A B} (P : B → Prop) (g : A → option (list B)) l wss :
  (∀ x ws, x ∈ l → g x = Some ws → Forall P ws) →
  mapM g l = Some wss → Forall P (concat wss).
Proof.
  intros Hg Hm. apply mapM_Some_1 in Hm.
  induction Hm as [|x ws l wss Hx _ IH]; simpl; [constructor|].
  apply Forall_app. split.
  - apply (Hg x); [constructor|done].
  - apply IH. intros y ws' Hy. apply Hg. by constructor.
Qed.

Lemma keyWrites_length node bKey i ws : keyWrites node bKey i = Some ws → length ws = 1.
Proof. unfold keyWrites. destruct (chunkKey bKey i); simpl; intros; by simplify_eq. Qed.

Lemma keyWrites_owner node bKey i ws :
  keyWrites node bKey i = Some ws → Forall (λ w, w.2 = node) ws.
Proof.
  unfold keyWrites. destruct (chunkKey bKey i); simpl; intros; simplify_eq.
  by repeat constructor.
Qed.

Lemma groupWrites_length h node j ws : groupWrites h node j = Some ws → length ws = 3.
Proof.
  unfold groupWrites. intros Hg. apply fmap_Some in Hg as (wss & Hm & ->).
  by rewrite (concat_mapM_length _ 1 _ _ (keyWrites_length _ _) Hm).
Qed.

Lemma groupWrites_owner h node j ws :
  groupWrites h node j = Some ws → Forall (λ w, w.2 = node) ws.
Proof.
  unfold groupWrites. intros Hg. apply fmap_Some in Hg as (wss & Hm & ->).
  eapply concat_mapM_Forall; [|done]. intros ? ? _. apply keyWrites_owner.
Qed.

(** A node's pass of the outer loop writes [3 * factor] points. *)
Lemma nodeWrites_length h node ws :
  nodeWrites h node = Some ws → length ws = Z.to_nat (factor h node) * 3.
Proof.
  unfold nodeWrites. intros Hg. apply fmap_Some in Hg as (wss & Hm & ->).
  rewrite (concat_mapM_length _ 3 _ _ (groupWrites_length _ _) Hm).
  by rewrite length_seqZ.
Qed.

Lemma nodeWrites_owner h node ws :
  nodeWrites h node = Some ws → Forall (λ w, w.2 = node) ws.
Proof.
  unfold nodeWrites. intros Hg. apply fmap_Some in Hg as (wss & Hm & ->).
  eapply concat_mapM_Forall; [|done]. intros ? ? _. apply groupWrites_owner.
Qed.

Lemma circleWrites_owner h ws :
  circleWrites h = Some ws → Forall (λ w, w.2 ∈ nodes h) ws.
Proof.
  unfold circleWrites. intros Hg. apply fmap_Some in Hg as (wss & Hm & ->).
  eapply concat_mapM_Forall; [|done]. intros node ws Hnode Hws.
  eapply Forall_impl; [by apply nodeWrites_owner in Hws|].
  simpl. by intros ? ->.
Qed.

(** ** The invariant of a built ring *)

Lemma sortKeys_Sorted s : Sorted Z.le (sortKeys s).
Proof. apply (Sorted_merge_sort Z.le). Qed.

Lemma sortKeys_Permutation s : sortKeys s ≡ₚ s.
Proof. apply merge_sort_Permutation. Qed.

(** Two permutations of the same keys sort to the same list. *)
Lemma sortKeys_perm s1 s2 : s1 ≡ₚ s2 → sortKeys s1 = sortKeys s2.
Proof.
  intros Hp. apply (Sorted_unique Z.le); try apply sortKeys_Sorted.
  by rewrite !sortKeys_Permutation.
Qed.

(** [generateCircle] on the struct literal the constructors and mutators
    build: [ring] and [sortedKeys] empty. *)
Lemma generateCircle_fresh hp ns ws h :
  generateCircle (mkHashRing ∅ hp [] ns ws) = Some h →
  ∃ wr, circleWrites (mkHashRing ∅ hp [] ns ws) = Some wr ∧
        h = mkHashRing (foldl (λ r w, <[w.1 := w.2]> r) ∅ wr) hp (sortKeys wr.*1) ns ws.
Proof.
  rewrite generateCircle_writes. intros Hg.
  apply bind_Some in Hg as (wr & Hwr & Hh). simpl in Hh. exists wr. split; [done|].
  by simplify_eq.
Qed.

Lemma generateCircle_fresh_inv hp ns ws h :
  generateCircle (mkHashRing ∅ hp [] ns ws) = Some h → ring_inv h.
Proof.
  intros (wr & Hwr & ->)%generateCircle_fresh. repeat split; simpl.
  - apply sortKeys_Sorted.
  - rewrite dom_writes, dom_empty_L, (left_id_L ∅ (∪)).
    apply set_eq. intros k. rewrite !elem_of_list_to_set.
    by rewrite sortKeys_Permutation.
  - intros k node [Hk|Hk]%lookup_writes; [by rewrite lookup_empty in Hk|].
    apply circleWrites_owner in Hwr. rewrite Forall_forall in Hwr.
    apply (Hwr _ Hk).
Qed.

(** ** Calls on the store *)

Lemma loop_invariant {S A} (P : S → Prop) (body : S → A → option S) l s s' :
  P s → (∀ s x s', P s → body s x = Some s' → P s') → loop body s l = Some s' → P s'.
Proof.
  intros Hs Hbody. revert s Hs. induction l as [|x l IH]; intros s Hs; simpl.
  - by intros [= <-].
  - intros (s1 & Hs1 & Hl)%bind_Some. eapply IH; [|done]. by eapply Hbody.
Qed.

(** Allocating the struct literal, filling it and returning its pointer:
    the tail shared by the constructors and mutators. *)
Lemma build_step (h0 : HashRing) (σ : heap) :
  (hashRing <- alloc h0;; generateCircleAt hashRing;;; ret hashRing)%M σ =
    h' ← generateCircle h0; Some (fresh (dom σ), <[fresh (dom σ) := h']> σ).
Proof.
  unfold bind, alloc, generateCircleAt, ret. simpl. rewrite lookup_insert_eq. simpl.
  destruct (generateCircle h0) as [h'|]; simpl; [|done].
  by rewrite insert_insert_eq.
Qed.

(** A call either returns the pointer it was given and leaves the store
    alone, or stores a ring built from a struct literal at an unused
    location and returns that location. *)
Lemma exec_cases md5 c (σ : heap) l σ' :
  exec md5 c σ = Some (l, σ') →
  σ' = σ ∨
  ∃ hp ns ws h', generateCircle (mkHashRing ∅ hp [] ns ws) = Some h' ∧
                 l = fresh (dom σ) ∧ σ' = <[l := h']> σ.
Proof.
  destruct c as [ns hp|order ws hp|h node|h node weight|h node]; simpl.
  - unfold New. rewrite build_step. intros (h' & Hh' & ?)%bind_Some. simplify_eq.
    right. eauto 10.
  - case_decide; [|done]. unfold NewWithWeights. rewrite build_step.
    intros (h' & Hh' & ?)%bind_Some. simplify_eq. right. eauto 10.
  - unfold AddNode, AddWeightedNode. case_decide; [intros [= <- <-]; by left|].
    unfold bind at 1, deref. destruct (σ !! h) as [r|]; simpl; [|done].
    case_decide; [intros [= <- <-]; by left|].
    rewrite build_step. intros (h' & Hh' & ?)%bind_Some. simplify_eq. right. eauto 10.
  - unfold AddWeightedNode. case_decide; [intros [= <- <-]; by left|].
    unfold bind at 1, deref. destruct (σ !! h) as [r|]; simpl; [|done].
    case_decide; [intros [= <- <-]; by left|].
    rewrite build_step. intros (h' & Hh' & ?)%bind_Some. simplify_eq. right. eauto 10.
  - unfold RemoveNode. unfold bind at 1, deref. destruct (σ !! h) as [r|]; simpl; [|done].
    rewrite build_step. intros (h' & Hh' & ?)%bind_Some. simplify_eq. right. eauto 10.
Qed.

Lemma run_inv md5 script (σ : heap) :
  run md5 script = Some σ → map_Forall (λ _ h, ring_inv h) σ.
Proof.
  unfold run. apply loop_invariant.
  - apply map_Forall_empty.
  - intros σ0 c σ1 Hinv Hc. apply fmap_Some in Hc as ([l σ2] & Hc & ->). simpl.
    apply exec_cases in Hc as [->|(hp & ns & ws & h' & Hh' & -> & ->)]; [done|].
    apply map_Forall_insert_2; [|done]. by eapply generateCircle_fresh_inv.
Qed.

(** ** Binary search *)

Lemma Sorted_le_lookup (l : list Z) i j x y :
  Sorted Z.le l → l !! i = Some x → l !! j = Some y → i ≤ j → (x ≤ y)%Z.
Proof.
  intros Hs%(Sorted_StronglySorted Z.le). revert i j.
  induction Hs as [|z l Hl IH Hz]; intros i j Hi Hj Hij; [done|].
  destruct i as [|i], j as [|j]; simpl in *; simplify_eq; try lia.
  - rewrite Forall_forall in Hz. apply Hz. by eapply list_elem_of_lookup_2.
  - eapply IH; [done..|lia].
Qed.

Lemma half_bounds i j : i < j → i ≤ (i + j) / 2 < j.
Proof.
  intros Hij. pose proof (Nat.div_mod_eq (i + j) 2).
  pose proof (Nat.mod_upper_bound (i + j) 2). lia.
Qed.

Lemma search_loop_step f i j :
  search_loop f i j =
    if decide (i < j)
    then if f ((i + j) / 2) then search_loop f i ((i + j) / 2)
         else search_loop f ((i + j) / 2 + 1) j
    else i.
Proof. rewrite search_loop_equation_1. by destruct (decide (i < j)). Qed.

(** On a predicate that is false, then true, the loop narrows [i, j] down
    to the first index where it is true. *)
Lemma search_loop_spec (f : nat → bool) n d :
  ∀ i j, j - i ≤ d → i ≤ j ≤ n →
    (∀ a b, a ≤ b < n → f a = true → f b = true) →
    (∀ k, k < i → f k = false) → (∀ k, j ≤ k < n → f k = true) →
    i ≤ search_loop f i j ≤ j ∧
    (∀ k, k < search_loop f i j → f k = false) ∧
    (∀ k, search_loop f i j ≤ k < n → f k = true).
Proof.
  induction d as [|d IH]; intros i j Hd Hij Hmono Hlo Hhi;
    rewrite search_loop_step; case_decide as Hlt; try lia;
    try (assert (i = j) as -> by lia; split; [lia|by split]).
  pose proof (half_bounds i j Hlt) as Hh.
  destruct (f ((i + j) / 2)) eqn:Hf.
  - destruct (IH i ((i + j) / 2)) as (? & ? & ?); try done; try lia.
    { intros k Hk. apply (Hmono ((i + j) / 2)); [lia|done]. }
    split; [lia|done].
  - destruct (IH ((i + j) / 2 + 1) j) as (? & ? & ?); try done; try lia.
    { intros k Hk. destruct (f k) eqn:Hfk; [|done].
      rewrite <-Hf. symmetry. apply (Hmono k); [lia|done]. }
    split; [lia|done].
Qed.

Lemma Search_firstGreater (keys : list Z) (key : Z) :
  Sorted Z.le keys →
  let pos := Search (length keys) (greaterAt keys key) in
  pos ≤ length keys ∧
  firstGreater key keys = if decide (pos = length keys) then None else Some pos.
Proof.
  intros Hs pos.
  destruct (search_loop_spec (greaterAt keys key) (length keys) (length keys) 0 (length keys))
    as (Hr & Hlo & Hhi); try lia.
  { intros a b Hab. unfold greaterAt.
    destruct (keys !! a) as [x|] eqn:Ha; [|done].
    destruct (lookup_lt_is_Some_2 keys b) as [y Hb]; [lia|]. rewrite Hb.
    intros Hx%bool_decide_eq_true. apply bool_decide_eq_true.
    pose proof (Sorted_le_lookup keys a b x y Hs Ha Hb). lia. }
  fold (Search (length keys) (greaterAt keys key)) in Hr, Hlo, Hhi. fold pos in Hr, Hlo, Hhi.
  split; [lia|]. unfold firstGreater. case_decide as Hpos.
  - apply fmap_None, list_find_None, Forall_forall. intros x Hx.
    apply list_elem_of_lookup_1 in Hx as [k Hk].
    pose proof (lookup_lt_Some _ _ _ Hk) as Hlt.
    specialize (Hlo k ltac:(lia)). unfold greaterAt in Hlo. rewrite Hk in Hlo.
    by apply bool_decide_eq_false in Hlo.
  - destruct (lookup_lt_is_Some_2 keys pos) as [x Hx]; [lia|].
    apply fmap_Some. exists (pos, x). split; [|done].
    apply list_find_Some. split_and!; [done| |].
    + specialize (Hhi pos ltac:(lia)). unfold greaterAt in Hhi. rewrite Hx in Hhi.
      by apply bool_decide_eq_true in Hhi.
    + intros k y Hy Hk. specialize (Hlo k Hk). unfold greaterAt in Hlo. rewrite Hy in Hlo.
      by apply bool_decide_eq_false in Hlo.
Qed.

(** ** Locating a key *)

Lemma GenKey_is_Some h stringKey :
  4 ≤ dlen (hashDigest h stringKey) → is_Some (GenKey h stringKey).
Proof.
  intros Hlen. apply (chunkKey_is_Some (hashDigest h stringKey) 0).
  unfold dlen, dcap in *. lia.
Qed.

Lemma GetNodePos_empty h stringKey :
  size (ring h) = 0 → GetNodePos h stringKey = Some (0, false).
Proof. intros Hsz. unfold GetNodePos. by rewrite decide_True. Qed.

Lemma GetNodePos_nonempty h stringKey key :
  size (ring h) ≠ 0 → Sorted Z.le (sortedKeys h) → GenKey h stringKey = Some key →
  GetNodePos h stringKey = Some (default 0 (firstGreater key (sortedKeys h)), true).
Proof.
  intros Hsz Hs Hkey. unfold GetNodePos. rewrite decide_False by done.
  rewrite Hkey. simpl.
  destruct (Search_firstGreater (sortedKeys h) key Hs) as [_ ->].
  by case_decide.
Qed.

(** In a ring that satisfies the invariant and has points, the position is
    an index of [sortedKeys]. *)
Lemma GetNodePos_in_range h stringKey :
  ring_inv h → size (ring h) ≠ 0 → 4 ≤ dlen (hashDigest h stringKey) →
  ∃ pos, GetNodePos h stringKey = Some (pos, true) ∧ pos < length (sortedKeys h).
Proof.
  intros (Hs & Hdom & _) Hsz Hlen.
  destruct (GenKey_is_Some h stringKey Hlen) as [key Hkey].
  rewrite (GetNodePos_nonempty h stringKey key) by done.
  eexists. split; [done|].
  assert (0 < length (sortedKeys h)) as Hpos.
  { destruct (sortedKeys h) as [|k ks] eqn:Hks; simpl; [|lia].
    simpl in Hdom. symmetry in Hdom. apply dom_empty_inv_L in Hdom.
    rewrite Hdom, map_size_empty in Hsz. done. }
  destruct (Search_firstGreater (sortedKeys h) key Hs) as [Hle ->].
  case_decide; simpl; lia.
Qed.

(** ** Walking the circle *)

Lemma firstSeen_prefix vals acc : ∃ ext, firstSeen vals acc = acc ++ ext.
Proof.
  revert acc. induction vals as [|v vals IH]; intros acc; simpl.
  - exists []. by rewrite app_nil_r.
  - case_decide; [apply IH|].
    destruct (IH (acc ++ [v])) as [ext ->]. exists ([v] ++ ext). by rewrite app_assoc.
Qed.

Lemma firstSeen_NoDup vals acc : NoDup acc → NoDup (firstSeen vals acc).
Proof.
  revert acc. induction vals as [|v vals IH]; intros acc Hacc; simpl; [done|].
  case_decide; apply IH; [done|].
  apply NoDup_app. split_and!; [done| |apply NoDup_singleton].
  intros x Hx ->%list_elem_of_singleton. done.
Qed.

Lemma firstSeen_elem_of vals acc x : x ∈ firstSeen vals acc ↔ x ∈ acc ∨ x ∈ vals.
Proof.
  revert acc. induction vals as [|v vals IH]; intros acc; simpl.
  - rewrite elem_of_nil. naive_solver.
  - rewrite elem_of_cons. case_decide; rewrite IH; [naive_solver|].
    rewrite elem_of_app, list_elem_of_singleton. naive_solver.
Qed.

(** The loop never breaks once more nodes are collected than asked for. *)
Lemma walk_all r size keys (seen : gset string) res :
  seen = list_to_set res → NoDup res → (size < Z.of_nat (length res))%Z →
  walk r size keys seen res = firstSeen (ringAt r <$> keys) res.
Proof.
  revert seen res. induction keys as [|key keys IH]; intros seen res -> Hnd Hsz; csimpl; [done|].
  destruct (decide (ringAt r key ∈ (list_to_set res : gset string))) as [Hin|Hin].
  - assert (ringAt r key ∈ res) as Hres by (by rewrite elem_of_list_to_set in Hin).
    rewrite (decide_True (P := ringAt r key ∈ res)) by done.
    rewrite decide_False by (rewrite size_list_to_set by done; lia).
    by apply IH.
  - assert (ringAt r key ∉ res) as Hres by (by rewrite elem_of_list_to_set in Hin).
    assert (NoDup (res ++ [ringAt r key])) as Hnd'.
    { apply NoDup_app. split_and!; [done| |apply NoDup_singleton].
      intros x Hx ->%list_elem_of_singleton. done. }
    assert ({[ringAt r key]} ∪ list_to_set res =@{gset string} list_to_set (res ++ [ringAt r key]))
      as Heq by (rewrite list_to_set_app_L; set_solver).
    rewrite (decide_False (P := ringAt r key ∈ res)) by done.
    rewrite Heq. rewrite decide_False by (rewrite size_list_to_set, length_app by done; simpl; lia).
    apply IH; [done..|]. rewrite length_app. simpl. lia.
Qed.

(** While fewer nodes are collected than asked for, the loop returns the
    first [size] distinct nodes, or all of them if there are fewer. *)
Lemma walk_take r size keys (seen : gset string) res :
  seen = list_to_set res → NoDup res → (Z.of_nat (length res) < size)%Z →
  walk r size keys seen res = take (Z.to_nat size) (firstSeen (ringAt r <$> keys) res).
Proof.
  revert seen res. induction keys as [|key keys IH]; intros seen res -> Hnd Hsz; csimpl.
  { rewrite take_ge; [done|lia]. }
  destruct (decide (ringAt r key ∈ (list_to_set res : gset string))) as [Hin|Hin].
  - assert (ringAt r key ∈ res) as Hres by (by rewrite elem_of_list_to_set in Hin).
    rewrite (decide_True (P := ringAt r key ∈ res)) by done.
    rewrite decide_False by (rewrite size_list_to_set by done; lia).
    by apply IH.
  - assert (ringAt r key ∉ res) as Hres by (by rewrite elem_of_list_to_set in Hin).
    assert (NoDup (res ++ [ringAt r key])) as Hnd'.
    { apply NoDup_app. split_and!; [done| |apply NoDup_singleton].
      intros x Hx ->%list_elem_of_singleton. done. }
    assert ({[ringAt r key]} ∪ list_to_set res =@{gset string} list_to_set (res ++ [ringAt r key]))
      as Heq by (rewrite list_to_set_app_L; set_solver).
    rewrite (decide_False (P := ringAt r key ∈ res)) by done.
    rewrite Heq, size_list_to_set by done.
    case_decide as Hfull.
    + destruct (firstSeen_prefix (ringAt r <$> keys) (res ++ [ringAt r key])) as [ext ->].
      rewrite take_app_length'; [done|lia].
    + apply IH; [done..|]. rewrite length_app in *. simpl in *. lia.
Qed.

Lemma walk_nonpositive r size keys :
  (size ≤ 0)%Z → walk r size keys ∅ [] = firstSeen (ringAt r <$> keys) [].
Proof.
  intros Hsz. destruct keys as [|key keys]; csimpl; [done|].
  destruct (decide (ringAt r key ∈ (∅ : gset string))) as [Hin|_]; [set_solver|].
  rewrite decide_False by (rewrite (right_id_L ∅ (∪)), size_singleton; lia).
  apply walk_all; [done|apply NoDup_singleton|simpl; lia].
Qed.

(** [GetNodes] past its two guards. *)
Lemma GetNodes_walk h stringKey size pos :
  GetNodePos h stringKey = Some (pos, true) → (size ≤ Z.of_nat (length (nodes h)))%Z →
  let res := if decide (1 ≤ size)%Z then take (Z.to_nat size) (ownersFrom h pos)
             else ownersFrom h pos in
  GetNodes h stringKey size = Some (res, bool_decide (Z.of_nat (length res) = size)).
Proof.
  intros Hpos Hsz res. unfold GetNodes. rewrite Hpos. simpl.
  rewrite decide_False by lia.
  assert (walk (ring h) size (drop pos (sortedKeys h) ++ take pos (sortedKeys h)) ∅ [] = res)
    as ->; [|done].
  unfold res, ownersFrom. case_decide.
  - apply walk_take; [done|constructor|simpl; lia].
  - apply walk_nonpositive. lia.
Qed.

Lemma rotate_elem_of (l : list Z) pos x : x ∈ drop pos l ++ take pos l ↔ x ∈ l.
Proof. rewrite <-(take_drop pos l) at 3. rewrite !elem_of_app. naive_solver. Qed.

Lemma ownersFrom_NoDup h pos : NoDup (ownersFrom h pos).
Proof. apply firstSeen_NoDup. constructor. Qed.

Lemma ownersFrom_elem_of h pos node :
  ring_inv h → node ∈ ownersFrom h pos ↔ node ∈ pointOwners h.
Proof.
  intros (_ & Hdom & _). unfold ownersFrom, pointOwners.
  rewrite firstSeen_elem_of, elem_of_nil, list_elem_of_fmap, elem_of_map_img.
  split.
  - intros [[]|(k & -> & Hk)]. apply rotate_elem_of in Hk.
    assert (k ∈ dom (ring h)) as [n Hn]%elem_of_dom by (rewrite <-Hdom; by apply elem_of_list_to_set).
    exists k. unfold ringAt. by rewrite Hn.
  - intros (k & Hk). right. exists k. split; [unfold ringAt; by rewrite Hk|].
    apply rotate_elem_of. apply (elem_of_list_to_set (C := gset Z)).
    rewrite Hdom. by apply elem_of_dom.
Qed.

Lemma ownersFrom_length h pos :
  ring_inv h → length (ownersFrom h pos) = size (pointOwners h).
Proof.
  intros Hinv. rewrite <-(size_list_to_set (C := gset string)) by apply ownersFrom_NoDup.
  f_equal. apply set_eq. intros node. rewrite elem_of_list_to_set.
  by apply ownersFrom_elem_of.
Qed.

Lemma ring_nonempty h :
  ring_inv h → size (ring h) ≠ 0 →
  0 < length (nodes h) ∧ 0 < size (pointOwners h).
Proof.
  intros (_ & _ & Hown) Hsz.
  destruct (map_choose (ring h)) as (k & n & Hk).
  { intros Hempty. by rewrite Hempty, map_size_empty in Hsz. }
  split.
  - specialize (Hown _ _ Hk). simpl in Hown. destruct (nodes h); [by apply elem_of_nil in Hown|simpl; lia].
  - assert (n ∈ pointOwners h) as Hn by (apply elem_of_map_img; eauto).
    destruct (decide (size (pointOwners h) = 0)) as [Hz|]; [|lia].
    apply size_empty_inv in Hz. set_solver.
Qed.

(** * The specification, statement by statement *)

(** C3. [GetNodePos] returns [found = false] exactly when the ring has no
    points.  On a ring with points (its keys sorted, the digest of the key
    at least 4 bytes long) it returns [found = true] and the index of the
    first entry of [sortedKeys] strictly greater than [GenKey(key)], or 0
    when no entry is strictly greater. *)
Theorem GetNodePos_locates (h : HashRing) (stringKey : string) :
  (size (ring h) = 0 → GetNodePos h stringKey = Some (0, false)) ∧
  (size (ring h) ≠ 0 → Sorted Z.le (sortedKeys h) → 4 ≤ dlen (hashDigest h stringKey) →
   ∃ key, GenKey h stringKey = Some key ∧
          GetNodePos h stringKey =
            Some (default 0 (firstGreater key (sortedKeys h)), true)).
Proof.
  split.
  - apply GetNodePos_empty.
  - intros Hsz Hs Hlen. destruct (GenKey_is_Some h stringKey Hlen) as [key Hkey].
    exists key. split; [done|]. by apply GetNodePos_nonempty.
Qed.

Lemma GetNodePos_locates_witness :
  ∃ key, GenKey singleRing "foo" = Some key ∧
         GetNodePos singleRing "foo" =
           Some (default 0 (firstGreater key (sortedKeys singleRing)), true).
Proof.
  apply (proj2 (GetNodePos_locates singleRing "foo")).
  - vm_compute. lia.
  - apply (bool_decide_unpack _). vm_compute. reflexivity.
  - vm_compute. lia.
Defined.

(** C5. On a ring with points, [GetNodes(key, 1)] is the one-element
    sequence holding the node [GetNode(key)] returns, with [ok = true];
    on a ring without points both report failure. *)
Theorem GetNodes_one_is_GetNode (h : HashRing) (stringKey : string) :
  ring_inv h → 4 ≤ dlen (hashDigest h stringKey) →
  (size (ring h) = 0 →
   GetNode h stringKey = Some ("", false) ∧ GetNodes h stringKey 1 = Some ([], false)) ∧
  (size (ring h) ≠ 0 →
   ∃ node, GetNode h stringKey = Some (node, true) ∧
           GetNodes h stringKey 1 = Some ([node], true)).
Proof.
  intros Hinv Hlen. split; intros Hsz.
  - unfold GetNode, GetNodes. by rewrite GetNodePos_empty.
  - destruct (GetNodePos_in_range h stringKey Hinv Hsz Hlen) as (pos & Hpos & Hlt).
    destruct (lookup_lt_is_Some_2 (sortedKeys h) pos Hlt) as [key Hkey].
    destruct (ring_nonempty h Hinv Hsz) as [Hnodes _].
    exists (ringAt (ring h) key). split.
    + unfold GetNode. rewrite Hpos. simpl. by rewrite Hkey.
    + unfold GetNodes. rewrite Hpos. simpl. rewrite decide_False by lia.
      rewrite (drop_S _ _ _ Hkey). simpl.
      destruct (decide (ringAt (ring h) key ∈ (∅ : gset string))) as [Hin|_]; [set_solver|].
      rewrite decide_True by (by rewrite (right_id_L ∅ (∪)), size_singleton).
      done.
Qed.

Lemma GetNodes_one_is_GetNode_witness :
  ∃ node, GetNode singleRing "foo" = Some (node, true) ∧
          GetNodes singleRing "foo" 1 = Some ([node], true).
Proof.
  apply (proj2 (GetNodes_one_is_GetNode singleRing "foo"
                  ltac:(apply (bool_decide_unpack _); vm_compute; reflexivity)
                  ltac:(vm_compute; lia))).
  vm_compute. lia.
Defined.

(** C10. On a ring with points, [GetNodes] with [size <= 0] is not the
    empty refusal: it walks the whole circle from the key's position and
    returns every node that owns a point, each once, in the order of the
    first encounter, with [ok = false]. *)
Theorem GetNodes_nonpositive_size (h : HashRing) (stringKey : string) (size : Z) :
  ring_inv h → base.size (ring h) ≠ 0 → 4 ≤ dlen (hashDigest h stringKey) →
  (size ≤ 0)%Z →
  ∃ pos, GetNodePos h stringKey = Some (pos, true) ∧
         GetNodes h stringKey size = Some (ownersFrom h pos, false) ∧
         ownersFrom h pos ≠ [] ∧
         NoDup (ownersFrom h pos) ∧
         ∀ node, node ∈ ownersFrom h pos ↔ ∃ key, ring h !! key = Some node.
Proof.
  intros Hinv Hne Hlen Hsz.
  destruct (GetNodePos_in_range h stringKey Hinv Hne Hlen) as (pos & Hpos & Hlt).
  destruct (ring_nonempty h Hinv Hne) as [Hnodes Hown].
  pose proof (ownersFrom_length h pos Hinv) as Hlen'.
  exists pos. split_and!; [done| | |apply ownersFrom_NoDup|].
  - rewrite (GetNodes_walk h stringKey size pos Hpos) by lia.
    rewrite decide_False by lia. rewrite bool_decide_eq_false_2 by lia. done.
  - intros Hnil. rewrite Hnil in Hlen'. simpl in Hlen'. lia.
  - intros node. rewrite (ownersFrom_elem_of h pos node Hinv).
    unfold pointOwners. by rewrite elem_of_map_img.
Qed.

Lemma GetNodes_nonpositive_size_witness :
  ∃ pos, GetNodePos singleRing "foo" = Some (pos, true) ∧
         GetNodes singleRing "foo" 0 = Some (ownersFrom singleRing pos, false) ∧
         ownersFrom singleRing pos ≠ [] ∧
         NoDup (ownersFrom singleRing pos) ∧
         ∀ node, node ∈ ownersFrom singleRing pos ↔ ∃ key, ring singleRing !! key = Some node.
Proof.
  apply (GetNodes_nonpositive_size singleRing "foo" 0).
  - apply (bool_decide_unpack _). vm_compute. reflexivity.
  - vm_compute. lia.
  - vm_compute. lia.
  - lia.
Defined.

(** C1, as stated, fails: a ring built by [NewWithWeights] from two
    distinct nodes with positive weights, in which only one node owns
    points, answers [GetNodes(key, 2)] with a non-empty sequence and
    [ok = false]. *)
Lemma GetNodes_partial_answer :
  range_order skewedWeights ["a"; "b"] ∧
  (h ← ringOf (NewWithWeights lengthDigest ["a"; "b"] skewedWeights
                 (Some (sampleDigest 16 0)));
   Some (nodes h, size (pointOwners h), GetNodes h "foo" 2))
  = Some (["a"; "b"], 1, Some (["a"], false)).
Proof.
  split.
  - apply (bool_decide_unpack _). vm_compute. reflexivity.
  - vm_compute. reflexivity.
Qed.

(** C1, amended.  [GetNodes] returns the empty sequence with [ok = false]
    exactly when the ring has no points or [size] exceeds the length of the
    node list.  Past these guards it walks the circle from the key's
    position: when [1 <= size <=] the number of nodes that own points, it
    returns the first [size] distinct nodes with [ok = true]; otherwise
    ([size <= 0], or fewer owners than [size]) it returns all the owners,
    a non-empty sequence, with [ok = false]. *)
Theorem GetNodes_refusal_or_walk (h : HashRing) (stringKey : string) (size : Z) :
  ring_inv h → 4 ≤ dlen (hashDigest h stringKey) →
  (GetNodes h stringKey size = Some ([], false) ↔
   base.size (ring h) = 0 ∨ (Z.of_nat (length (nodes h)) < size)%Z) ∧
  (base.size (ring h) ≠ 0 → (size ≤ Z.of_nat (length (nodes h)))%Z →
   ∃ pos, GetNodePos h stringKey = Some (pos, true) ∧
     ((1 ≤ size ≤ Z.of_nat (base.size (pointOwners h)))%Z →
      GetNodes h stringKey size = Some (take (Z.to_nat size) (ownersFrom h pos), true) ∧
      Z.of_nat (length (take (Z.to_nat size) (ownersFrom h pos))) = size) ∧
     ((size ≤ 0 ∨ Z.of_nat (base.size (pointOwners h)) < size)%Z →
      GetNodes h stringKey size = Some (ownersFrom h pos, false) ∧
      ownersFrom h pos ≠ [])).
Proof.
  intros Hinv Hlen.
  assert (base.size (ring h) ≠ 0 → (size ≤ Z.of_nat (length (nodes h)))%Z →
   ∃ pos, GetNodePos h stringKey = Some (pos, true) ∧
     ((1 ≤ size ≤ Z.of_nat (base.size (pointOwners h)))%Z →
      GetNodes h stringKey size = Some (take (Z.to_nat size) (ownersFrom h pos), true) ∧
      Z.of_nat (length (take (Z.to_nat size) (ownersFrom h pos))) = size) ∧
     ((size ≤ 0 ∨ Z.of_nat (base.size (pointOwners h)) < size)%Z →
      GetNodes h stringKey size = Some (ownersFrom h pos, false) ∧
      ownersFrom h pos ≠ [])) as Hwalk.
  { intros Hne Hsz.
    destruct (GetNodePos_in_range h stringKey Hinv Hne Hlen) as (pos & Hpos & Hlt).
    destruct (ring_nonempty h Hinv Hne) as [Hnodes Hown].
    pose proof (ownersFrom_length h pos Hinv) as Hlen'.
    pose proof (GetNodes_walk h stringKey size pos Hpos Hsz) as Hget. simpl in Hget.
    exists pos. split_and!; [done| |].
    - intros Hrange. rewrite decide_True in Hget by lia.
      assert (Z.of_nat (length (take (Z.to_nat size) (ownersFrom h pos))) = size) as Htake
        by (rewrite length_take; lia).
      split; [|done]. by rewrite Hget, bool_decide_eq_true_2.
    - intros Hrange.
      assert (ownersFrom h pos ≠ []) as Hnil.
      { intros Hnil. rewrite Hnil in Hlen'. simpl in Hlen'. lia. }
      split; [|done]. destruct Hrange as [Hle|Hgt].
      + rewrite decide_False in Hget by lia.
        by rewrite Hget, bool_decide_eq_false_2 by lia.
      + destruct (decide (1 ≤ size)%Z) as [H1|H1].
        * rewrite take_ge in Hget by lia. by rewrite Hget, bool_decide_eq_false_2 by lia.
        * by rewrite Hget, bool_decide_eq_false_2 by lia. }
  split; [|done]. split.
  - intros Hget.
    destruct (decide (base.size (ring h) = 0)) as [|Hne]; [by left|].
    destruct (decide (Z.of_nat (length (nodes h)) < size)%Z) as [|Hsz]; [by right|].
    exfalso. destruct (Hwalk Hne ltac:(lia)) as (pos & _ & Hin & Hout).
    destruct (decide (1 ≤ size ≤ Z.of_nat (base.size (pointOwners h)))%Z) as [Hr|Hr].
    + destruct (Hin Hr) as [Hget' _]. congruence.
    + destruct (Hout ltac:(lia)) as [Hget' Hnil]. congruence.
  - intros [Hempty|Hsz].
    + unfold GetNodes. by rewrite GetNodePos_empty.
    + destruct (decide (base.size (ring h) = 0)) as [Hempty|Hne].
      * unfold GetNodes. by rewrite GetNodePos_empty.
      * destruct (GetNodePos_in_range h stringKey Hinv Hne Hlen) as (pos & Hpos & _).
        unfold GetNodes. rewrite Hpos. simpl. by rewrite decide_True.
Qed.

Lemma GetNodes_refusal_or_walk_witness :
  ∃ pos, GetNodePos skewedRing "foo" = Some (pos, true) ∧
     ((1 ≤ 2 ≤ Z.of_nat (size (pointOwners skewedRing)))%Z →
      GetNodes skewedRing "foo" 2 = Some (take (Z.to_nat 2) (ownersFrom skewedRing pos), true) ∧
      Z.of_nat (length (take (Z.to_nat 2) (ownersFrom skewedRing pos))) = 2%Z) ∧
     ((2 ≤ 0 ∨ Z.of_nat (size (pointOwners skewedRing)) < 2)%Z →
      GetNodes skewedRing "foo" 2 = Some (ownersFrom skewedRing pos, false) ∧
      ownersFrom skewedRing pos ≠ []).
Proof.
  apply (proj2 (GetNodes_refusal_or_walk skewedRing "foo" 2
                  ltac:(apply (bool_decide_unpack _); vm_compute; reflexivity)
                  ltac:(vm_compute; lia))).
  - vm_compute. lia.
  - vm_compute. discriminate.
Defined.

Lemma default_is_Some {A} (d : A) (o : option A) : is_Some o → o = Some (default d o).
Proof. by intros [x ->]. Qed.

(** C9. In every ring produced by [New], [NewWithWeights], [AddNode],
    [AddWeightedNode] or [RemoveNode], [sortedKeys] is in ascending order
    and every key of [sortedKeys] has an entry in the [ring] map. *)
Theorem built_rings_sorted_and_mapped (md5 : provider) (script : list call) (σ : heap)
    (l : loc) (h : HashRing) :
  run md5 script = Some σ → σ !! l = Some h →
  (∀ i j ki kj, sortedKeys h !! i = Some ki → sortedKeys h !! j = Some kj → i ≤ j → (ki ≤ kj)%Z) ∧
  (∀ key, key ∈ sortedKeys h → is_Some (ring h !! key)).
Proof.
  intros Hrun Hl. destruct (run_inv md5 script σ Hrun l h Hl) as (Hs & Hdom & _).
  split.
  - intros i j ki kj Hi Hj Hij. by apply (Sorted_le_lookup (sortedKeys h) i j).
  - intros key Hkey. apply elem_of_dom. rewrite <-Hdom. by apply elem_of_list_to_set.
Qed.

Lemma built_rings_sorted_and_mapped_witness :
  ∃ h, sampleStore !! 3%positive = Some h ∧
    (∀ i j ki kj, sortedKeys h !! i = Some ki → sortedKeys h !! j = Some kj → i ≤ j → (ki ≤ kj)%Z) ∧
    (∀ key, key ∈ sortedKeys h → is_Some (ring h !! key)).
Proof.
  assert (sampleStore !! 3%positive
          = Some (default (mkHashRing ∅ lengthDigest [] [] ∅) (sampleStore !! 3%positive))) as Hl.
  { apply default_is_Some. apply (bool_decide_unpack _). vm_compute. reflexivity. }
  eexists. split; [exact Hl|].
  apply (built_rings_sorted_and_mapped (sampleDigest 16 0) sampleScript sampleStore 3%positive);
    [|exact Hl].
  apply default_is_Some. apply (bool_decide_unpack _). vm_compute. reflexivity.
Defined.

(** C6. [AddWeightedNode] returns the pointer it was called on, the store
    untouched, whenever [weight <= 0] or the node is already in [nodes];
    [AddNode(node)] is [AddWeightedNode(node, 1)]. *)
Theorem AddWeightedNode_noop (σ : heap) (l : loc) (h : HashRing) (node : string) (weight : Z) :
  σ !! l = Some h → (weight ≤ 0)%Z ∨ node ∈ nodes h →
  AddWeightedNode l node weight σ = Some (l, σ) ∧
  AddNode l node = AddWeightedNode l node 1.
Proof.
  intros Hl Hnoop. split; [|done].
  unfold AddWeightedNode. case_decide as Hw; [done|].
  destruct Hnoop as [?|Hin]; [lia|].
  unfold bind, deref. rewrite Hl. simpl. by rewrite decide_True.
Qed.

Lemma AddWeightedNode_noop_witness :
  AddWeightedNode 1%positive "only" 5 sampleStore = Some (1%positive, sampleStore) ∧
  AddNode 1%positive "only" = AddWeightedNode 1%positive "only" 1.
Proof.
  apply (AddWeightedNode_noop sampleStore 1%positive
           (default (mkHashRing ∅ lengthDigest [] [] ∅) (sampleStore !! 1%positive)) "only" 5).
  - apply default_is_Some. apply (bool_decide_unpack _). vm_compute. reflexivity.
  - right. apply (bool_decide_unpack _). vm_compute. reflexivity.
Defined.

(** C7, as stated, fails in its last clause: in its no-op cases
    [AddWeightedNode] does not return a freshly built ring but the pointer
    it was called on, a location the store already holds. *)
Lemma AddWeightedNode_returns_original :
  AddWeightedNode 1%positive "b" 0 sampleStore = Some (1%positive, sampleStore) ∧
  is_Some (sampleStore !! 1%positive).
Proof.
  split.
  - unfold AddWeightedNode. by rewrite decide_True by lia.
  - apply (bool_decide_unpack _). vm_compute. reflexivity.
Qed.

(** C7, amended.  [AddWeightedNode] and [RemoveNode] leave every ring of
    the store, the one they are called on included, as it was, field by
    field.  [RemoveNode] always returns a ring built at a location that
    was not in use; [AddWeightedNode] does so except in its no-op cases
    ([weight <= 0], or the node already in [nodes]), where it returns the
    original pointer and the store is unchanged. *)
Theorem mutators_preserve_original (σ : heap) (l : loc) (node : string) (weight : Z) :
  (∀ l' σ', AddWeightedNode l node weight σ = Some (l', σ') →
     (∀ l0 h0, σ !! l0 = Some h0 → σ' !! l0 = Some h0) ∧
     ((l' = l ∧ σ' = σ ∧ ((weight ≤ 0)%Z ∨ (∃ h, σ !! l = Some h ∧ node ∈ nodes h))) ∨
      ((0 < weight)%Z ∧ σ !! l' = None ∧
       ∃ h h', σ !! l = Some h ∧ (node ∉ nodes h) ∧ σ' = (<[l' := h']> σ) ∧
               generateCircle (mkHashRing ∅ (hashProvider h) [] (nodes h ++ [node])
                                 (<[node := weight]> (weights h))) = Some h'))) ∧
  (∀ l' σ', RemoveNode l node σ = Some (l', σ') →
     (∀ l0 h0, σ !! l0 = Some h0 → σ' !! l0 = Some h0) ∧
     σ !! l' = None ∧
     ∃ h h', σ !! l = Some h ∧ σ' = (<[l' := h']> σ) ∧
             generateCircle (mkHashRing ∅ (hashProvider h) []
                               (filter (λ eNode, eNode ≠ node) (nodes h))
                               (filter (λ e : string * Z, e.1 ≠ node) (weights h))) = Some h').
Proof.
  assert (∀ h' : HashRing, σ !! fresh (dom σ) = None ∧
            ∀ l0 h0, σ !! l0 = Some h0 → <[fresh (dom σ) := h']> σ !! l0 = Some h0) as Hfresh.
  { intros h'. assert (σ !! fresh (dom σ) = None) as Hnone
      by (apply not_elem_of_dom, is_fresh).
    split; [done|]. intros l0 h0 Hl0. rewrite lookup_insert_ne; [done|]. congruence. }
  split; intros l' σ'.
  - unfold AddWeightedNode. case_decide as Hw.
    { intros [= <- <-]. split; [done|]. left. eauto. }
    unfold bind at 1, deref. destruct (σ !! l) as [h|] eqn:Hl; simpl; [|done].
    case_decide as Hin.
    { intros [= <- <-]. split; [done|]. left. eauto 6. }
    rewrite build_step. intros (h' & Hh' & ?)%bind_Some. simplify_eq.
    destruct (Hfresh h') as [Hnone Hframe]. split; [done|].
    right. split_and!; [lia|done|]. exists h, h'. by split_and!.
  - unfold RemoveNode. unfold bind at 1, deref.
    destruct (σ !! l) as [h|] eqn:Hl; simpl; [|done].
    rewrite build_step. intros (h' & Hh' & ?)%bind_Some. simplify_eq.
    destruct (Hfresh h') as [Hnone Hframe]. split_and!; [done..|].
    exists h, h'. by split_and!.
Qed.

Lemma mutators_preserve_original_witness :
  (∀ l0 h0, sampleStore !! l0 = Some h0 → shrunkStore !! l0 = Some h0) ∧
  sampleStore !! 4%positive = None ∧
  ∃ h h', sampleStore !! 1%positive = Some h ∧ shrunkStore = (<[4%positive := h']> sampleStore) ∧
          generateCircle (mkHashRing ∅ (hashProvider h) []
                            (filter (λ eNode, eNode ≠ "only") (nodes h))
                            (filter (λ e : string * Z, e.1 ≠ "only") (weights h))) = Some h'.
Proof.
  apply (proj2 (mutators_preserve_original sampleStore 1%positive "only" 1) 4%positive shrunkStore).
  assert (is_Some (RemoveNode 1%positive "only" sampleStore)) as [[l' σ'] Hrem]
    by (apply (bool_decide_unpack _); vm_compute; reflexivity).
  assert (fst <$> RemoveNode 1%positive "only" sampleStore = Some 4%positive) as Hfst
    by (vm_compute; reflexivity).
  unfold shrunkStore. rewrite Hrem in Hfst |- *. simpl in *. congruence.
Defined.

(** ** Points per node *)

(** *** Binary64 on integers below [2^53] *)

Section float64_exact.
Local Open Scope Z_scope.

Lemma digits2_pos_log2 (m : positive) :
  Z.pos (digits2_pos m) = Z.log2 (Z.pos m) + 1.
Proof.
  assert (∀ p, digits2_pos p = Pos.size p) as Hsize by (induction p; simpl; congruence).
  destruct m; simpl; rewrite ?Hsize; lia.
Qed.

Lemma digits2_pos_bounds (m : positive) :
  2 ^ (Z.pos (digits2_pos m) - 1) ≤ Z.pos m < 2 ^ Z.pos (digits2_pos m).
Proof.
  rewrite digits2_pos_log2.
  pose proof (Z.log2_spec (Z.pos m) ltac:(lia)) as H.
  replace (Z.log2 (Z.pos m) + 1 - 1) with (Z.log2 (Z.pos m)) by lia.
  replace (Z.log2 (Z.pos m) + 1) with (Z.succ (Z.log2 (Z.pos m))) by lia. exact H.
Qed.

Lemma digits2_pos_unique (m : positive) (d : Z) :
  2 ^ (d - 1) ≤ Z.pos m < 2 ^ d → Z.pos (digits2_pos m) = d.
Proof.
  intros H. rewrite digits2_pos_log2.
  assert (0 < d).
  { destruct (decide (0 < d)); [done|]. rewrite (Z.pow_neg_r 2 (d - 1)) in H by lia.
    destruct (decide (d = 0)) as [->|]; [simpl in H; lia|].
    rewrite (Z.pow_neg_r 2 d) in H by lia. lia. }
  rewrite (Z.log2_unique (Z.pos m) (d - 1)); [lia|lia|].
  by replace (Z.succ (d - 1)) with d by lia.
Qed.

Lemma iter_xO_pos (m k : positive) :
  Z.pos (Pos.iter xO m k) = Z.pos m * 2 ^ Z.pos k.
Proof.
  induction k as [|k IH] using Pos.peano_ind.
  - simpl. lia.
  - rewrite Pos.iter_succ, Pos2Z.inj_xO, IH, Pos2Z.inj_succ, Z.pow_succ_r by lia. lia.
Qed.


Lemma shr_fexp_53 (m : positive) (e : Z) (l : location) :
  digits2_pos m = 53%positive → -1074 ≤ e →
  shr_fexp 53 1024 (Z.pos m) e l = (shr_record_of_loc (Z.pos m) l, e).
Proof.
  intros Hd He. unfold shr_fexp, Zdigits2, fexp, emin. rewrite Hd.
  assert (Z.max (53 + e - 53) (3 - 1024 - 53) - e = 0) as -> by lia. done.
Qed.

Lemma shr_fexp_54 (m : positive) (e : Z) (l : location) :
  digits2_pos m = 54%positive → -1075 ≤ e →
  shr_fexp 53 1024 (Z.pos m) e l = (shr_1 (shr_record_of_loc (Z.pos m) l), e + 1).
Proof.
  intros Hd He. unfold shr_fexp, Zdigits2, fexp, emin. rewrite Hd.
  assert (Z.max (54 + e - 53) (3 - 1024 - 53) - e = 1) as -> by lia. done.
Qed.

Lemma binary_round_aux_tail s mx ex lx :
  binary_round_aux 53 1024 s mx ex lx =
    let '(mrs, e) := shr_fexp 53 1024 mx ex lx in
    round_tail s (round_nearest_even (shr_m mrs) (loc_of_shr_record mrs)) e.
Proof. reflexivity. Qed.

Lemma round_tail_finite s m1 e :
  2 ^ 52 ≤ m1 ≤ 2 ^ 53 → -1074 ≤ e ≤ 970 →
  ∃ mf ef, round_tail s m1 e = S754_finite s mf ef ∧
           ((ef = e ∧ Z.pos mf = m1) ∨ (ef = e + 1 ∧ m1 = 2 ^ 53 ∧ Z.pos mf = 2 ^ 52)).
Proof.
  intros Hm He. destruct m1 as [|p|p]; [lia| |lia].
  destruct (decide (Z.pos p = 2 ^ 53)) as [Hp|Hp].
  - injection Hp as ->. unfold round_tail. rewrite shr_fexp_54 by (done || lia).
    cbn [shr_record_of_loc shr_1 shr_m].
    destruct (Z.leb_spec (e + 1) (1024 - 53)); [|lia].
    eexists _, _. split; [done|]. by right.
  - assert (digits2_pos p = 53%positive) as Hd.
    { pose proof (digits2_pos_unique p 53 ltac:(lia)). congruence. }
    unfold round_tail. rewrite shr_fexp_53 by (done || lia).
    cbn [shr_record_of_loc shr_m].
    destruct (Z.leb_spec e (1024 - 53)); [|lia].
    eexists _, _. split; [done|]. by left.
Qed.

Lemma round_nearest_even_cases m l :
  round_nearest_even m l = m ∨
  (round_nearest_even m l = m + 1 ∧ ∃ c, l = loc_Inexact c ∧ c ≠ Lt).
Proof.
  destruct l as [|[]]; simpl; [by left| |by left|].
  - destruct (Z.even m); [by left|]. right. split; [done|]. by eexists.
  - right. split; [done|]. by eexists.
Qed.


Lemma loc_of_shr_record_of_loc m l :
  loc_of_shr_record (shr_record_of_loc m l) = l ∧ shr_m (shr_record_of_loc m l) = m.
Proof. by destruct l as [|[]]. Qed.

Lemma binary_round_aux_exact s m e :
  digits2_pos m = 53%positive → -1074 ≤ e ≤ 970 →
  binary_round_aux 53 1024 s (Z.pos m) e loc_Exact = S754_finite s m e.
Proof.
  intros Hd He. rewrite binary_round_aux_tail, shr_fexp_53 by (done || lia).
  cbn [shr_record_of_loc shr_m loc_of_shr_record round_nearest_even].
  unfold round_tail. rewrite shr_fexp_53 by (done || lia).
  cbn [shr_record_of_loc shr_m]. by destruct (Z.leb_spec e (1024 - 53)); [|lia].
Qed.

Lemma float64_exact (z : Z) :
  0 < z < 2 ^ 53 →
  ∃ m e, float64 z = S754_finite false m e ∧ digits2_pos m = 53%positive ∧
         -52 ≤ e ≤ 0 ∧ Z.pos m = z * 2 ^ (- e).
Proof.
  intros Hz. destruct z as [|p|p]; [lia| |lia].
  pose proof (digits2_pos_bounds p) as Hp.
  assert (Z.pos (digits2_pos p) ≤ 53) as Hd.
  { destruct (decide (Z.pos (digits2_pos p) ≤ 53)); [done|].
    assert (2 ^ 53 ≤ 2 ^ (Z.pos (digits2_pos p) - 1)) by (apply Z.pow_le_mono_r; lia). lia. }
  unfold float64, binary_normalize, binary_round, shl_align, fexp, emin.
  assert (Z.max (Z.pos (digits2_pos p) + 0 - 53) (3 - 1024 - 53) = Z.pos (digits2_pos p) - 53)
    as -> by lia.
  destruct (Z.pos (digits2_pos p) - 53 - 0) as [|k|k] eqn:Hk; [|lia|].
  - assert (digits2_pos p = 53%positive) as Hd53 by lia.
    rewrite binary_round_aux_exact by (done || lia).
    eexists _, _. split; [done|]. split; [done|]. split; [lia|]. simpl. lia.
  - assert (2 ^ (Z.pos (digits2_pos p) - 1) * 2 ^ Z.pos k = 2 ^ 52) as H52.
    { rewrite <- Z.pow_add_r by lia. f_equal. lia. }
    assert (2 ^ Z.pos (digits2_pos p) * 2 ^ Z.pos k = 2 ^ 53) as H53.
    { rewrite <- Z.pow_add_r by lia. f_equal. lia. }
    assert (0 < 2 ^ Z.pos k) by (apply Z.pow_pos_nonneg; lia).
    assert (digits2_pos (Pos.iter xO p k) = 53%positive) as Hd53.
    { pose proof (digits2_pos_unique (Pos.iter xO p k) 53) as Hu.
      rewrite iter_xO_pos in Hu. specialize (Hu ltac:(nia)). congruence. }
    rewrite binary_round_aux_exact by (done || lia).
    eexists _, _. split; [done|]. split; [done|]. split; [lia|].
    rewrite iter_xO_pos. f_equal. f_equal. lia.
Qed.

Lemma shr_1_round (qp : positive) (l : location) :
  qp ≠ 1%positive →
  let mrs := shr_1 (shr_record_of_loc (Z.pos qp) l) in
  round_nearest_even (shr_m mrs) (loc_of_shr_record mrs) = Z.pos qp / 2 ∨
  (round_nearest_even (shr_m mrs) (loc_of_shr_record mrs) = Z.pos qp / 2 + 1 ∧
   Z.odd (Z.pos qp) = true).
Proof.
  intros Hq.
  assert (∀ p, Z.pos p~0 / 2 = Z.pos p) as H0
    by (intros; symmetry; apply (Z.div_unique _ _ _ 0); lia).
  assert (∀ p, Z.pos p~1 / 2 = Z.pos p) as H1
    by (intros; symmetry; apply (Z.div_unique _ _ _ 1); lia).
  destruct qp as [p|p|]; [| |done]; rewrite ?H0, ?H1;
    destruct l as [|[]]; cbn [shr_record_of_loc shr_1 shr_m loc_of_shr_record orb
                              round_nearest_even];
    try (by left); try (by right); destruct (Z.even (Z.pos p)); (by left) || (by right).
Qed.


Lemma SFdiv_53 (mx my : positive) (ex ey : Z) :
  digits2_pos mx = 53%positive → digits2_pos my = 53%positive →
  -52 ≤ ex ≤ 0 → -52 ≤ ey ≤ 0 →
  ∃ mf ef m1 g,
    SFdiv 53 1024 (S754_finite false mx ex) (S754_finite false my ey)
      = S754_finite false mf ef ∧
    ((ef = g ∧ Z.pos mf = m1) ∨ (ef = g + 1 ∧ m1 = 2 ^ 53 ∧ Z.pos mf = 2 ^ 52)) ∧
    let q := Z.pos mx * 2 ^ 53 / Z.pos my in
    ((g = ex - ey - 53 ∧ (m1 = q ∨ m1 = q + 1)) ∨
     (g = ex - ey - 52 ∧ (m1 = q / 2 ∨ (m1 = q / 2 + 1 ∧ Z.odd q = true)))).
Proof.
  intros Hdx Hdy Hex Hey.
  assert (2 ^ 52 ≤ Z.pos mx < 2 ^ 53) as Hmx
    by (pose proof (digits2_pos_bounds mx) as H; rewrite Hdx in H; exact H).
  assert (2 ^ 52 ≤ Z.pos my < 2 ^ 53) as Hmy
    by (pose proof (digits2_pos_bounds my) as H; rewrite Hdy in H; exact H).
  unfold SFdiv, SFdiv_core_binary, Zdigits2. rewrite Hdx, Hdy. unfold fexp, emin.
  assert (Z.min (Z.max (53 + ex - (53 + ey) - 53) (3 - 1024 - 53)) (ex - ey) = ex - ey - 53)
    as -> by lia.
  assert (ex - ey - (ex - ey - 53) = 53) as -> by lia.
  cbv beta iota zeta. rewrite Z.shiftl_mul_pow2 by lia.
  set (N := Z.pos mx * 2 ^ 53).
  pose proof (Z.div_mod N (Z.pos my) ltac:(lia)) as Hdm.
  pose proof (Z.mod_pos_bound N (Z.pos my) ltac:(lia)) as Hr.
  assert (Z.div_eucl N (Z.pos my) = (N / Z.pos my, N `mod` Z.pos my)) as ->.
  { unfold Z.div, Z.modulo. by destruct (Z.div_eucl N (Z.pos my)). }
  set (q := N / Z.pos my) in *. set (r := N `mod` Z.pos my) in *.
  set (l := new_location (Z.pos my) r). clearbody l.
  assert (2 ^ 52 ≤ q < 2 ^ 54) as Hq.
  { assert (2 ^ 54 = 2 * 2 ^ 53) as -> by done.
    assert (2 ^ 53 = 2 * 2 ^ 52) as H53 by done.
    unfold N in Hdm. rewrite H53 in *. clearbody q r. generalize dependent (2 ^ 52).
    intros P52 **. nia. }
  clearbody q r. destruct q as [|qp|qp]; [lia| |lia]. simpl xorb.
  rewrite binary_round_aux_tail.
  destruct (decide (Z.pos qp < 2 ^ 53)) as [Hlt|Hge].
  - assert (digits2_pos qp = 53%positive) as Hd.
    { pose proof (digits2_pos_unique qp 53 ltac:(lia)). congruence. }
    rewrite shr_fexp_53 by (done || lia).
    destruct (loc_of_shr_record_of_loc (Z.pos qp) l) as [-> ->].
    destruct (round_tail_finite false (round_nearest_even (Z.pos qp) l) (ex - ey - 53))
      as (mf & ef & -> & Hv); [|lia|].
    { destruct (round_nearest_even_cases (Z.pos qp) l) as [->|[-> _]]; lia. }
    exists mf, ef, (round_nearest_even (Z.pos qp) l), (ex - ey - 53).
    split; [done|]. split; [done|]. cbv zeta. left. split; [done|].
    destruct (round_nearest_even_cases (Z.pos qp) l) as [->|[-> _]]; auto.
  - assert (digits2_pos qp = 54%positive) as Hd.
    { pose proof (digits2_pos_unique qp 54 ltac:(lia)). congruence. }
    rewrite shr_fexp_54 by (done || lia).
    assert (qp ≠ 1%positive) as Hq1 by (intros ->; done).
    pose proof (shr_1_round qp l Hq1) as Hround. cbv zeta in Hround.
    set (m1 := round_nearest_even _ _) in *. clearbody m1.
    assert (2 ^ 52 ≤ Z.pos qp / 2 < 2 ^ 53) as Hhalf.
    { split; [apply Z.div_le_lower_bound; lia|apply Z.div_lt_upper_bound; lia]. }
    destruct (round_tail_finite false m1 (ex - ey - 53 + 1)) as (mf & ef & -> & Hv);
      [lia|lia|].
    exists mf, ef, m1, (ex - ey - 52).
    split; [done|]. split; [by replace (ex - ey - 52) with (ex - ey - 53 + 1) by lia|].
    cbv zeta. right. split; [done|]. destruct Hround as [->|[-> ?]]; auto.
Qed.


Lemma int_of_float64_exact (z : Z) :
  0 ≤ z < 2 ^ 53 → int_of_float64 (float64 z) = z.
Proof.
  intros Hz. destruct (decide (z = 0)) as [->|Hz0]; [done|].
  destruct (float64_exact z) as (m & e & -> & _ & He & Hm); [lia|].
  unfold int_of_float64, cond_Zopp. rewrite Hm.
  assert (0 < 2 ^ (- e)) by (apply Z.pow_pos_nonneg; lia).
  destruct (decide (0 ≤ e)).
  - assert (e = 0) as -> by lia. simpl. rewrite !Z.mul_1_r.
    destruct (decide _); [done|lia].
  - rewrite Z.quot_mul by lia. destruct (decide _); [done|lia].
Qed.

Lemma int_Floor_finite (m : positive) (e : Z) :
  e ≤ 0 → Z.pos m / 2 ^ (- e) < 2 ^ 53 →
  int_of_float64 (Floor (S754_finite false m e)) = Z.pos m / 2 ^ (- e).
Proof.
  intros He Hlt. unfold Floor.
  assert (0 ≤ Z.pos m / 2 ^ (- e)) by (apply Z.div_pos; [lia|apply Z.pow_pos_nonneg; lia]).
  destruct (decide (0 ≤ e)).
  - assert (e = 0) as -> by lia. change (2 ^ (- 0)) with 1 in *. rewrite Z.div_1_r in *.
    unfold int_of_float64, cond_Zopp. destruct (decide (0 ≤ 0)); [|lia].
    rewrite Z.pow_0_r, Z.mul_1_r. destruct (decide _); [done|lia].
  - apply (int_of_float64_exact (Z.pos m / 2 ^ (- e))). simpl. lia.
Qed.

(** The quotient of two integers below [2^53], rounded to 53 bits at any
    scale, has the floor of the exact quotient. *)
Lemma rounded_quotient_floor (a b U T q : Z) :
  0 ≤ a → 0 < b → 0 ≤ T → 0 < U → b * U / 2 ^ T < U →
  q = a * U / (b * U / 2 ^ T) → (b * U / 2 ^ T) * 2 ^ T = b * U →
  q / 2 ^ T = a / b ∧ (q + 1) / 2 ^ T = a / b.
Proof.
  intros Ha Hb HT HU Hmy -> Hexact.
  set (my := b * U / 2 ^ T) in *.
  assert (0 < 2 ^ T) as HpT by (apply Z.pow_pos_nonneg; lia).
  assert (0 < my) as Hmy0 by nia.
  assert (a * U / my / 2 ^ T = a / b) as Hq.
  { rewrite Z.div_div, Hexact, Z.div_mul_cancel_r by lia. done. }
  split; [done|].
  pose proof (Z.div_mod (a * U) my ltac:(lia)) as Hdm.
  pose proof (Z.mod_pos_bound (a * U) my ltac:(lia)) as Hr.
  pose proof (Z.div_mod a b ltac:(lia)) as Hab.
  pose proof (Z.mod_pos_bound a b ltac:(lia)) as Hrb.
  set (q := a * U / my) in *. set (K := a / b) in *.
  pose proof (Z.div_mod q (2 ^ T) ltac:(lia)) as Hqm.
  pose proof (Z.mod_pos_bound q (2 ^ T) ltac:(lia)) as Hqr.
  rewrite Hq in Hqm. clearbody q K my.
  generalize dependent (q `mod` 2 ^ T). generalize dependent ((a * U) `mod` my).
  generalize dependent (a `mod` b). generalize dependent (2 ^ T).
  intros P HP HpT Hq rb Hab Hrb rm Hdm Hr rq Hqm Hqr.
  symmetry. apply (Z.div_unique _ _ _ (rq + 1)); [|lia].
  left. split; [lia|].
  destruct (decide (rq + 1 < P)); [done|exfalso].
  assert (q + 1 = (K + 1) * P) as Hq1 by lia.
  assert ((q + 1) * my = (K + 1) * (b * U)) as Hprod by (rewrite Hq1, <- HP; lia).
  assert (((K + 1) * b - a) * U = my - rm) as Hdiff by lia.
  assert (1 ≤ (K + 1) * b - a) by lia.
  nia.
Qed.


(** Below [2^53] the float64 quotient, floored and converted back, is the
    integer quotient. *)
Lemma float64_quotient_floor (a b : Z) :
  0 ≤ a < 2 ^ 53 → 0 < b < 2 ^ 53 →
  int_of_float64 (Floor (SFdiv 53 1024 (float64 a) (float64 b))) = a / b.
Proof.
  intros Ha Hb.
  destruct (float64_exact b Hb) as (my & ey & Hfb & Hdy & Hey & Hmy).
  destruct (decide (a = 0)) as [->|Ha0].
  { rewrite Hfb. by rewrite Z.div_0_l by lia. }
  destruct (float64_exact a) as (mx & ex & Hfa & Hdx & Hex & Hmx); [lia|].
  rewrite Hfa, Hfb.
  destruct (SFdiv_53 mx my ex ey Hdx Hdy Hex Hey) as (mf & ef & m1 & g & -> & Hv & Hcase).
  cbv zeta in Hcase.
  set (T := 53 - ex + ey). set (U := 2 ^ (53 - ex)).
  assert (0 < U) as HU by (apply Z.pow_pos_nonneg; lia).
  assert (0 < 2 ^ T) as HpT by (apply Z.pow_pos_nonneg; lia).
  assert (U = 2 ^ (- ey) * 2 ^ T) as HUT.
  { unfold U, T. rewrite <- Z.pow_add_r by lia. f_equal. lia. }
  assert (2 ^ 53 ≤ U) as HU53 by (apply Z.pow_le_mono_r; lia).
  assert (b * U / 2 ^ T = Z.pos my) as Hbm.
  { rewrite HUT, Z.mul_assoc, Z.div_mul by lia. done. }
  assert (Z.pos mx * 2 ^ 53 = a * U) as HN.
  { rewrite Hmx. unfold U. rewrite <- Z.mul_assoc, <- Z.pow_add_r by lia.
    f_equal. f_equal. lia. }
  assert (Z.pos my < 2 ^ 53) as Hmy53.
  { pose proof (digits2_pos_bounds my) as H. rewrite Hdy in H. apply H. }
  rewrite HN in Hcase.
  destruct (rounded_quotient_floor a b U T (a * U / Z.pos my)) as [Hq Hq1];
    [lia|lia|lia|done|lia|by rewrite Hbm| |].
  { rewrite Hbm, Hmy, HUT. lia. }
  set (q := a * U / Z.pos my) in *. clearbody q.
  assert (a / b < 2 ^ 53) as HK.
  { assert (a / b ≤ a) by (apply Z.div_le_upper_bound; nia). lia. }
  assert (0 ≤ - g ∧ m1 / 2 ^ (- g) = a / b) as [Hg Hm1].
  { destruct Hcase as [[-> Hm]|[-> Hm]].
    - replace (- (ex - ey - 53)) with T by (unfold T; lia).
      split; [lia|]. by destruct Hm as [->| ->].
    - replace (- (ex - ey - 52)) with (T - 1) by (unfold T; lia).
      split; [lia|].
      assert (2 * 2 ^ (T - 1) = 2 ^ T) as H2T.
      { rewrite <- Z.pow_succ_r by lia. f_equal. lia. }
      destruct Hm as [->|[-> Hodd]].
      + by rewrite Z.div_div, H2T by (unfold T; try apply Z.pow_pos_nonneg; lia).
      + apply Z.odd_spec in Hodd as [k ->].
        assert ((2 * k + 1) / 2 + 1 = (2 * k + 1 + 1) / 2) as ->.
        { rewrite <- (Z.div_unique (2 * k + 1) 2 k 1) by lia.
          by rewrite <- (Z.div_unique (2 * k + 1 + 1) 2 (k + 1) 0) by lia. }
        by rewrite Z.div_div, H2T by (unfold T; try apply Z.pow_pos_nonneg; lia). }
  destruct Hv as [[-> Hmf]|(-> & -> & Hmf)].
  - rewrite int_Floor_finite; [by rewrite Hmf|lia|rewrite Hmf; lia].
  - assert (g ≠ 0) as Hg0.
    { intros ->. change (2 ^ (- 0)) with 1 in Hm1. rewrite Z.div_1_r in Hm1. lia. }
    assert (2 ^ (- g) = 2 * 2 ^ (- (g + 1))) as Hpg.
    { rewrite <- Z.pow_succ_r by lia. f_equal. lia. }
    assert (2 ^ 52 / 2 ^ (- (g + 1)) = a / b) as Hfl.
    { rewrite <- Hm1, Hpg. change (2 ^ 53) with (2 * 2 ^ 52).
      rewrite Z.div_mul_cancel_l; [done| |lia].
      assert (0 < 2 ^ (- (g + 1))) by (apply Z.pow_pos_nonneg; lia). lia. }
    rewrite int_Floor_finite; [by rewrite Hmf|lia|rewrite Hmf; lia].
Qed.

End float64_exact.

(** *** [int] *)

Lemma int_small (z : Z) : (- 2 ^ 63 ≤ z < 2 ^ 63)%Z → int z = z.
Proof. intros Hz. unfold int. rewrite Z.mod_small; lia. Qed.

Lemma int_add_l (x y : Z) : int (int x + y) = int (x + y).
Proof.
  unfold int. f_equal.
  replace ((x + 2 ^ 63) `mod` 2 ^ 64 - 2 ^ 63 + y + 2 ^ 63)%Z
    with ((x + 2 ^ 63) `mod` 2 ^ 64 + y)%Z by lia.
  rewrite Zplus_mod_idemp_l. f_equal. lia.
Qed.

(** *** The weights *)

Lemma nodeWeight_default h node : nodeWeight h node = default 1%Z (weights h !! node).
Proof. unfold nodeWeight. by destruct (weights h !! node). Qed.

(** [totalWeight] is the sum of the weights, wrapped. *)
Lemma totalWeight_weightSum h : totalWeight h = int (weightSum (weights h) (nodes h)).
Proof.
  unfold totalWeight, weightSum.
  assert (∀ ns acc,
    foldl (λ total node, match weights h !! node with
                         | Some weight => int (total + weight)
                         | None => int (total + 1)
                         end) (int acc) ns
    = int (acc + foldr (λ node total, default 1 (weights h !! node) + total) 0 ns)%Z) as Hgen.
  { induction ns as [|node ns IH]; intros acc; simpl; [f_equal; lia|].
    destruct (weights h !! node) as [w|]; simpl; rewrite int_add_l, IH; f_equal; lia. }
  apply (Hgen (nodes h) 0%Z).
Qed.

Lemma weightSum_pos ws ns :
  (∀ node w, ws !! node = Some w → (0 < w)%Z) → ns ≠ [] → (0 < weightSum ws ns)%Z.
Proof.
  intros Hpos Hne.
  assert (∀ l, (0 ≤ weightSum ws l)%Z) as Hnn.
  { induction l as [|node l IH]; simpl; [lia|].
    destruct (ws !! node) as [w|] eqn:Hw; simpl; [specialize (Hpos _ _ Hw)|]; lia. }
  destruct ns as [|node ns]; [done|]. simpl. specialize (Hnn ns).
  destruct (ws !! node) as [w|] eqn:Hw; simpl; [specialize (Hpos _ _ Hw)|]; lia.
Qed.

Lemma fmap_fst_concat (wss : list (list (Z * string))) :
  (concat wss).*1 = concat ((λ ws, ws.*1) <$> wss).
Proof.
  induction wss as [|ws wss IH]; csimpl; [done|]. by rewrite fmap_app, IH.
Qed.

(** The weight of a node of the list is part of the sum. *)
Lemma weight_le_weightSum ws ns node :
  (∀ node w, ws !! node = Some w → (0 < w)%Z) → node ∈ ns →
  (0 < default 1 (ws !! node) ≤ weightSum ws ns)%Z.
Proof.
  intros Hpos Hin.
  assert (∀ n, (0 < default 1 (ws !! n))%Z) as Hw.
  { intros n. destruct (ws !! n) as [w|] eqn:Hwe; simpl; [by eapply Hpos|lia]. }
  split; [done|].
  assert (∀ l, (0 ≤ weightSum ws l)%Z) as Hnn.
  { induction l as [|n l IH]; simpl; [lia|]. specialize (Hw n). lia. }
  induction Hin as [n l|n m l _ IH]; simpl.
  - specialize (Hnn l). lia.
  - specialize (Hw m). lia.
Qed.

Lemma weightSum_perm ws ns1 ns2 : ns1 ≡ₚ ns2 → weightSum ws ns1 = weightSum ws ns2.
Proof. unfold weightSum. induction 1; simpl; lia. Qed.

(** [factor] in terms of the node list and the weight map. *)
Lemma factor_unfold hp r ks ns ws node :
  factor (mkHashRing r hp ks ns ws) node =
    if decide (Z.of_nat (length ns) ≤ maxSliceLen)%Z then
      int_of_float64
        (Floor (SFdiv 53 1024
                  (float64 (int (40 * Z.of_nat (length ns) * default 1 (ws !! node))%Z))
                  (float64 (int (weightSum ws ns)))))
    else (40 * Z.of_nat (length ns) * default 1 (ws !! node) / weightSum ws ns)%Z.
Proof.
  unfold factor. rewrite totalWeight_weightSum, nodeWeight_default. reflexivity.
Qed.

(** Where the product and the sum stay below [2^53], so that neither the
    product wraps nor a conversion or the quotient rounds across an
    integer, [factor] is the quotient of the integers. *)
Lemma factor_exact hp r ks ns ws node :
  ((Z.of_nat (length ns) ≤ maxSliceLen)%Z →
   (0 ≤ 40 * Z.of_nat (length ns) * default 1 (ws !! node) < 2 ^ 53)%Z ∧
   (0 < weightSum ws ns < 2 ^ 53)%Z) →
  factor (mkHashRing r hp ks ns ws) node =
    (40 * Z.of_nat (length ns) * default 1 (ws !! node) / weightSum ws ns)%Z.
Proof.
  intros Hb. rewrite factor_unfold. destruct (decide _) as [Hn|Hn]; [|done].
  destruct (Hb Hn) as [Hp HT]. rewrite !int_small by lia.
  by apply float64_quotient_floor.
Qed.

(** [factor] does not depend on the order of the node list. *)
Lemma factor_perm hp r ks ns1 ns2 ws node :
  ns1 ≡ₚ ns2 →
  factor (mkHashRing r hp ks ns1 ws) node = factor (mkHashRing r hp ks ns2 ws) node.
Proof.
  intros Hp.
  by rewrite !factor_unfold, (weightSum_perm ws ns1 ns2 Hp), (Permutation_length Hp).
Qed.

(** With positive weights and [40 * |nodes| * totalWeight] below [2^53]
    every node of the list is in the range of [factor_exact]. *)
Lemma factor_in_range hp r ks ns ws node :
  (∀ node w, ws !! node = Some w → (0 < w)%Z) →
  (40 * Z.of_nat (length ns) * weightSum ws ns < 2 ^ 53)%Z → node ∈ ns →
  factor (mkHashRing r hp ks ns ws) node =
    (40 * Z.of_nat (length ns) * default 1 (ws !! node) / weightSum ws ns)%Z.
Proof.
  intros Hpos Hb Hin. apply factor_exact. intros _.
  pose proof (weight_le_weightSum ws ns node Hpos Hin) as Hw.
  assert (0 < length ns) by (destruct ns; [by apply elem_of_nil in Hin|simpl; lia]).
  nia.
Qed.

(** C4. In a build from a node list and a weight mapping with positive
    weights (1 for a node the mapping does not name) and
    [40 * |nodes| * totalWeight] below [2^53], the pass of the outer loop
    for each node appends exactly
    [floor(40 * |nodes| * weight / totalWeight) * 3] keys, and
    [sortedKeys] is the sorted collection of these blocks. *)
Theorem generateCircle_points_per_node (hp : provider) (ns : list string)
    (ws : gmap string Z) (h : HashRing) :
  (∀ node w, ws !! node = Some w → (0 < w)%Z) →
  (40 * Z.of_nat (length ns) * weightSum ws ns < 2 ^ 53)%Z →
  generateCircle (mkHashRing ∅ hp [] ns ws) = Some h →
  ∃ blocks : list (list Z),
    sortedKeys h ≡ₚ concat blocks ∧
    Forall2 (λ node block,
               (∃ r, addNodePoints (mkHashRing ∅ hp [] ns ws) (∅, []) node = Some (r, block)) ∧
               Z.of_nat (length block) =
                 (40 * Z.of_nat (length ns) * default 1 (ws !! node) / weightSum ws ns * 3)%Z)
            ns blocks.
Proof.
  intros Hpos Hrange (wr & Hwr & ->)%generateCircle_fresh.
  unfold circleWrites in Hwr. apply fmap_Some in Hwr as (wss & Hm & ->). simpl in *.
  exists ((λ ws, ws.*1) <$> wss). split.
  { by rewrite sortKeys_Permutation, fmap_fst_concat. }
  apply mapM_Some_1 in Hm. apply Forall2_fmap_r.
  apply Forall2_same_length_lookup_2; [by eapply Forall2_length|].
  intros i node wn Hi Hj. pose proof (Forall2_lookup_lr _ _ _ _ _ _ Hm Hi Hj) as Hwn.
  apply list_elem_of_lookup_2 in Hi.
  pose proof (weight_le_weightSum ws ns node Hpos Hi) as Hw.
  simpl. split.
  - rewrite addNodePoints_writes, Hwn. simpl. eauto.
  - rewrite length_fmap, (nodeWrites_length _ _ _ Hwn), factor_in_range by done.
    assert (0 ≤ 40 * Z.of_nat (length ns) * default 1 (ws !! node) / weightSum ws ns)%Z
      by (apply Z.div_pos; nia).
    lia.
Qed.

(** C4, as the specification words it, fails outside that range.  With
    the weights [closeWeights] the share of ["a"] is
    [floor(80 * 173722837188607 / 175921860444159) = 78] point groups, 234
    keys, but the binary64 quotient rounds up to 79.0 and the loop appends
    237 keys for ["a"], 240 in all.  With the single weight [2^60] the
    share is 40 point groups, 120 keys, but [40 * 2^60] wraps to [-2^63],
    the quotient is [-8] and the build has no key at all. *)
Lemma generateCircle_points_beyond_float64 :
  ((∀ node w, closeWeights !! node = Some w → (0 < w)%Z) ∧
   (40 * Z.of_nat (length ["a"; "b"]) * default 1 (closeWeights !! "a")
    / weightSum closeWeights ["a"; "b"] * 3 = 234)%Z ∧
   (40 * Z.of_nat (length ["a"; "b"]) * default 1 (closeWeights !! "b")
    / weightSum closeWeights ["a"; "b"] * 3 = 3)%Z ∧
   (λ c : circle, length c.2)
     <$> addNodePoints (mkHashRing ∅ (sampleDigest 16 0) [] ["a"; "b"] closeWeights)
           (∅, []) "a" = Some 237 ∧
   (λ h, length (sortedKeys h))
     <$> generateCircle (mkHashRing ∅ (sampleDigest 16 0) [] ["a"; "b"] closeWeights)
     = Some 240) ∧
  ((∀ node w, wideWeight !! node = Some w → (0 < w)%Z) ∧
   (40 * Z.of_nat (length ["a"]) * default 1 (wideWeight !! "a")
    / weightSum wideWeight ["a"] * 3 = 120)%Z ∧
   factor (mkHashRing ∅ (sampleDigest 16 0) [] ["a"] wideWeight) "a" = (-8)%Z ∧
   (λ h, length (sortedKeys h))
     <$> generateCircle (mkHashRing ∅ (sampleDigest 16 0) [] ["a"] wideWeight)
     = Some 0).
Proof.
  split; split_and!; try (vm_compute; reflexivity);
    apply (bool_decide_unpack _); vm_compute; reflexivity.
Qed.

Lemma generateCircle_points_per_node_witness :
  ∃ blocks : list (list Z),
    sortedKeys (builtRing (sampleDigest 16 0) ["a"; "b"] twoWeights) ≡ₚ concat blocks ∧
    Forall2 (λ node block,
               (∃ r, addNodePoints (mkHashRing ∅ (sampleDigest 16 0) [] ["a"; "b"] twoWeights)
                       (∅, []) node = Some (r, block)) ∧
               Z.of_nat (length block) =
                 (40 * Z.of_nat (length ["a"; "b"]) * default 1 (twoWeights !! node)
                  / weightSum twoWeights ["a"; "b"] * 3)%Z)
            ["a"; "b"] blocks.
Proof.
  apply (generateCircle_points_per_node (sampleDigest 16 0) ["a"; "b"] twoWeights).
  - apply (bool_decide_unpack _). vm_compute. reflexivity.
  - vm_compute. reflexivity.
  - apply default_is_Some. apply (bool_decide_unpack _). vm_compute. reflexivity.
Defined.

(** ** Digest bounds *)

Lemma chunkKey_is_Some_iff bKey i : is_Some (chunkKey bKey i) ↔ i * 4 + 4 ≤ dcap bKey.
Proof.
  split; [|apply chunkKey_is_Some].
  intros Hs. destruct (decide (i * 4 + 4 ≤ dcap bKey)) as [|Hlt]; [done|].
  rewrite chunkKey_None in Hs by lia. by destruct Hs.
Qed.

Lemma keyWrites_is_Some node bKey i :
  is_Some (keyWrites node bKey i) ↔ i * 4 + 4 ≤ dcap bKey.
Proof.
  rewrite <-chunkKey_is_Some_iff. unfold keyWrites.
  destruct (chunkKey bKey i); simpl; split; intros [? ?]; by eauto.
Qed.

Lemma groupWrites_is_Some h node j :
  is_Some (groupWrites h node j) ↔ 12 ≤ dcap (hashDigest h (nodeKey node j)).
Proof.
  unfold groupWrites. rewrite fmap_is_Some, mapM_is_Some.
  rewrite !Forall_cons, Forall_nil. simpl. rewrite !keyWrites_is_Some. lia.
Qed.

Lemma nodeWrites_is_Some h node :
  is_Some (nodeWrites h node) ↔
  ∀ j, (0 ≤ j < factor h node)%Z → 12 ≤ dcap (hashDigest h (nodeKey node j)).
Proof.
  unfold nodeWrites. rewrite fmap_is_Some, mapM_is_Some, Forall_forall.
  split.
  - intros Hall j Hj. apply groupWrites_is_Some, Hall, elem_of_seqZ. lia.
  - intros Hall j Hj%elem_of_seqZ. apply groupWrites_is_Some, Hall. lia.
Qed.

Lemma generateCircle_is_Some h :
  is_Some (generateCircle h) ↔
  ∀ node j, node ∈ nodes h → (0 ≤ j < factor h node)%Z →
            12 ≤ dcap (hashDigest h (nodeKey node j)).
Proof.
  rewrite generateCircle_writes.
  transitivity (is_Some (circleWrites h)).
  { destruct (circleWrites h); simpl; split; intros [? ?]; by eauto. }
  unfold circleWrites. rewrite fmap_is_Some, mapM_is_Some, Forall_forall.
  split.
  - intros Hall node j Hnode. by apply nodeWrites_is_Some, Hall.
  - intros Hall node Hnode. apply nodeWrites_is_Some. intros j. by apply Hall.
Qed.

(** C8, as stated, fails in its second half: a digest of 10 bytes whose
    backing array has room for 16 (what [append] to a nil slice
    allocates) does not stop the construction; the chunk at offset 8 is
    sliced past the length of the digest and a ring of 120 points is
    built. *)
Lemma short_digest_builds_ring :
  (∀ s, dlen (sampleDigest 10 6 s) = 10 ∧ dcap (sampleDigest 10 6 s) = 16) ∧
  (h ← generateCircle (mkHashRing ∅ (sampleDigest 10 6) [] ["only"] ∅);
   Some (length (sortedKeys h))) = Some 120.
Proof.
  split.
  - intros s. split; reflexivity.
  - vm_compute. reflexivity.
Qed.

(** C8, amended.  With a digest of at least 12 bytes the three chunks at
    offsets 0, 4 and 8 lie within the digest, and the construction cannot
    panic.  In general the construction panics exactly when one of the
    digests it computes has a capacity below 12: a shorter digest stops
    it only if its backing array is shorter than 12 bytes too, and only
    if some node is given at least one point group. *)
Theorem generateCircle_digest_bounds (hp : provider) (ns : list string) (ws : gmap string Z) :
  (∀ d i, 12 ≤ dlen d → i < 3 →
          subslice d (i * 4) (i * 4 + 4) = Some (take 4 (drop (i * 4) (visible d))) ∧
          is_Some (chunkKey d i)) ∧
  ((∀ s, 12 ≤ dlen (hp s)) → is_Some (generateCircle (mkHashRing ∅ hp [] ns ws))) ∧
  (is_Some (generateCircle (mkHashRing ∅ hp [] ns ws)) ↔
   ∀ node j, node ∈ ns → (0 ≤ j < factor (mkHashRing ∅ hp [] ns ws) node)%Z →
             12 ≤ dcap (hp (nodeKey node j))).
Proof.
  split_and!.
  - intros d i Hlen Hi. unfold dlen in Hlen. split.
    + unfold subslice. rewrite decide_True by (unfold dcap; lia).
      f_equal. replace (i * 4 + 4 - i * 4) with 4 by lia.
      rewrite drop_app_le by lia. rewrite take_app_le; [done|].
      rewrite length_drop. lia.
    + apply chunkKey_is_Some. unfold dcap. lia.
  - intros Hlen. apply generateCircle_is_Some. intros node j _ _.
    specialize (Hlen (nodeKey node j)). unfold hashDigest, dlen, dcap in *. simpl. lia.
  - apply generateCircle_is_Some.
Qed.

Lemma generateCircle_digest_bounds_witness :
  is_Some (generateCircle (mkHashRing ∅ (sampleDigest 16 0) [] ["only"] ∅)).
Proof.
  apply (proj1 (proj2 (generateCircle_digest_bounds (sampleDigest 16 0) ["only"] ∅))).
  intros s. unfold dlen. simpl. lia.
Defined.

(** ** Build order *)

Lemma collect_order (order acc : list string) :
  foldl (λ nodes node, nodes ++ [node]) acc order = acc ++ order.
Proof.
  revert acc. induction order as [|node order IH]; intros acc; simpl.
  - by rewrite app_nil_r.
  - by rewrite IH, <-app_assoc.
Qed.

Lemma New_run md5 ns hp (σ : heap) :
  New md5 ns hp σ =
    h' ← generateCircle (mkHashRing ∅ (default md5 hp) [] ns ∅);
    Some (fresh (dom σ), <[fresh (dom σ) := h']> σ).
Proof. unfold New. by rewrite build_step. Qed.

Lemma NewWithWeights_run md5 order ws hp (σ : heap) :
  NewWithWeights md5 order ws hp σ =
    h' ← generateCircle (mkHashRing ∅ (default md5 hp) [] order ws);
    Some (fresh (dom σ), <[fresh (dom σ) := h']> σ).
Proof. unfold NewWithWeights. by rewrite build_step, collect_order. Qed.

Lemma range_order_perm ws o1 o2 : range_order ws o1 → range_order ws o2 → o1 ≡ₚ o2.
Proof.
  intros [Hnd1 Hs1] [Hnd2 Hs2]. apply NoDup_Permutation; [done..|].
  intros x. rewrite <-!(elem_of_list_to_set (C := gset string)). by rewrite Hs1, Hs2.
Qed.

Lemma nodeWrites_perm hp ws ns1 ns2 node :
  ns1 ≡ₚ ns2 →
  nodeWrites (mkHashRing ∅ hp [] ns1 ws) node = nodeWrites (mkHashRing ∅ hp [] ns2 ws) node.
Proof.
  intros Hp. unfold nodeWrites. by rewrite (factor_perm hp ∅ [] ns1 ns2 ws node Hp).
Qed.

Lemma mapM_perm {A B} (g : A → option B) l1 l2 k1 :
  l1 ≡ₚ l2 → mapM g l1 = Some k1 → ∃ k2, mapM g l2 = Some k2 ∧ k1 ≡ₚ k2.
Proof.
  setoid_rewrite mapM_Some.
  intros Hp. revert k1. induction Hp as [|x l1 l2 _ IH|x y l|l1 l2 l3 _ IH1 _ IH2]; intros k1 Hk1.
  - inversion Hk1. by exists [].
  - inversion Hk1 as [|? y ? k Hy Hk]; subst.
    destruct (IH k Hk) as (k2 & Hk2 & Hp2).
    exists (y :: k2). split; by constructor.
  - inversion Hk1 as [|? y' ? k' Hy Hk']; subst.
    inversion Hk' as [|? x' ? k Hx Hk]; subst.
    exists (x' :: y' :: k). split; [by repeat constructor|apply perm_swap].
  - destruct (IH1 _ Hk1) as (k2 & Hk2 & Hp12).
    destruct (IH2 _ Hk2) as (k3 & Hk3 & Hp23). exists k3. split; [done|]. by etrans.
Qed.

Lemma concat_perm {A} (l1 l2 : list (list A)) : l1 ≡ₚ l2 → concat l1 ≡ₚ concat l2.
Proof.
  induction 1 as [|x l1 l2 _ IH|x y l|l1 l2 l3 _ IH1 _ IH2]; simpl.
  - done.
  - by rewrite IH.
  - rewrite !app_assoc. f_equiv. apply Permutation_app_comm.
  - by etrans.
Qed.

(** Building from the same weights under two iteration orders performs the
    same writes, in another order. *)
Lemma circleWrites_perm hp ws o1 o2 wr1 :
  o1 ≡ₚ o2 → circleWrites (mkHashRing ∅ hp [] o1 ws) = Some wr1 →
  ∃ wr2, circleWrites (mkHashRing ∅ hp [] o2 ws) = Some wr2 ∧ wr1 ≡ₚ wr2.
Proof.
  intros Hp. unfold circleWrites. simpl. intros (wss1 & Hm & ->)%fmap_Some.
  rewrite (mapM_ext _ (nodeWrites (mkHashRing ∅ hp [] o2 ws))) in Hm
    by (intros node; by apply nodeWrites_perm).
  destruct (mapM_perm _ _ _ _ Hp Hm) as (wss2 & -> & Hp2). simpl.
  eexists. split; [done|]. by apply concat_perm.
Qed.

(** C2, as stated, fails for [NewWithWeights]: with a digest under which
    points of different nodes collide, the two orders in which [range] may
    visit a two-entry weight map give different [ring] maps. *)
Lemma map_order_changes_points :
  let ws : gmap string Z := <["a" := 1%Z]> (<["b" := 1%Z]> ∅) in
  range_order ws ["a"; "b"] ∧ range_order ws ["b"; "a"] ∧
  ring <$> ringOf (NewWithWeights lengthDigest ["a"; "b"] ws None) ≠
  ring <$> ringOf (NewWithWeights lengthDigest ["b"; "a"] ws None).
Proof.
  intros ws. split_and!.
  - apply (bool_decide_unpack _). vm_compute. reflexivity.
  - apply (bool_decide_unpack _). vm_compute. reflexivity.
  - intros Heq. apply (f_equal (λ o, r ← o; r !! 403769859%Z)) in Heq.
    vm_compute in Heq. discriminate.
Qed.

(** C2, amended.  A ring built by [New] depends on the node list and the
    digest function only, not on the store it is allocated in.  A ring
    built by [NewWithWeights] has the same [sortedKeys] whatever the order
    in which [range] visits the weight map, and the same [ring] map
    provided no two points collide ([sortedKeys] without duplicates); with
    colliding points the owner of the shared key depends on that order. *)
Theorem build_order_independence (md5 : provider) (hp : option provider) :
  (∀ ns (σ1 σ2 : heap) l1 σ1' h1,
     New md5 ns hp σ1 = Some (l1, σ1') → σ1' !! l1 = Some h1 →
     ∃ l2 σ2', New md5 ns hp σ2 = Some (l2, σ2') ∧ σ2' !! l2 = Some h1) ∧
  (∀ ws o1 o2 (σ1 σ2 : heap) l1 σ1' h1,
     range_order ws o1 → range_order ws o2 →
     NewWithWeights md5 o1 ws hp σ1 = Some (l1, σ1') → σ1' !! l1 = Some h1 →
     ∃ l2 σ2' h2, NewWithWeights md5 o2 ws hp σ2 = Some (l2, σ2') ∧ σ2' !! l2 = Some h2 ∧
                  sortedKeys h1 = sortedKeys h2 ∧
                  (NoDup (sortedKeys h1) → ring h1 = ring h2)).
Proof.
  split.
  - intros ns σ1 σ2 l1 σ1' h1. rewrite !New_run.
    intros (h' & Hh' & [= <- <-])%bind_Some. rewrite lookup_insert_eq. intros [= <-].
    rewrite Hh'. simpl. eexists _, _. split; [done|]. by rewrite lookup_insert_eq.
  - intros ws o1 o2 σ1 σ2 l1 σ1' h1 Ho1 Ho2. rewrite !NewWithWeights_run.
    intros (h' & Hh' & [= <- <-])%bind_Some. rewrite lookup_insert_eq. intros [= <-].
    apply generateCircle_fresh in Hh' as (wr1 & Hwr1 & ->).
    destruct (circleWrites_perm _ ws o1 o2 wr1 (range_order_perm ws o1 o2 Ho1 Ho2) Hwr1)
      as (wr2 & Hwr2 & Hp).
    rewrite generateCircle_writes, Hwr2. simpl.
    eexists _, _, _. split; [done|]. rewrite lookup_insert_eq. split; [done|]. simpl. split.
    + apply sortKeys_perm. by rewrite Hp.
    + intros Hnd. rewrite sortKeys_Permutation in Hnd.
      rewrite !writes_list_to_map by (by rewrite <-?Hp).
      f_equal. by apply list_to_map_proper.
Qed.

Lemma build_order_independence_witness :
  ∃ l2 σ2' h2,
    NewWithWeights lengthDigest ["b"; "a"] twoWeights (Some (sampleDigest 16 0)) ∅
      = Some (l2, σ2') ∧
    σ2' !! l2 = Some h2 ∧
    sortedKeys (builtRing (sampleDigest 16 0) ["a"; "b"] twoWeights) = sortedKeys h2 ∧
    ring (builtRing (sampleDigest 16 0) ["a"; "b"] twoWeights) = ring h2.
Proof.
  destruct (proj2 (build_order_independence lengthDigest (Some (sampleDigest 16 0)))
              twoWeights ["a"; "b"] ["b"; "a"] ∅ ∅ 1%positive
              (<[1%positive := builtRing (sampleDigest 16 0) ["a"; "b"] twoWeights]> ∅)
              (builtRing (sampleDigest 16 0) ["a"; "b"] twoWeights))
    as (l2 & σ2' & h2 & Hnew & Hl2 & Hkeys & Hring).
  - apply (bool_decide_unpack _). vm_compute. reflexivity.
  - apply (bool_decide_unpack _). vm_compute. reflexivity.
  - rewrite NewWithWeights_run. simpl.
    rewrite (default_is_Some (mkHashRing ∅ (sampleDigest 16 0) [] [] ∅)
               (generateCircle (mkHashRing ∅ (sampleDigest 16 0) [] ["a"; "b"] twoWeights)))
      by (apply (bool_decide_unpack _); vm_compute; reflexivity).
    reflexivity.
  - apply lookup_insert_eq.
  - exists l2, σ2', h2. split_and!; [done..|].
    apply Hring. apply (bool_decide_unpack _). vm_compute. reflexivity.
Defined.

(** * Further properties of the code *)

(** ** Decoding a key: hashVal and GenKey *)

Lemma HashKey_of_byte_range b : (0 ≤ HashKey_of_byte b < 256)%Z.
Proof. unfold HashKey_of_byte. pose proof (Byte.to_N_bounded b). lia. Qed.

(** An or of a value shifted by [n] bits with a value below [2^n] adds
    them. *)
Lemma lor_shifted (x y n : Z) :
  (0 ≤ n)%Z → (0 ≤ y < 2 ^ n)%Z → Z.lor (x * 2 ^ n) y = (x * 2 ^ n + y)%Z.
Proof.
  intros Hn Hy. rewrite <-Z.lxor_lor, Z.add_nocarry_lxor; try done.
  all: apply Z.bits_inj'; intros i Hi; rewrite Z.land_spec, Z.bits_0.
  all: destruct (decide (i < n)%Z) as [Hlt|Hge];
    [rewrite Z.mul_pow2_bits_low by lia; done|].
  all: destruct (decide (y = 0%Z)) as [->|Hy0]; [by rewrite Z.bits_0, andb_false_r|].
  all: rewrite (Z.bits_above_log2 y i), andb_false_r; [done|lia|].
  all: apply Z.log2_lt_pow2; [lia|]; apply Z.lt_le_trans with (2 ^ n)%Z; [lia|];
    apply Z.pow_le_mono_r; lia.
Qed.

Lemma hashVal_value b0 b1 b2 b3 rest :
  hashVal (b0 :: b1 :: b2 :: b3 :: rest) =
    Some (HashKey_of_byte b0 + 2 ^ 8 * HashKey_of_byte b1 +
          2 ^ 16 * HashKey_of_byte b2 + 2 ^ 24 * HashKey_of_byte b3)%Z.
Proof.
  unfold hashVal. simpl. f_equal.
  pose proof (HashKey_of_byte_range b0). pose proof (HashKey_of_byte_range b1).
  pose proof (HashKey_of_byte_range b2). pose proof (HashKey_of_byte_range b3).
  unfold uint32. rewrite !Z.shiftl_mul_pow2 by lia.
  rewrite !Z.mod_small by lia.
  rewrite (lor_shifted (HashKey_of_byte b3) _ 24) by lia.
  replace (HashKey_of_byte b3 * 2 ^ 24 + HashKey_of_byte b2 * 2 ^ 16)%Z
    with ((HashKey_of_byte b3 * 2 ^ 8 + HashKey_of_byte b2) * 2 ^ 16)%Z by lia.
  rewrite (lor_shifted _ _ 16) by lia.
  replace ((HashKey_of_byte b3 * 2 ^ 8 + HashKey_of_byte b2) * 2 ^ 16 +
           HashKey_of_byte b1 * 2 ^ 8)%Z
    with ((HashKey_of_byte b3 * 2 ^ 16 + HashKey_of_byte b2 * 2 ^ 8 + HashKey_of_byte b1)
          * 2 ^ 8)%Z by lia.
  rewrite (lor_shifted _ _ 8) by lia. lia.
Qed.

Lemma hashVal_range bKey key : hashVal bKey = Some key → (0 ≤ key < 2 ^ 32)%Z.
Proof.
  intros Hkey. destruct bKey as [|b0 [|b1 [|b2 [|b3 rest]]]]; try done.
  rewrite hashVal_value in Hkey. simplify_eq.
  pose proof (HashKey_of_byte_range b0). pose proof (HashKey_of_byte_range b1).
  pose proof (HashKey_of_byte_range b2). pose proof (HashKey_of_byte_range b3). lia.
Qed.

(** X1. [hashVal] reads the first four bytes as a little-endian number:
    the shifts never leave the 32 bits of a [HashKey], and the result is
    [b0 + 2^8 b1 + 2^16 b2 + 2^24 b3], below [2^32]; it panics exactly on
    a slice of fewer than four bytes. *)
Theorem hashVal_little_endian (bKey : list byte) :
  (length bKey < 4 ↔ hashVal bKey = None) ∧
  (∀ b0 b1 b2 b3 rest, bKey = b0 :: b1 :: b2 :: b3 :: rest →
     hashVal bKey =
       Some (HashKey_of_byte b0 + 2 ^ 8 * HashKey_of_byte b1 +
             2 ^ 16 * HashKey_of_byte b2 + 2 ^ 24 * HashKey_of_byte b3)%Z) ∧
  (∀ key, hashVal bKey = Some key → (0 ≤ key < 2 ^ 32)%Z).
Proof.
  split_and!.
  - split.
    + intros Hlen. unfold hashVal. rewrite (lookup_ge_None_2 bKey 3) by lia. done.
    + intros Hnone. destruct (decide (length bKey < 4)) as [|Hge]; [done|].
      destruct (hashVal_is_Some bKey) as [key Hkey]; [lia|]. congruence.
  - intros b0 b1 b2 b3 rest ->. apply hashVal_value.
  - apply hashVal_range.
Qed.

Lemma hashVal_little_endian_witness :
  hashVal [x01; x02; x03; x04; x05] =
    Some (HashKey_of_byte x01 + 2 ^ 8 * HashKey_of_byte x02 +
          2 ^ 16 * HashKey_of_byte x03 + 2 ^ 24 * HashKey_of_byte x04)%Z.
Proof.
  apply (proj1 (proj2 (hashVal_little_endian [x01; x02; x03; x04; x05])) x01 x02 x03 x04 [x05]).
  reflexivity.
Defined.

(** X2. [GenKey] panics exactly when the digest of the key has a capacity
    below 4; on a digest of at least 4 bytes it is the little-endian value
    of the first four bytes of the digest, a number below [2^32]. *)
Theorem GenKey_first_four_bytes (h : HashRing) (stringKey : string) :
  (GenKey h stringKey = None ↔ dcap (hashDigest h stringKey) < 4) ∧
  (4 ≤ dlen (hashDigest h stringKey) →
   ∃ key, GenKey h stringKey = Some key ∧
          hashVal (take 4 (visible (hashDigest h stringKey))) = Some key ∧
          (0 ≤ key < 2 ^ 32)%Z).
Proof.
  split.
  - change (GenKey h stringKey) with (chunkKey (hashDigest h stringKey) 0).
    split.
    + intros Hnone. destruct (decide (dcap (hashDigest h stringKey) < 4)) as [|Hge]; [done|].
      destruct (chunkKey_is_Some (hashDigest h stringKey) 0) as [key Hkey]; [lia|]. congruence.
    + intros Hcap. apply chunkKey_None. lia.
  - intros Hlen. destruct (GenKey_is_Some h stringKey Hlen) as [key Hkey].
    exists key. split; [done|].
    assert (hashVal (take 4 (visible (hashDigest h stringKey))) = Some key) as Hval.
    { assert (subslice (hashDigest h stringKey) 0 4
              = Some (take 4 (visible (hashDigest h stringKey)))) as Hs.
      { unfold subslice, dlen in *. rewrite decide_True by (unfold dcap; lia). f_equal.
        change (take 4 (visible (hashDigest h stringKey) ++ spare (hashDigest h stringKey))
                = take 4 (visible (hashDigest h stringKey))).
        apply take_app_le. lia. }
      unfold GenKey in Hkey. by rewrite Hs in Hkey. }
    split; [done|]. by eapply hashVal_range.
Qed.

Lemma GenKey_first_four_bytes_witness :
  ∃ key, GenKey singleRing "foo" = Some key ∧
         hashVal (take 4 (visible (hashDigest singleRing "foo"))) = Some key ∧
         (0 ≤ key < 2 ^ 32)%Z.
Proof.
  apply (proj2 (GenKey_first_four_bytes singleRing "foo")). vm_compute. lia.
Defined.

(** ** What every built ring satisfies *)

Lemma generateCircle_canonical hp ns ws h :
  generateCircle (mkHashRing ∅ hp [] ns ws) = Some h →
  canonical h ∧ hashProvider h = hp ∧ nodes h = ns ∧ weights h = ws.
Proof.
  intros Hg. destruct (generateCircle_fresh _ _ _ _ Hg) as (wr & _ & Hh).
  assert (hashProvider h = hp ∧ nodes h = ns ∧ weights h = ws) as (Hp & Hn & Hw)
    by (by rewrite Hh).
  split; [|done]. unfold canonical. by rewrite Hp, Hn, Hw.
Qed.

Lemma canonical_inv h : canonical h → ring_inv h.
Proof. apply generateCircle_fresh_inv. Qed.

Lemma AddWeightedNode_run (σ : heap) l h node weight :
  σ !! l = Some h → (0 < weight)%Z → node ∉ nodes h →
  AddWeightedNode l node weight σ =
    h' ← generateCircle (mkHashRing ∅ (hashProvider h) [] (nodes h ++ [node])
                           (<[node := weight]> (weights h)));
    Some (fresh (dom σ), <[fresh (dom σ) := h']> σ).
Proof.
  intros Hl Hw Hnode. unfold AddWeightedNode. rewrite decide_False by lia.
  unfold bind at 1, deref. rewrite Hl. simpl. rewrite decide_False by done.
  by rewrite build_step.
Qed.

Lemma RemoveNode_run (σ : heap) l h node :
  σ !! l = Some h →
  RemoveNode l node σ =
    h' ← generateCircle (mkHashRing ∅ (hashProvider h) []
                           (filter (λ eNode, eNode ≠ node) (nodes h))
                           (filter (λ e : string * Z, e.1 ≠ node) (weights h)));
    Some (fresh (dom σ), <[fresh (dom σ) := h']> σ).
Proof.
  intros Hl. unfold RemoveNode. unfold bind at 1, deref. rewrite Hl. simpl.
  by rewrite build_step.
Qed.

Lemma run_wf md5 script (σ : heap) :
  run md5 script = Some σ → map_Forall (λ _ h, wf_ring h) σ.
Proof.
  unfold run. apply loop_invariant; [apply map_Forall_empty|].
  intros σ0 c σ1 Hinv Hc. apply fmap_Some in Hc as ([l σ2] & Hc & ->). simpl.
  assert (∀ hp ns ws h',
    generateCircle (mkHashRing ∅ hp [] ns ws) = Some h' →
    dom ws ⊆ (list_to_set ns : gset string) →
    map_Forall (λ _ h, wf_ring h) (<[fresh (dom σ0) := h']> σ0)) as Hstore.
  { intros hp ns ws h' Hh' Hdom. apply map_Forall_insert_2; [|done].
    destruct (generateCircle_canonical _ _ _ _ Hh') as (Hcan & _ & Hn & Hw).
    split; [done|]. by rewrite Hn, Hw. }
  destruct c as [ns hp|order ws hp|h node|h node weight|h node]; simpl in Hc.
  - rewrite New_run in Hc. apply bind_Some in Hc as (h' & Hh' & [= <- <-]).
    apply (Hstore _ _ _ _ Hh'). set_solver.
  - case_decide as Hord; [|done]. rewrite NewWithWeights_run in Hc.
    apply bind_Some in Hc as (h' & Hh' & [= <- <-]).
    apply (Hstore _ _ _ _ Hh'). destruct Hord as [_ ->]. done.
  - unfold AddNode, AddWeightedNode in Hc. rewrite decide_False in Hc by lia.
    unfold bind at 1, deref in Hc. destruct (σ0 !! h) as [r|] eqn:Hr; simpl in Hc; [|done].
    case_decide as Hin; [unfold ret in Hc; by simplify_eq|].
    rewrite build_step in Hc. apply bind_Some in Hc as (h' & Hh' & [= <- <-]).
    apply (Hstore _ _ _ _ Hh'). destruct (Hinv _ _ Hr) as [_ Hdom].
    rewrite dom_insert, list_to_set_app. set_solver.
  - unfold AddWeightedNode in Hc. case_decide as Hw; [unfold ret in Hc; by simplify_eq|].
    unfold bind at 1, deref in Hc. destruct (σ0 !! h) as [r|] eqn:Hr; simpl in Hc; [|done].
    case_decide as Hin; [unfold ret in Hc; by simplify_eq|].
    rewrite build_step in Hc. apply bind_Some in Hc as (h' & Hh' & [= <- <-]).
    apply (Hstore _ _ _ _ Hh'). destruct (Hinv _ _ Hr) as [_ Hdom].
    rewrite dom_insert, list_to_set_app. set_solver.
  - unfold RemoveNode in Hc.
    unfold bind at 1, deref in Hc. destruct (σ0 !! h) as [r|] eqn:Hr; simpl in Hc; [|done].
    rewrite build_step in Hc. apply bind_Some in Hc as (h' & Hh' & [= <- <-]).
    apply (Hstore _ _ _ _ Hh'). destruct (Hinv _ _ Hr) as [_ Hdom].
    intros n Hn. apply elem_of_dom in Hn as [w Hn].
    apply map_lookup_filter_Some in Hn as [Hn Hne]. simpl in Hne.
    apply elem_of_list_to_set, list_elem_of_filter. split; [done|].
    apply (elem_of_list_to_set (C := gset string)), Hdom, elem_of_dom. eauto.
Qed.

Lemma circleWrites_range h wr :
  circleWrites h = Some wr → Forall (λ w, 0 ≤ w.1 < 2 ^ 32)%Z wr.
Proof.
  unfold circleWrites. intros (wss & Hm & ->)%fmap_Some.
  eapply concat_mapM_Forall; [|done]. intros node wn _.
  unfold nodeWrites. intros (wgs & Hg & ->)%fmap_Some.
  eapply concat_mapM_Forall; [|done]. intros j wg _.
  unfold groupWrites. intros (wks & Hk & ->)%fmap_Some.
  eapply concat_mapM_Forall; [|done]. intros i wk _.
  unfold keyWrites, chunkKey. intros (key & (chunk & _ & Hkey)%bind_Some & [= <-])%bind_Some.
  apply Forall_singleton. simpl. by apply hashVal_range in Hkey.
Qed.

(** X3. In every ring produced by the constructors and mutators, each
    entry of the [ring] map has its key listed in [sortedKeys], a key that
    fits a [uint32], and an owner that is a node of [nodes]; likewise each
    key of [sortedKeys] fits a [uint32]. *)
Theorem built_rings_points_well_formed (md5 : provider) (script : list call) (σ : heap)
    (l : loc) (h : HashRing) :
  run md5 script = Some σ → σ !! l = Some h →
  (∀ key, key ∈ sortedKeys h → (0 ≤ key < 2 ^ 32)%Z) ∧
  (∀ key node, ring h !! key = Some node →
     key ∈ sortedKeys h ∧ (0 ≤ key < 2 ^ 32)%Z ∧ node ∈ nodes h).
Proof.
  intros Hrun Hl. destruct (run_wf md5 script σ Hrun l h Hl) as [Hcan _].
  destruct (canonical_inv h Hcan) as (_ & Hdom & Hown).
  assert (∀ key, key ∈ sortedKeys h → (0 ≤ key < 2 ^ 32)%Z) as Hrange.
  { apply generateCircle_fresh in Hcan as (wr & Hwr & Hh). intros key.
    rewrite Hh. simpl. rewrite sortKeys_Permutation.
    intros ([k n] & -> & Hin)%list_elem_of_fmap.
    apply circleWrites_range in Hwr. rewrite Forall_forall in Hwr. apply (Hwr _ Hin). }
  split; [done|]. intros key node Hkey.
  assert (key ∈ sortedKeys h) as Hin.
  { apply (elem_of_list_to_set (C := gset Z)). rewrite Hdom. apply elem_of_dom. eauto. }
  split; [done|]. split; [by apply Hrange|by apply (Hown key)].
Qed.

Lemma built_rings_points_well_formed_witness :
  ∃ h, sampleStore !! 2%positive = Some h ∧
    (∀ key, key ∈ sortedKeys h → (0 ≤ key < 2 ^ 32)%Z) ∧
    (∀ key node, ring h !! key = Some node →
       key ∈ sortedKeys h ∧ (0 ≤ key < 2 ^ 32)%Z ∧ node ∈ nodes h).
Proof.
  assert (sampleStore !! 2%positive
          = Some (default (mkHashRing ∅ lengthDigest [] [] ∅) (sampleStore !! 2%positive))) as Hl.
  { apply default_is_Some. apply (bool_decide_unpack _). vm_compute. reflexivity. }
  eexists. split; [exact Hl|].
  apply (built_rings_points_well_formed (sampleDigest 16 0) sampleScript sampleStore 2%positive);
    [|exact Hl].
  apply default_is_Some. apply (bool_decide_unpack _). vm_compute. reflexivity.
Defined.

(** X4. Every ring produced by the constructors and mutators is the build
    of its own fields: running [generateCircle] on a fresh struct with the
    ring's [nodes], [weights] and digest function gives the ring again.
    Its [weights] map names nodes of [nodes] only. *)
Theorem built_rings_canonical (md5 : provider) (script : list call) (σ : heap)
    (l : loc) (h : HashRing) :
  run md5 script = Some σ → σ !! l = Some h →
  generateCircle (mkHashRing ∅ (hashProvider h) [] (nodes h) (weights h)) = Some h ∧
  (∀ node, is_Some (weights h !! node) → node ∈ nodes h).
Proof.
  intros Hrun Hl. destruct (run_wf md5 script σ Hrun l h Hl) as [Hcan Hdom].
  split; [done|]. intros node Hnode%elem_of_dom.
  by apply (elem_of_list_to_set (C := gset string)), Hdom.
Qed.

Lemma built_rings_canonical_witness :
  ∃ h, sampleStore !! 2%positive = Some h ∧
    generateCircle (mkHashRing ∅ (hashProvider h) [] (nodes h) (weights h)) = Some h ∧
    (∀ node, is_Some (weights h !! node) → node ∈ nodes h).
Proof.
  assert (sampleStore !! 2%positive
          = Some (default (mkHashRing ∅ lengthDigest [] [] ∅) (sampleStore !! 2%positive))) as Hl.
  { apply default_is_Some. apply (bool_decide_unpack _). vm_compute. reflexivity. }
  eexists. split; [exact Hl|].
  apply (built_rings_canonical (sampleDigest 16 0) sampleScript sampleStore 2%positive);
    [|exact Hl].
  apply default_is_Some. apply (bool_decide_unpack _). vm_compute. reflexivity.
Defined.

(** ** How many points a build makes *)

Lemma concat_mapM_sum {A B} (g : A → option (list B)) (f : A → nat) l wss :
  (∀ x ws, g x = Some ws → length ws = f x) →
  mapM g l = Some wss → length (concat wss) = sum_list_with f l.
Proof.
  intros Hg Hm. apply mapM_Some_1 in Hm.
  induction Hm as [|x ws l wss Hx _ IH]; simpl; [done|].
  by rewrite length_app, IH, (Hg _ _ Hx).
Qed.

(** The number of keys of a build: three per point group of each node. *)
Lemma sortedKeys_length hp ns ws h :
  generateCircle (mkHashRing ∅ hp [] ns ws) = Some h →
  length (sortedKeys h) =
    sum_list_with (λ node, Z.to_nat (factor (mkHashRing ∅ hp [] ns ws) node) * 3) ns.
Proof.
  intros (wr & Hwr & ->)%generateCircle_fresh. simpl.
  rewrite (Permutation_length (sortKeys_Permutation _)), length_fmap.
  unfold circleWrites in Hwr. apply fmap_Some in Hwr as (wss & Hm & ->).
  apply (concat_mapM_sum _ _ _ _ (nodeWrites_length _) Hm).
Qed.

Lemma weightSum_unweighted ws ns :
  (∀ node, node ∈ ns → default 1%Z (ws !! node) = 1%Z) →
  weightSum ws ns = Z.of_nat (length ns).
Proof.
  induction ns as [|node ns IH]; intros Hw; simpl; [done|].
  rewrite Hw by constructor. rewrite IH; [lia|]. intros n Hn. apply Hw. by constructor.
Qed.

(** With every weight 1 each node is given 40 point groups. *)
Lemma factor_unweighted hp r ks ns ws node :
  (∀ n, n ∈ ns → default 1%Z (ws !! n) = 1%Z) → node ∈ ns →
  factor (mkHashRing r hp ks ns ws) node = 40%Z.
Proof.
  intros Hw Hnode.
  assert (0 < length ns) by (destruct ns; [by apply elem_of_nil in Hnode|simpl; lia]).
  rewrite factor_exact; rewrite weightSum_unweighted, Hw by done.
  - rewrite Z.mul_1_r. apply Z.div_mul. lia.
  - unfold maxSliceLen. lia.
Qed.

Lemma sum_list_with_const {A} (f : A → nat) c l :
  (∀ x, x ∈ l → f x = c) → sum_list_with f l = length l * c.
Proof.
  induction l as [|x l IH]; intros Hf; simpl; [done|].
  rewrite Hf by constructor. rewrite IH; [lia|]. intros y Hy. apply Hf. by constructor.
Qed.

(** X5. [New] with a digest of at least 12 bytes does not panic; the ring
    it returns, at a location that was not in use, holds the node list it
    was given, no weights, and exactly 120 keys per entry of the node
    list (40 point groups of 3 keys). *)
Theorem New_point_count (md5 : provider) (ns : list string) (hp : option provider)
    (σ : heap) :
  (∀ s, 12 ≤ dlen (default md5 hp s)) →
  ∃ l σ' h, New md5 ns hp σ = Some (l, σ') ∧ σ !! l = None ∧ σ' !! l = Some h ∧
            nodes h = ns ∧ weights h = ∅ ∧
            length (sortedKeys h) = 120 * length ns.
Proof.
  intros Hlen. rewrite New_run.
  destruct (proj2 (generateCircle_is_Some (mkHashRing ∅ (default md5 hp) [] ns ∅)))
    as [h Hh].
  { intros node j _ _. specialize (Hlen (nodeKey node j)).
    unfold hashDigest, dlen, dcap in *. simpl. lia. }
  rewrite Hh. simpl. eexists _, _, h. split; [done|].
  split; [apply not_elem_of_dom, is_fresh|]. rewrite lookup_insert_eq. split; [done|].
  destruct (generateCircle_canonical _ _ _ _ Hh) as (_ & _ & Hn & Hw).
  split_and!; [done..|].
  rewrite (sortedKeys_length _ _ _ _ Hh).
  rewrite (sum_list_with_const _ 120); [lia|].
  intros node Hnode. rewrite factor_unweighted; [done| |done].
  intros n _. by rewrite lookup_empty.
Qed.

Lemma New_point_count_witness :
  ∃ l σ' h, New lengthDigest ["a"; "b"; "c"] None ∅ = Some (l, σ') ∧
            (∅ : heap) !! l = None ∧ σ' !! l = Some h ∧
            nodes h = ["a"; "b"; "c"] ∧ weights h = ∅ ∧
            length (sortedKeys h) = 120 * length ["a"; "b"; "c"].
Proof.
  apply (New_point_count lengthDigest ["a"; "b"; "c"] None ∅).
  intros s. unfold dlen. simpl. lia.
Defined.

(** Between the exact shares and their floors. *)
Lemma factor_sum_bounds (n T : Z) (ws : gmap string Z) (l : list string) :
  (0 < T)%Z → (0 ≤ n)%Z → (∀ node w, ws !! node = Some w → (0 < w)%Z) →
  let F := foldr (λ node acc, (40 * n * default 1 (ws !! node) / T + acc)%Z) 0%Z l in
  (0 ≤ F)%Z ∧ (T * F ≤ 40 * n * weightSum ws l)%Z ∧
  (40 * n * weightSum ws l ≤ T * F + (T - 1) * Z.of_nat (length l))%Z.
Proof.
  intros HT Hn Hpos. induction l as [|node l IH]; simpl; [lia|].
  destruct IH as (IH0 & IH1 & IH2).
  assert (0 < default 1 (ws !! node))%Z as Hw.
  { destruct (ws !! node) as [w|] eqn:Hwe; simpl; [by eapply Hpos|lia]. }
  pose proof (Z.div_mod (40 * n * default 1 (ws !! node))%Z T ltac:(lia)) as Hdm.
  pose proof (Z.mod_pos_bound (40 * n * default 1 (ws !! node))%Z T HT) as Hmod.
  assert (0 ≤ 40 * n * default 1 (ws !! node) / T)%Z by (apply Z.div_pos; nia).
  split_and!; nia.
Qed.

(** X6. A build from positive weights over [n >= 1] nodes, with
    [40 * n * totalWeight] below [2^53], makes more than [117 * n] and at
    most [120 * n] points: flooring the shares loses less than one point
    group per node. *)
Theorem generateCircle_point_bounds (hp : provider) (ns : list string)
    (ws : gmap string Z) (h : HashRing) :
  (∀ node w, ws !! node = Some w → (0 < w)%Z) → ns ≠ [] →
  (40 * Z.of_nat (length ns) * weightSum ws ns < 2 ^ 53)%Z →
  generateCircle (mkHashRing ∅ hp [] ns ws) = Some h →
  117 * length ns < length (sortedKeys h) ≤ 120 * length ns.
Proof.
  intros Hpos Hne Hrange Hh. rewrite (sortedKeys_length _ _ _ _ Hh).
  pose proof (weightSum_pos ws ns Hpos Hne) as HT.
  destruct (factor_sum_bounds (Z.of_nat (length ns)) (weightSum ws ns) ws ns HT
              ltac:(lia) Hpos) as (HF0 & HF1 & HF2).
  assert (Z.of_nat (sum_list_with
            (λ node, (Z.to_nat (factor (mkHashRing ∅ hp [] ns ws) node) * 3)%nat) ns)
          = 3 * foldr (λ node acc, (40 * Z.of_nat (length ns) * default 1 (ws !! node)
                                    / weightSum ws ns + acc)%Z) 0%Z ns)%Z as Hsum.
  { assert (∀ l, (∀ node, node ∈ l → node ∈ ns) →
            Z.of_nat (sum_list_with
              (λ node, (Z.to_nat (factor (mkHashRing ∅ hp [] ns ws) node) * 3)%nat) l)
            = 3 * foldr (λ node acc, (40 * Z.of_nat (length ns) * default 1 (ws !! node)
                                      / weightSum ws ns + acc)%Z) 0%Z l)%Z as Hgen.
    { induction l as [|node l IH]; intros Hl; simpl; [done|].
      rewrite Nat2Z.inj_add, IH by (intros; apply Hl; by constructor).
      rewrite factor_in_range; [|done|done|apply Hl; constructor].
      assert (0 < default 1 (ws !! node))%Z as Hw.
      { destruct (ws !! node) as [w|] eqn:Hwe; simpl; [by eapply Hpos|lia]. }
      assert (0 ≤ 40 * Z.of_nat (length ns) * default 1 (ws !! node) / weightSum ws ns)%Z
        by (apply Z.div_pos; nia).
      lia. }
    by apply Hgen. }
  assert (0 < length ns) by (destruct ns; [done|simpl; lia]).
  nia.
Qed.

Lemma generateCircle_point_bounds_witness :
  117 * length ["a"; "b"] < length (sortedKeys (builtRing (sampleDigest 16 0) ["a"; "b"] skewedWeights))
    ≤ 120 * length ["a"; "b"].
Proof.
  apply (generateCircle_point_bounds (sampleDigest 16 0) ["a"; "b"] skewedWeights).
  - apply (bool_decide_unpack _). vm_compute. reflexivity.
  - discriminate.
  - vm_compute. reflexivity.
  - apply default_is_Some. apply (bool_decide_unpack _). vm_compute. reflexivity.
Defined.

(** ** Reading a ring *)

Lemma successor_unique g keys k1 k2 : successor g keys k1 → successor g keys k2 → k1 = k2.
Proof.
  intros [Hin1 [[Hg1 Hmin1]|[Hall1 Hmin1]]] [Hin2 [[Hg2 Hmin2]|[Hall2 Hmin2]]].
  - specialize (Hmin1 _ Hin2 Hg2). specialize (Hmin2 _ Hin1 Hg1). lia.
  - specialize (Hall2 _ Hin1). lia.
  - specialize (Hall1 _ Hin2). lia.
  - specialize (Hmin1 _ Hin2). specialize (Hmin2 _ Hin1). lia.
Qed.

(** The position [GetNodePos] computes holds the successor of the hash. *)
Lemma firstGreater_successor (keys : list Z) (g : Z) :
  Sorted Z.le keys → keys ≠ [] →
  ∃ k, keys !! default 0 (firstGreater g keys) = Some k ∧ successor g keys k.
Proof.
  intros Hs Hne. unfold firstGreater.
  destruct (list_find (λ k, (g < k)%Z) keys) as [[i x]|] eqn:Hfind; simpl.
  - apply list_find_Some in Hfind as (Hi & Hgx & Hbefore).
    exists x. split; [done|]. split; [by eapply list_elem_of_lookup_2|]. left.
    split; [done|]. intros y [j Hj]%list_elem_of_lookup_1 Hgy.
    destruct (decide (j < i)) as [Hlt|Hge]; [by destruct (Hbefore j y Hj Hlt)|].
    apply (Sorted_le_lookup keys i j x y Hs Hi Hj). lia.
  - apply list_find_None in Hfind. rewrite Forall_forall in Hfind.
    destruct keys as [|k keys]; [done|]. exists k. split; [done|].
    split; [constructor|]. right. split.
    + intros x Hx. specialize (Hfind x Hx). lia.
    + intros x [j Hj]%list_elem_of_lookup_1.
      apply (Sorted_le_lookup (k :: keys) 0 j k x Hs eq_refl Hj). lia.
Qed.

Lemma ring_inv_keys_nonempty h : ring_inv h → size (ring h) ≠ 0 → sortedKeys h ≠ [].
Proof.
  intros (_ & Hdom & _) Hsz Hnil. rewrite Hnil in Hdom. simpl in Hdom.
  symmetry in Hdom. apply dom_empty_inv_L in Hdom. by rewrite Hdom, map_size_empty in Hsz.
Qed.

Lemma GetNode_via_successor h stringKey g k :
  ring_inv h → size (ring h) ≠ 0 → GenKey h stringKey = Some g →
  successor g (sortedKeys h) k →
  GetNode h stringKey = Some (ringAt (ring h) k, true).
Proof.
  intros Hinv Hsz Hg Hsucc. pose proof Hinv as (Hs & _ & _).
  destruct (firstGreater_successor (sortedKeys h) g Hs (ring_inv_keys_nonempty h Hinv Hsz))
    as (k' & Hk' & Hsucc').
  rewrite (successor_unique _ _ _ _ Hsucc Hsucc').
  unfold GetNode. rewrite (GetNodePos_nonempty h stringKey g Hsz Hs Hg). simpl.
  by rewrite Hk'.
Qed.

(** X7. On a ring with points, [GetNode] does not panic (the position it
    indexes [sortedKeys] with is in range) and returns, with [ok = true],
    the node stored in the [ring] map for the successor of the key's hash:
    the smallest key of [sortedKeys] strictly greater than the hash, or
    the smallest key of all if there is none.  The node is a node of
    [nodes]. *)
Theorem GetNode_owner_of_successor (h : HashRing) (stringKey : string) :
  ring_inv h → size (ring h) ≠ 0 → 4 ≤ dlen (hashDigest h stringKey) →
  ∃ g k node, GenKey h stringKey = Some g ∧ successor g (sortedKeys h) k ∧
              ring h !! k = Some node ∧ node ∈ nodes h ∧
              GetNode h stringKey = Some (node, true).
Proof.
  intros Hinv Hsz Hlen. pose proof Hinv as (Hs & Hdom & Hown).
  destruct (GenKey_is_Some h stringKey Hlen) as [g Hg].
  destruct (firstGreater_successor (sortedKeys h) g Hs (ring_inv_keys_nonempty h Hinv Hsz))
    as (k & Hk & Hsucc).
  assert (k ∈ dom (ring h)) as [node Hnode]%elem_of_dom.
  { rewrite <-Hdom. apply elem_of_list_to_set. by destruct Hsucc. }
  exists g, k, node. split_and!; [done..|by apply (Hown k)|].
  rewrite (GetNode_via_successor h stringKey g k) by done.
  unfold ringAt. by rewrite Hnode.
Qed.

Lemma GetNode_owner_of_successor_witness :
  ∃ g k node, GenKey singleRing "foo" = Some g ∧ successor g (sortedKeys singleRing) k ∧
              ring singleRing !! k = Some node ∧ node ∈ nodes singleRing ∧
              GetNode singleRing "foo" = Some (node, true).
Proof.
  apply (GetNode_owner_of_successor singleRing "foo").
  - apply (bool_decide_unpack _). vm_compute. reflexivity.
  - vm_compute. lia.
  - vm_compute. lia.
Defined.

Lemma take_NoDup {A} (l : list A) n : NoDup l → NoDup (take n l).
Proof.
  intros Hnd. rewrite <-(take_drop n l) in Hnd. by apply NoDup_app in Hnd as (? & _ & _).
Qed.

Lemma elem_of_take_l {A} (l : list A) n x : x ∈ take n l → x ∈ l.
Proof. intros Hx. rewrite <-(take_drop n l). apply elem_of_app. by left. Qed.

(** What [GetNodes] returns, as a function of the ring alone. *)
Lemma GetNodes_cases h stringKey size :
  ring_inv h → 4 ≤ dlen (hashDigest h stringKey) →
  GetNodes h stringKey size = Some ([], false) ∨
  ∃ pos, GetNodePos h stringKey = Some (pos, true) ∧ base.size (ring h) ≠ 0 ∧
         (size ≤ Z.of_nat (length (nodes h)))%Z ∧
    let res := if decide (1 ≤ size)%Z then take (Z.to_nat size) (ownersFrom h pos)
               else ownersFrom h pos in
    GetNodes h stringKey size = Some (res, bool_decide (Z.of_nat (length res) = size)).
Proof.
  intros Hinv Hlen.
  destruct (decide (base.size (ring h) = 0)) as [Hempty|Hne].
  { left. unfold GetNodes. by rewrite GetNodePos_empty. }
  destruct (GetNodePos_in_range h stringKey Hinv Hne Hlen) as (pos & Hpos & _).
  destruct (decide (Z.of_nat (length (nodes h)) < size)%Z) as [Hbig|Hsz].
  { left. unfold GetNodes. rewrite Hpos. simpl. by rewrite decide_True. }
  right. exists pos. split_and!; [done..|lia|].
  apply GetNodes_walk; [done|lia].
Qed.

(** X8. [GetNodes] does not panic on a ring that satisfies the build
    invariant.  The nodes it returns are pairwise distinct, each is a node
    of [nodes] that owns a point, and for [size >= 1] there are at most
    [size] of them; [ok = true] is returned only with exactly [size]
    nodes, [size >= 1]. *)
Theorem GetNodes_result_well_formed (h : HashRing) (stringKey : string) (size : Z) :
  ring_inv h → 4 ≤ dlen (hashDigest h stringKey) →
  ∃ res ok, GetNodes h stringKey size = Some (res, ok) ∧
    NoDup res ∧
    (∀ node, node ∈ res → node ∈ nodes h ∧ ∃ key, ring h !! key = Some node) ∧
    ((1 ≤ size)%Z → (Z.of_nat (length res) ≤ size)%Z) ∧
    (ok = true → (1 ≤ size)%Z ∧ Z.of_nat (length res) = size).
Proof.
  intros Hinv Hlen.
  destruct (GetNodes_cases h stringKey size Hinv Hlen)
    as [Hget|(pos & Hpos & Hne & Hsz & Hget)].
  { exists [], false. split_and!; [done|constructor| |simpl; lia|done].
    intros node Hnode. by apply elem_of_nil in Hnode. }
  simpl in Hget. eexists _, _. split; [exact Hget|].
  assert (∀ node, node ∈ ownersFrom h pos → node ∈ nodes h ∧ ∃ key, ring h !! key = Some node)
    as Hmem.
  { intros node Hnode. apply (ownersFrom_elem_of h pos node Hinv) in Hnode.
    apply elem_of_map_img in Hnode as [key Hkey]. destruct Hinv as (_ & _ & Hown).
    split; [by apply (Hown key)|eauto]. }
  pose proof (ownersFrom_NoDup h pos) as Hnd.
  destruct (ring_nonempty h Hinv Hne) as [_ Hown].
  pose proof (ownersFrom_length h pos Hinv) as Hlen'.
  case_decide as H1.
  - split_and!.
    + by apply take_NoDup.
    + intros node Hnode. apply Hmem. by eapply elem_of_take_l.
    + intros _. rewrite length_take. lia.
    + intros Hok%bool_decide_eq_true. done.
  - split_and!; [done|done|lia|].
    intros Hok%bool_decide_eq_true. lia.
Qed.

Lemma GetNodes_result_well_formed_witness :
  ∃ res ok, GetNodes skewedRing "foo" 2 = Some (res, ok) ∧
    NoDup res ∧
    (∀ node, node ∈ res → node ∈ nodes skewedRing ∧ ∃ key, ring skewedRing !! key = Some node) ∧
    ((1 ≤ 2)%Z → (Z.of_nat (length res) ≤ 2)%Z) ∧
    (ok = true → (1 ≤ 2)%Z ∧ Z.of_nat (length res) = 2%Z).
Proof.
  apply (GetNodes_result_well_formed skewedRing "foo" 2).
  - apply (bool_decide_unpack _). vm_compute. reflexivity.
  - vm_compute. lia.
Defined.

Lemma firstSeen_cons_nil v vals : firstSeen (v :: vals) [] = firstSeen vals [v].
Proof.
  unfold firstSeen. simpl. destruct (decide (v ∈ [])) as [Hin|_]; [|done].
  by apply elem_of_nil in Hin.
Qed.

Lemma ownersFrom_head h pos key :
  sortedKeys h !! pos = Some key → ∃ rest, ownersFrom h pos = ringAt (ring h) key :: rest.
Proof.
  intros Hkey. unfold ownersFrom. rewrite (drop_S _ _ _ Hkey), <-app_comm_cons, fmap_cons.
  rewrite firstSeen_cons_nil.
  edestruct (firstSeen_prefix) as [ext Hext]. rewrite Hext. by exists ext.
Qed.

(** X9. Replica lists nest: on a ring with points, for
    [1 <= size1 <= size2 <= len(nodes)], the nodes [GetNodes(key, size1)]
    returns are a prefix of the nodes [GetNodes(key, size2)] returns, and
    both start with the node [GetNode(key)] returns. *)
Theorem GetNodes_nested (h : HashRing) (stringKey : string) (size1 size2 : Z) :
  ring_inv h → size (ring h) ≠ 0 → 4 ≤ dlen (hashDigest h stringKey) →
  (1 ≤ size1 ≤ size2)%Z → (size2 ≤ Z.of_nat (length (nodes h)))%Z →
  ∃ res1 ok1 res2 ok2 node,
    GetNodes h stringKey size1 = Some (res1, ok1) ∧
    GetNodes h stringKey size2 = Some (res2, ok2) ∧
    res1 `prefix_of` res2 ∧
    GetNode h stringKey = Some (node, true) ∧
    head res1 = Some node.
Proof.
  intros Hinv Hne Hlen Hsz Hsz2.
  destruct (GetNodePos_in_range h stringKey Hinv Hne Hlen) as (pos & Hpos & Hlt).
  destruct (lookup_lt_is_Some_2 (sortedKeys h) pos Hlt) as [key Hkey].
  destruct (ownersFrom_head h pos key Hkey) as [rest Hhead].
  pose proof (GetNodes_walk h stringKey size1 pos Hpos ltac:(lia)) as Hget1.
  pose proof (GetNodes_walk h stringKey size2 pos Hpos ltac:(lia)) as Hget2.
  simpl in Hget1, Hget2. rewrite decide_True in Hget1 by lia. rewrite decide_True in Hget2 by lia.
  eexists _, _, _, _, (ringAt (ring h) key).
  split; [exact Hget1|]. split; [exact Hget2|]. split_and!.
  - exists (drop (Z.to_nat size1) (take (Z.to_nat size2) (ownersFrom h pos))).
    rewrite <-(take_drop (Z.to_nat size1) (take (Z.to_nat size2) (ownersFrom h pos))) at 1.
    f_equal. rewrite take_take. f_equal. lia.
  - unfold GetNode. rewrite Hpos. simpl. by rewrite Hkey.
  - rewrite Hhead. destruct (Z.to_nat size1) as [|n] eqn:Hn; [lia|done].
Qed.

Lemma GetNodes_nested_witness :
  ∃ res1 ok1 res2 ok2 node,
    GetNodes skewedRing "foo" 1 = Some (res1, ok1) ∧
    GetNodes skewedRing "foo" 2 = Some (res2, ok2) ∧
    res1 `prefix_of` res2 ∧
    GetNode skewedRing "foo" = Some (node, true) ∧
    head res1 = Some node.
Proof.
  apply (GetNodes_nested skewedRing "foo" 1 2).
  - apply (bool_decide_unpack _). vm_compute. reflexivity.
  - vm_compute. lia.
  - vm_compute. lia.
  - lia.
  - vm_compute. discriminate.
Defined.

(** X10. When the entries of [nodes] are pairwise distinct and each owns
    at least one point, [GetNodes(key, len(nodes))] returns every node
    exactly once, with [ok = true]. *)
Theorem GetNodes_all_nodes (h : HashRing) (stringKey : string) :
  ring_inv h → size (ring h) ≠ 0 → 4 ≤ dlen (hashDigest h stringKey) →
  NoDup (nodes h) → (∀ node, node ∈ nodes h → ∃ key, ring h !! key = Some node) →
  ∃ res, GetNodes h stringKey (Z.of_nat (length (nodes h))) = Some (res, true) ∧
         res ≡ₚ nodes h.
Proof.
  intros Hinv Hne Hlen Hnd Hall.
  destruct (GetNodePos_in_range h stringKey Hinv Hne Hlen) as (pos & Hpos & _).
  destruct (ring_nonempty h Hinv Hne) as [Hnodes _].
  assert (ownersFrom h pos ≡ₚ nodes h) as Hperm.
  { apply NoDup_Permutation; [apply ownersFrom_NoDup|done|].
    intros node. rewrite (ownersFrom_elem_of h pos node Hinv).
    unfold pointOwners. rewrite elem_of_map_img. split; [|apply Hall].
    intros [key Hkey]. destruct Hinv as (_ & _ & Hown). by apply (Hown key). }
  pose proof (GetNodes_walk h stringKey (Z.of_nat (length (nodes h))) pos Hpos ltac:(lia))
    as Hget.
  simpl in Hget. rewrite decide_True in Hget by lia.
  rewrite Nat2Z.id, take_ge in Hget by (by rewrite (Permutation_length Hperm)).
  rewrite bool_decide_eq_true_2 in Hget by (by rewrite (Permutation_length Hperm)).
  eauto.
Qed.

Lemma GetNodes_all_nodes_witness :
  ∃ res, GetNodes threeRing "foo" (Z.of_nat (length (nodes threeRing))) = Some (res, true) ∧
         res ≡ₚ nodes threeRing.
Proof.
  apply (GetNodes_all_nodes threeRing "foo").
  - apply (bool_decide_unpack _). vm_compute. reflexivity.
  - vm_compute. lia.
  - vm_compute. lia.
  - apply (bool_decide_unpack _). vm_compute. reflexivity.
  - intros node Hnode.
    cut (node ∈ pointOwners threeRing); [unfold pointOwners; by rewrite elem_of_map_img|].
    revert node Hnode. apply (Forall_forall (λ node, node ∈ pointOwners threeRing)).
    apply (bool_decide_unpack _). vm_compute. reflexivity.
Defined.

(** ** Composing the mutators *)

(** X11. After [AddWeightedNode(node, weight)] with a positive weight the
    node is in the node list of the returned ring, whose node list, in the
    case the node was new, is the old one with the node appended and whose
    weight map is the old one with the weight set.  Adding the node again
    to the returned ring, with any weight, returns the same pointer and
    changes nothing. *)
Theorem AddWeightedNode_then_again (σ : heap) (l : loc) (h : HashRing) (node : string)
    (weight : Z) (l1 : loc) (σ1 : heap) :
  σ !! l = Some h → (0 < weight)%Z →
  AddWeightedNode l node weight σ = Some (l1, σ1) →
  (∃ h1, σ1 !! l1 = Some h1 ∧ node ∈ nodes h1 ∧ hashProvider h1 = hashProvider h ∧
         (node ∉ nodes h →
          nodes h1 = nodes h ++ [node] ∧ weights h1 = <[node := weight]> (weights h))) ∧
  (∀ weight', AddWeightedNode l1 node weight' σ1 = Some (l1, σ1)) ∧
  AddNode l1 node σ1 = Some (l1, σ1).
Proof.
  intros Hl Hw Hadd.
  assert (∃ h1, σ1 !! l1 = Some h1 ∧ node ∈ nodes h1 ∧ hashProvider h1 = hashProvider h ∧
         (node ∉ nodes h →
          nodes h1 = nodes h ++ [node] ∧ weights h1 = <[node := weight]> (weights h)))
    as (h1 & Hl1 & Hin & Hrest).
  { destruct (decide (node ∈ nodes h)) as [Hin|Hnin].
    - unfold AddWeightedNode in Hadd. rewrite decide_False in Hadd by lia.
      unfold bind, deref in Hadd. rewrite Hl in Hadd. simpl in Hadd.
      rewrite decide_True in Hadd by done. unfold ret in Hadd. simplify_eq.
      exists h. by split_and!.
    - rewrite (AddWeightedNode_run σ l h node weight Hl Hw Hnin) in Hadd.
      apply bind_Some in Hadd as (h1 & Hh1 & [= <- <-]).
      destruct (generateCircle_canonical _ _ _ _ Hh1) as (_ & Hp & Hn & Hws).
      exists h1. rewrite lookup_insert_eq. split_and!; [done| |done|done].
      rewrite Hn. apply elem_of_app. right. constructor. }
  assert (∀ weight', AddWeightedNode l1 node weight' σ1 = Some (l1, σ1)) as Hagain.
  { intros weight'. unfold AddWeightedNode. case_decide; [done|].
    unfold bind, deref. rewrite Hl1. simpl. by rewrite decide_True. }
  split; [eauto|]. split; [done|]. apply Hagain.
Qed.

Lemma AddWeightedNode_then_again_witness :
  (∃ h1, grownStore !! 4%positive = Some h1 ∧ "b" ∈ nodes h1 ∧
         hashProvider h1 =
           hashProvider (default (mkHashRing ∅ lengthDigest [] [] ∅) (sampleStore !! 1%positive)) ∧
         ("b" ∉ nodes (default (mkHashRing ∅ lengthDigest [] [] ∅) (sampleStore !! 1%positive)) →
          nodes h1 =
            nodes (default (mkHashRing ∅ lengthDigest [] [] ∅) (sampleStore !! 1%positive)) ++ ["b"] ∧
          weights h1 =
            <["b" := 7%Z]>
              (weights (default (mkHashRing ∅ lengthDigest [] [] ∅) (sampleStore !! 1%positive))))) ∧
  (∀ weight', AddWeightedNode 4%positive "b" weight' grownStore = Some (4%positive, grownStore)) ∧
  AddNode 4%positive "b" grownStore = Some (4%positive, grownStore).
Proof.
  apply (AddWeightedNode_then_again sampleStore 1%positive
           (default (mkHashRing ∅ lengthDigest [] [] ∅) (sampleStore !! 1%positive)) "b" 7).
  - apply default_is_Some. apply (bool_decide_unpack _). vm_compute. reflexivity.
  - lia.
  - assert (is_Some (AddWeightedNode 1%positive "b" 7 sampleStore)) as [[l' σ'] Hadd]
      by (apply (bool_decide_unpack _); vm_compute; reflexivity).
    assert (fst <$> AddWeightedNode 1%positive "b" 7 sampleStore = Some 4%positive) as Hfst
      by (vm_compute; reflexivity).
    unfold grownStore. rewrite Hadd in Hfst |- *. simpl in *. congruence.
Defined.

Lemma filter_absent (ns : list string) (node : string) :
  node ∉ ns → filter (λ eNode, eNode ≠ node) ns = ns.
Proof.
  intros Hnode. induction ns as [|n ns IH]; [done|].
  apply not_elem_of_cons in Hnode as [Hne Hns].
  rewrite filter_cons_True by done. by rewrite IH.
Qed.

Lemma filter_weights_absent (ws : gmap string Z) (node : string) :
  ws !! node = None → filter (λ e : string * Z, e.1 ≠ node) ws = ws.
Proof.
  intros Hnode. apply map_filter_id. intros n w Hn. simpl. congruence.
Qed.

Lemma filter_weights_insert (ws : gmap string Z) (node : string) (w : Z) :
  ws !! node = None → filter (λ e : string * Z, e.1 ≠ node) (<[node := w]> ws) = ws.
Proof.
  intros Hnode. rewrite map_filter_insert_False by (simpl; tauto).
  rewrite delete_id by done. by apply filter_weights_absent.
Qed.

Lemma wf_ring_weight_absent h node : wf_ring h → node ∉ nodes h → weights h !! node = None.
Proof.
  intros [_ Hdom] Hnode. apply not_elem_of_dom. intros Hin. apply Hnode.
  by apply (elem_of_list_to_set (C := gset string)), Hdom.
Qed.

(** X12. Adding a new node and removing it again gives back the ring one
    started from: in a store reached through the API, [RemoveNode(node)]
    on the result of a successful [AddWeightedNode(node, weight)] of a
    node that was not in the ring does not panic and returns a ring equal,
    field by field, to the original. *)
Theorem RemoveNode_undoes_AddWeightedNode (md5 : provider) (script : list call)
    (σ : heap) (l : loc) (h : HashRing) (node : string) (weight : Z) (l1 : loc) (σ1 : heap) :
  run md5 script = Some σ → σ !! l = Some h →
  node ∉ nodes h → (0 < weight)%Z →
  AddWeightedNode l node weight σ = Some (l1, σ1) →
  ∃ l2 σ2, RemoveNode l1 node σ1 = Some (l2, σ2) ∧ σ1 !! l2 = None ∧ σ2 !! l2 = Some h.
Proof.
  intros Hrun Hl Hnode Hw Hadd.
  pose proof (run_wf md5 script σ Hrun l h Hl) as Hwf.
  rewrite (AddWeightedNode_run σ l h node weight Hl Hw Hnode) in Hadd.
  apply bind_Some in Hadd as (h1 & Hh1 & [= <- <-]).
  destruct (generateCircle_canonical _ _ _ _ Hh1) as (_ & Hp & Hn & Hws).
  rewrite (RemoveNode_run _ _ h1) by apply lookup_insert_eq.
  rewrite Hp, Hn, Hws, filter_app, (filter_absent _ _ Hnode).
  rewrite filter_cons_False, filter_nil, app_nil_r by (intros Hne; by apply Hne).
  rewrite (filter_weights_insert _ _ _ (wf_ring_weight_absent h node Hwf Hnode)).
  destruct Hwf as [Hcan _]. unfold canonical in Hcan. rewrite Hcan. simpl.
  eexists _, _. split; [done|]. split; [apply not_elem_of_dom, is_fresh|].
  apply lookup_insert_eq.
Qed.

Lemma RemoveNode_undoes_AddWeightedNode_witness :
  ∃ l2 σ2, RemoveNode 4%positive "b" grownStore = Some (l2, σ2) ∧ grownStore !! l2 = None ∧
           σ2 !! l2 = Some (default (mkHashRing ∅ lengthDigest [] [] ∅) (sampleStore !! 1%positive)).
Proof.
  apply (RemoveNode_undoes_AddWeightedNode (sampleDigest 16 0) sampleScript sampleStore
           1%positive _ "b" 7).
  - apply default_is_Some. apply (bool_decide_unpack _). vm_compute. reflexivity.
  - apply default_is_Some. apply (bool_decide_unpack _). vm_compute. reflexivity.
  - apply (bool_decide_unpack _). vm_compute. reflexivity.
  - lia.
  - assert (is_Some (AddWeightedNode 1%positive "b" 7 sampleStore)) as [[l' σ'] Hadd]
      by (apply (bool_decide_unpack _); vm_compute; reflexivity).
    assert (fst <$> AddWeightedNode 1%positive "b" 7 sampleStore = Some 4%positive) as Hfst
      by (vm_compute; reflexivity).
    unfold grownStore. rewrite Hadd in Hfst |- *. simpl in *. congruence.
Defined.

(** X13. [RemoveNode] of a node that is not in the ring is a copy: in a
    store reached through the API it does not panic and returns, at a
    location that was not in use, a ring equal field by field to the one
    it was called on. *)
Theorem RemoveNode_absent_copies (md5 : provider) (script : list call)
    (σ : heap) (l : loc) (h : HashRing) (node : string) :
  run md5 script = Some σ → σ !! l = Some h → node ∉ nodes h →
  ∃ l', RemoveNode l node σ = Some (l', <[l' := h]> σ) ∧ σ !! l' = None.
Proof.
  intros Hrun Hl Hnode.
  pose proof (run_wf md5 script σ Hrun l h Hl) as Hwf.
  rewrite (RemoveNode_run σ l h node Hl), (filter_absent _ _ Hnode).
  rewrite (filter_weights_absent _ _ (wf_ring_weight_absent h node Hwf Hnode)).
  destruct Hwf as [Hcan _]. unfold canonical in Hcan. rewrite Hcan. simpl.
  eexists. split; [done|]. apply not_elem_of_dom, is_fresh.
Qed.

Lemma RemoveNode_absent_copies_witness :
  ∃ l', RemoveNode 1%positive "zzz" sampleStore
          = Some (l', <[l' := default (mkHashRing ∅ lengthDigest [] [] ∅)
                                 (sampleStore !! 1%positive)]> sampleStore) ∧
        sampleStore !! l' = None.
Proof.
  apply (RemoveNode_absent_copies (sampleDigest 16 0) sampleScript sampleStore 1%positive).
  - apply default_is_Some. apply (bool_decide_unpack _). vm_compute. reflexivity.
  - apply default_is_Some. apply (bool_decide_unpack _). vm_compute. reflexivity.
  - apply (bool_decide_unpack _). vm_compute. reflexivity.
Defined.

(** X14. The ring [RemoveNode(node)] returns has forgotten the node: it is
    in neither [nodes] nor [weights], owns no point, and no key resolves
    to it; the other entries of [nodes] and [weights] are kept, in
    order. *)
Theorem RemoveNode_forgets_node (σ : heap) (l : loc) (h : HashRing) (node : string)
    (l' : loc) (σ' : heap) :
  σ !! l = Some h → RemoveNode l node σ = Some (l', σ') →
  ∃ h', σ' !! l' = Some h' ∧
        nodes h' = filter (λ eNode, eNode ≠ node) (nodes h) ∧
        (∀ n, weights h' !! n = if decide (n = node) then None else weights h !! n) ∧
        (node ∉ nodes h') ∧
        (∀ key, ring h' !! key ≠ Some node) ∧
        (∀ stringKey, GetNode h' stringKey ≠ Some (node, true)).
Proof.
  intros Hl Hrem. rewrite (RemoveNode_run σ l h node Hl) in Hrem.
  apply bind_Some in Hrem as (h' & Hh' & [= <- <-]).
  destruct (generateCircle_canonical _ _ _ _ Hh') as (Hcan & Hp & Hn & Hws).
  destruct (canonical_inv h' Hcan) as (Hs & Hdom & Hown).
  assert (node ∉ nodes h') as Hnode.
  { rewrite Hn. intros [Hne _]%list_elem_of_filter. by apply Hne. }
  assert (∀ key, ring h' !! key ≠ Some node) as Hring.
  { intros key Hkey. apply Hnode. by apply (Hown key). }
  exists h'. rewrite lookup_insert_eq. split_and!; [done..| |done|done|].
  - intros n. rewrite Hws, map_lookup_filter. case_decide as Hn'.
    + subst n. destruct (weights h !! node); simpl; [|done].
      rewrite option_guard_False; [done|]. simpl. tauto.
    + destruct (weights h !! n); simpl; [|done]. by rewrite option_guard_True.
  - intros stringKey. unfold GetNode.
    destruct (GetNodePos h' stringKey) as [[pos found]|]; simpl; [|done].
    destruct found; [|done].
    destruct (sortedKeys h' !! pos) as [key|] eqn:Hkey; simpl; [|done].
    intros [= Hat]. unfold ringAt in Hat.
    destruct (ring h' !! key) as [n|] eqn:Hn'; simpl in Hat.
    + subst n. by apply (Hring key).
    + assert (key ∈ dom (ring h')) as [n Hn'']%elem_of_dom.
      { rewrite <-Hdom. apply elem_of_list_to_set. by eapply list_elem_of_lookup_2. }
      congruence.
Qed.

Lemma RemoveNode_forgets_node_witness :
  ∃ h', shrunkStore !! 4%positive = Some h' ∧
        nodes h' = filter (λ eNode, eNode ≠ "only")
                     (nodes (default (mkHashRing ∅ lengthDigest [] [] ∅) (sampleStore !! 1%positive))) ∧
        (∀ n, weights h' !! n =
              if decide (n = "only") then None
              else weights (default (mkHashRing ∅ lengthDigest [] [] ∅)
                              (sampleStore !! 1%positive)) !! n) ∧
        ("only" ∉ nodes h') ∧
        (∀ key, ring h' !! key ≠ Some "only") ∧
        (∀ stringKey, GetNode h' stringKey ≠ Some ("only", true)).
Proof.
  apply (RemoveNode_forgets_node sampleStore 1%positive _ "only" 4%positive shrunkStore).
  - apply default_is_Some. apply (bool_decide_unpack _). vm_compute. reflexivity.
  - assert (is_Some (RemoveNode 1%positive "only" sampleStore)) as [[l' σ'] Hrem]
      by (apply (bool_decide_unpack _); vm_compute; reflexivity).
    assert (fst <$> RemoveNode 1%positive "only" sampleStore = Some 4%positive) as Hfst
      by (vm_compute; reflexivity).
    unfold shrunkStore. rewrite Hrem in Hfst |- *. simpl in *. congruence.
Defined.

(** ** Consistent hashing: how keys move when the node set changes *)

Lemma successor_subset g keys1 keys k :
  successor g keys1 k → (∀ x, x ∈ keys → x ∈ keys1) → k ∈ keys → successor g keys k.
Proof.
  intros [_ [[Hg Hmin]|[Hall Hmin]]] Hsub Hk; split; try done.
  - left. split; [done|]. intros x Hx. apply Hmin. by apply Hsub.
  - right. split; intros x Hx; [apply Hall|apply Hmin]; by apply Hsub.
Qed.

(** [GetNode] on a ring with points, in terms of the successor. *)
Lemma GetNode_successor_ex h stringKey :
  ring_inv h → size (ring h) ≠ 0 → 4 ≤ dlen (hashDigest h stringKey) →
  ∃ g k node, GenKey h stringKey = Some g ∧ successor g (sortedKeys h) k ∧
              ring h !! k = Some node ∧ GetNode h stringKey = Some (node, true).
Proof.
  intros Hinv Hsz Hlen. pose proof Hinv as (Hs & Hdom & Hown).
  destruct (GenKey_is_Some h stringKey Hlen) as [g Hg].
  destruct (firstGreater_successor (sortedKeys h) g Hs (ring_inv_keys_nonempty h Hinv Hsz))
    as (k & Hk & Hsucc).
  assert (k ∈ dom (ring h)) as [node Hnode]%elem_of_dom.
  { rewrite <-Hdom. apply elem_of_list_to_set. by destruct Hsucc. }
  exists g, k, node. split_and!; [done..|].
  rewrite (GetNode_via_successor h stringKey g k) by done.
  unfold ringAt. by rewrite Hnode.
Qed.

Lemma ring_lookup_nonempty (r : gmap Z string) k n : r !! k = Some n → size r ≠ 0.
Proof. intros Hk Hsz. apply map_size_empty_inv in Hsz. by rewrite Hsz in Hk. Qed.

Lemma ring_inv_key_in h k n : ring_inv h → ring h !! k = Some n → k ∈ sortedKeys h.
Proof.
  intros (_ & Hdom & _) Hk. apply (elem_of_list_to_set (C := gset Z)).
  rewrite Hdom. apply elem_of_dom. eauto.
Qed.

Lemma mapM_app {A B} (g : A → option B) l1 l2 :
  mapM g (l1 ++ l2) = k1 ← mapM g l1; k2 ← mapM g l2; Some (k1 ++ k2).
Proof.
  induction l1 as [|x l1 IH].
  - change (mapM g l2 = k2 ← mapM g l2; Some k2). by destruct (mapM g l2).
  - change (mapM g ((x :: l1) ++ l2))
      with (y ← g x; k ← mapM g (l1 ++ l2); Some (y :: k)).
    change (mapM g (x :: l1)) with (y ← g x; k ← mapM g l1; Some (y :: k)).
    rewrite IH. destruct (g x) as [y|]; [|done].
    destruct (mapM g l1) as [k1|]; [|done]. by destruct (mapM g l2).
Qed.

Lemma nodeWrites_ext h1 h2 node :
  hashProvider h1 = hashProvider h2 → factor h1 node = factor h2 node →
  nodeWrites h1 node = nodeWrites h2 node.
Proof.
  intros Hp Hf. unfold nodeWrites, groupWrites, hashDigest. by rewrite Hp, Hf.
Qed.

Lemma unweighted_default ws node : unweighted ws → default 1%Z (ws !! node) = 1%Z.
Proof. intros Hw. destruct (ws !! node) as [w|] eqn:Hn; simpl; [by apply (Hw node)|done]. Qed.

(** With all weights 1 the points of a node do not depend on the other
    nodes of the ring. *)
Lemma nodeWrites_unweighted hp ns1 ws1 ns2 ws2 node :
  unweighted ws1 → unweighted ws2 → node ∈ ns1 → node ∈ ns2 →
  nodeWrites (mkHashRing ∅ hp [] ns1 ws1) node = nodeWrites (mkHashRing ∅ hp [] ns2 ws2) node.
Proof.
  intros Hw1 Hw2 Hn1 Hn2. apply nodeWrites_ext; [done|].
  rewrite !factor_unweighted; [done|..]; try done; intros; by apply unweighted_default.
Qed.

(** A later write by another node does not change what an earlier owner
    reads back. *)
Lemma lookup_writes_app (r : gmap Z string) wr wq k n node :
  Forall (λ w, w.2 = node) wq → n ≠ node →
  foldl (λ r w, <[w.1 := w.2]> r) r (wr ++ wq) !! k = Some n →
  foldl (λ r w, <[w.1 := w.2]> r) r wr !! k = Some n.
Proof.
  intros Hq Hn. rewrite foldl_app. intros [Hk|Hk]%lookup_writes; [done|].
  rewrite Forall_forall in Hq. specialize (Hq _ Hk). simpl in Hq. congruence.
Qed.

(** Dropping the writes of a node does not change what the other owners
    read back. *)
Lemma lookup_writes_filter (r : gmap Z string) wr k n node :
  n ≠ node →
  foldl (λ r w, <[w.1 := w.2]> r) r wr !! k = Some n →
  foldl (λ r w, <[w.1 := w.2]> r) r (filter (λ w, w.2 ≠ node) wr) !! k = Some n.
Proof.
  intros Hn. induction wr as [|[k' n'] wr IH] using rev_ind; [done|].
  rewrite filter_app, !foldl_app. simpl.
  destruct (decide (k' = k)) as [->|Hk].
  - rewrite lookup_insert_eq. intros [= ->].
    rewrite filter_cons_True, filter_nil by done. simpl. by rewrite lookup_insert_eq.
  - rewrite lookup_insert_ne by done. intros Hwr%IH.
    destruct (decide (n' ≠ node)).
    + rewrite filter_cons_True, filter_nil by done. simpl. by rewrite lookup_insert_ne.
    + by rewrite filter_cons_False, filter_nil by done.
Qed.

Lemma filter_all {A} (P : A → Prop) `{∀ x, Decision (P x)} (l : list A) :
  Forall P l → filter P l = l.
Proof.
  induction 1 as [|x l Hx _ IH]; [done|]. by rewrite filter_cons_True, IH.
Qed.

Lemma filter_none {A} (P : A → Prop) `{∀ x, Decision (P x)} (l : list A) :
  Forall (λ x, ¬ P x) l → filter P l = [].
Proof.
  induction 1 as [|x l Hx _ IH]; [done|]. by rewrite filter_cons_False, IH.
Qed.

(** Skipping a node in the outer loop skips exactly the writes it owns. *)
Lemma mapM_filter_writes (g : string → option (list (Z * string))) ns wss node :
  (∀ n ws, g n = Some ws → Forall (λ w, w.2 = n) ws) →
  mapM g ns = Some wss →
  ∃ wss', mapM g (filter (λ eNode, eNode ≠ node) ns) = Some wss' ∧
          concat wss' = filter (λ w, w.2 ≠ node) (concat wss).
Proof.
  intros Hg Hm. apply mapM_Some_1 in Hm.
  induction Hm as [|n ws ns wss Hn _ (wss' & Hm' & Hc)]; [by exists []|].
  simpl. rewrite filter_app, <-Hc. pose proof (Hg _ _ Hn) as Hown.
  destruct (decide (n ≠ node)) as [Hne|Heq].
  - rewrite filter_cons_True by done.
    exists (ws :: wss'). split.
    + apply mapM_Some_2. constructor; [done|]. by apply mapM_Some_1.
    + simpl. f_equal. symmetry. apply filter_all.
      eapply Forall_impl; [exact Hown|]. simpl. congruence.
  - rewrite filter_cons_False by done. exists wss'. split; [done|].
    rewrite filter_none; [done|].
    eapply Forall_impl; [exact Hown|]. simpl. intros w Hw Hnode. apply Heq. congruence.
Qed.

(** X15. Adding a node to a ring whose weights are all 1 moves keys only
    to the new node: in a store reached through the API, after
    [AddNode(node)] of a node that was not in the ring, every key resolves
    either to the new node or to the node it resolved to before. *)
Theorem AddNode_moves_keys_to_new_node_only (md5 : provider) (script : list call)
    (σ : heap) (l : loc) (h : HashRing) (node : string) (l1 : loc) (σ1 : heap)
    (h1 : HashRing) (stringKey : string) :
  run md5 script = Some σ → σ !! l = Some h → unweighted (weights h) →
  node ∉ nodes h → AddNode l node σ = Some (l1, σ1) → σ1 !! l1 = Some h1 →
  4 ≤ dlen (hashDigest h stringKey) →
  ∃ owner, GetNode h1 stringKey = Some (owner, true) ∧
           (owner = node ∨ GetNode h stringKey = Some (owner, true)).
Proof.
  intros Hrun Hl Hunw Hnode Hadd Hl1 Hlen.
  pose proof (run_wf md5 script σ Hrun l h Hl) as [Hcan _].
  pose proof (canonical_inv h Hcan) as Hinv.
  unfold AddNode in Hadd. rewrite (AddWeightedNode_run σ l h node 1 Hl ltac:(lia) Hnode) in Hadd.
  apply bind_Some in Hadd as (h1' & Hh1 & [= <- <-]).
  rewrite lookup_insert_eq in Hl1. injection Hl1 as ->.
  pose proof (generateCircle_fresh_inv _ _ _ _ Hh1) as Hinv1.
  apply generateCircle_fresh in Hcan as (wr & Hwr & Hh).
  apply generateCircle_fresh in Hh1 as (wr1 & Hwr1 & Hh1).
  assert (unweighted (<[node := 1%Z]> (weights h))) as Hunw1
    by (by apply map_Forall_insert_2).
  assert (∃ wq, wr1 = wr ++ wq ∧ Forall (λ w, w.2 = node) wq ∧ length wq = 120)
    as (wq & -> & Hq & Hqlen).
  { unfold circleWrites in Hwr, Hwr1. simpl in Hwr, Hwr1.
    apply fmap_Some in Hwr as (wss & Hm & ->).
    apply fmap_Some in Hwr1 as (wss1 & Hm1 & ->).
    rewrite mapM_app in Hm1.
    apply bind_Some in Hm1 as (k1 & Hk1 & (k2 & Hk2 & [= <-])%bind_Some).
    rewrite (Forall_mapM_ext _ (nodeWrites (mkHashRing ∅ (hashProvider h) [] (nodes h)
                                              (weights h)))) in Hk1.
    2:{ apply Forall_forall. intros n Hn. apply nodeWrites_unweighted; try done.
        apply elem_of_app. by left. }
    assert (k1 = wss) as -> by congruence.
    simpl in Hk2. apply bind_Some in Hk2 as (wq & Hwq & [= <-]).
    exists wq. rewrite concat_app. simpl. rewrite app_nil_r. split_and!; [done| |].
    - by apply nodeWrites_owner in Hwq.
    - rewrite (nodeWrites_length _ _ _ Hwq), factor_unweighted; [done| |].
      + intros n _. by apply unweighted_default.
      + apply elem_of_app. right. constructor. }
  assert (hashDigest h1 stringKey = hashDigest h stringKey) as Hdig
    by (unfold hashDigest; by rewrite Hh1, Hh).
  assert (size (ring h1) ≠ 0) as Hne1.
  { destruct wq as [|[kq nq] wq]; [done|].
    assert (kq ∈ dom (ring h1)) as [n Hn]%elem_of_dom.
    { rewrite Hh1. simpl. rewrite dom_writes, fmap_app. set_solver. }
    by eapply ring_lookup_nonempty. }
  destruct (GetNode_successor_ex h1 stringKey Hinv1 Hne1 ltac:(by rewrite Hdig))
    as (g & k & owner & Hg & Hsucc & Hk & Hget).
  exists owner. split; [done|].
  destruct (decide (owner = node)) as [|Hother]; [by left|]. right.
  assert (ring h !! k = Some owner) as Hk0.
  { rewrite Hh1 in Hk. rewrite Hh. simpl in *. by eapply lookup_writes_app. }
  assert (GenKey h stringKey = Some g) as Hg0.
  { unfold GenKey in *. by rewrite <-Hdig. }
  rewrite (GetNode_via_successor h stringKey g k Hinv (ring_lookup_nonempty _ _ _ Hk0) Hg0).
  { unfold ringAt. by rewrite Hk0. }
  eapply successor_subset; [exact Hsucc| |by eapply ring_inv_key_in].
  intros x. rewrite Hh1, Hh. simpl. rewrite !sortKeys_Permutation, fmap_app, elem_of_app. tauto.
Qed.

Lemma AddNode_moves_keys_to_new_node_only_witness :
  ∃ owner,
    GetNode (default (mkHashRing ∅ lengthDigest [] [] ∅) (grownStore1 !! 4%positive)) "foo"
      = Some (owner, true) ∧
    (owner = "b" ∨
     GetNode (default (mkHashRing ∅ lengthDigest [] [] ∅) (sampleStore !! 1%positive)) "foo"
       = Some (owner, true)).
Proof.
  apply (AddNode_moves_keys_to_new_node_only (sampleDigest 16 0) sampleScript sampleStore
           1%positive _ "b" 4%positive grownStore1).
  - apply default_is_Some. apply (bool_decide_unpack _). vm_compute. reflexivity.
  - apply default_is_Some. apply (bool_decide_unpack _). vm_compute. reflexivity.
  - apply (bool_decide_unpack _). vm_compute. reflexivity.
  - apply (bool_decide_unpack _). vm_compute. reflexivity.
  - assert (is_Some (AddNode 1%positive "b" sampleStore)) as [[l' σ'] Hadd]
      by (apply (bool_decide_unpack _); vm_compute; reflexivity).
    assert (fst <$> AddNode 1%positive "b" sampleStore = Some 4%positive) as Hfst
      by (vm_compute; reflexivity).
    unfold grownStore1. rewrite Hadd in Hfst |- *. simpl in *. congruence.
  - apply default_is_Some. apply (bool_decide_unpack _). vm_compute. reflexivity.
  - vm_compute. lia.
Defined.

(** X16. Removing a node from a ring whose weights are all 1 moves only the
    keys of that node: in a store reached through the API, a key that
    resolved to another node still resolves to it in the ring
    [RemoveNode] returns. *)
Theorem RemoveNode_keeps_other_owners (md5 : provider) (script : list call)
    (σ : heap) (l : loc) (h : HashRing) (node : string) (l' : loc) (σ' : heap)
    (h' : HashRing) (stringKey : string) (owner : string) :
  run md5 script = Some σ → σ !! l = Some h → unweighted (weights h) →
  RemoveNode l node σ = Some (l', σ') → σ' !! l' = Some h' →
  GetNode h stringKey = Some (owner, true) → owner ≠ node →
  4 ≤ dlen (hashDigest h stringKey) →
  GetNode h' stringKey = Some (owner, true).
Proof.
  intros Hrun Hl Hunw Hrem Hl' Hget Hother Hlen.
  pose proof (run_wf md5 script σ Hrun l h Hl) as [Hcan _].
  pose proof (canonical_inv h Hcan) as Hinv.
  rewrite (RemoveNode_run σ l h node Hl) in Hrem.
  apply bind_Some in Hrem as (h'' & Hh' & [= <- <-]).
  rewrite lookup_insert_eq in Hl'. injection Hl' as ->.
  pose proof (generateCircle_fresh_inv _ _ _ _ Hh') as Hinv'.
  assert (size (ring h) ≠ 0) as Hne.
  { intros Hsz. unfold GetNode in Hget. by rewrite (GetNodePos_empty h stringKey Hsz) in Hget. }
  destruct (GetNode_successor_ex h stringKey Hinv Hne Hlen)
    as (g & k & owner' & Hg & Hsucc & Hk & Hget').
  assert (owner' = owner) as -> by congruence.
  assert (owner ∈ nodes h) as Hin by (destruct Hinv as (_ & _ & Hown); by apply (Hown k)).
  apply generateCircle_fresh in Hcan as (wr & Hwr & Hh).
  apply generateCircle_fresh in Hh' as (wr' & Hwr' & Hh').
  assert (unweighted (filter (λ e : string * Z, e.1 ≠ node) (weights h))) as Hunw'.
  { intros n w [Hn _]%map_lookup_filter_Some. by apply (Hunw n). }
  assert (wr' = filter (λ w, w.2 ≠ node) wr) as ->.
  { unfold circleWrites in Hwr, Hwr'. simpl in Hwr, Hwr'.
    apply fmap_Some in Hwr as (wss & Hm & ->).
    apply fmap_Some in Hwr' as (wss' & Hm' & ->).
    rewrite (Forall_mapM_ext _ (nodeWrites (mkHashRing ∅ (hashProvider h) [] (nodes h)
                                              (weights h)))) in Hm'.
    2:{ apply Forall_forall. intros n Hn. apply nodeWrites_unweighted; try done.
        by apply list_elem_of_filter in Hn as [_ Hn]. }
    destruct (mapM_filter_writes _ _ _ node (nodeWrites_owner _) Hm) as (wss'' & Hm'' & Hc).
    congruence. }
  assert (ring h' !! k = Some owner) as Hk'.
  { rewrite Hh'. simpl. apply lookup_writes_filter; [done|]. by rewrite Hh in Hk. }
  assert (GenKey h' stringKey = Some g) as Hg'.
  { unfold GenKey, hashDigest in *. rewrite Hh'. simpl. by rewrite Hh in Hg. }
  rewrite (GetNode_via_successor h' stringKey g k Hinv' (ring_lookup_nonempty _ _ _ Hk') Hg').
  { unfold ringAt. by rewrite Hk'. }
  eapply successor_subset; [exact Hsucc| |by eapply ring_inv_key_in].
  intros x. rewrite Hh', Hh. simpl. rewrite !sortKeys_Permutation.
  intros ([k0 n0] & -> & [_ Hw]%list_elem_of_filter)%list_elem_of_fmap.
  apply list_elem_of_fmap. by exists (k0, n0).
Qed.

Lemma RemoveNode_keeps_other_owners_witness :
  GetNode (default (mkHashRing ∅ lengthDigest [] [] ∅) (twoStore !! 2%positive)) "bar"
    = Some ("b", true).
Proof.
  apply (RemoveNode_keeps_other_owners (sampleDigest 16 0) threeScript threeStore
           1%positive (default (mkHashRing ∅ lengthDigest [] [] ∅) (threeStore !! 1%positive))
           "a" 2%positive twoStore).
  - apply default_is_Some. apply (bool_decide_unpack _). vm_compute. reflexivity.
  - apply default_is_Some. apply (bool_decide_unpack _). vm_compute. reflexivity.
  - apply (bool_decide_unpack _). vm_compute. reflexivity.
  - assert (is_Some (RemoveNode 1%positive "a" threeStore)) as [[l' σ'] Hrem]
      by (apply (bool_decide_unpack _); vm_compute; reflexivity).
    assert (fst <$> RemoveNode 1%positive "a" threeStore = Some 2%positive) as Hfst
      by (vm_compute; reflexivity).
    unfold twoStore. rewrite Hrem in Hfst |- *. simpl in *. congruence.
  - apply default_is_Some. apply (bool_decide_unpack _). vm_compute. reflexivity.
  - vm_compute. reflexivity.
  - discriminate.
  - vm_compute. lia.
Defined.

(** ** Small rings *)

(** X17. [New] with an empty node list computes no digest and returns the
    empty ring; on it, whatever the key, the size and the digest function,
    [GetNodePos] returns [(0, false)], [GetNode] returns [("", false)] and
    [GetNodes] returns the empty sequence with [ok = false]. *)
Theorem New_empty_ring (md5 : provider) (hp : option provider) (σ : heap) :
  ∃ l h, New md5 [] hp σ = Some (l, <[l := h]> σ) ∧ σ !! l = None ∧
         ring h = ∅ ∧ sortedKeys h = [] ∧ nodes h = [] ∧
         ∀ stringKey size,
           GetNodePos h stringKey = Some (0, false) ∧
           GetNode h stringKey = Some ("", false) ∧
           GetNodes h stringKey size = Some ([], false).
Proof.
  rewrite New_run.
  exists (fresh (dom σ)), (mkHashRing ∅ (default md5 hp) [] [] ∅).
  split; [done|]. split; [apply not_elem_of_dom, is_fresh|]. split_and!; [done..|].
  intros stringKey size.
  assert (GetNodePos (mkHashRing ∅ (default md5 hp) [] [] ∅) stringKey = Some (0, false))
    as Hpos by (by apply GetNodePos_empty).
  unfold GetNode, GetNodes. by rewrite Hpos.
Qed.

(** X18. A ring built by [New] from a single node, with a digest of at
    least 12 bytes, resolves every key to that node: [GetNode] returns it
    with [ok = true], [GetNodes(key, 1)] returns it alone with
    [ok = true], and [GetNodes(key, 2)] is refused. *)
Theorem New_single_node (md5 : provider) (node : string) (hp : option provider) (σ : heap) :
  (∀ s, 12 ≤ dlen (default md5 hp s)) →
  ∃ l σ' h, New md5 [node] hp σ = Some (l, σ') ∧ σ' !! l = Some h ∧
    ∀ stringKey,
      GetNode h stringKey = Some (node, true) ∧
      GetNodes h stringKey 1 = Some ([node], true) ∧
      GetNodes h stringKey 2 = Some ([], false).
Proof.
  intros Hlen. rewrite New_run.
  destruct (proj2 (generateCircle_is_Some (mkHashRing ∅ (default md5 hp) [] [node] ∅)))
    as [h Hh].
  { intros n j _ _. specialize (Hlen (nodeKey n j)).
    unfold hashDigest, dlen, dcap in *. simpl. lia. }
  rewrite Hh. simpl. eexists _, _, h. split; [done|]. rewrite lookup_insert_eq.
  split; [done|]. intros stringKey.
  pose proof (generateCircle_fresh_inv _ _ _ _ Hh) as Hinv.
  destruct (generateCircle_canonical _ _ _ _ Hh) as (_ & Hp & Hn & _).
  assert (length (sortedKeys h) = 120) as Hkeys.
  { rewrite (sortedKeys_length _ _ _ _ Hh). simpl.
    rewrite factor_unweighted; [done| |constructor]. intros n _. by rewrite lookup_empty. }
  assert (size (ring h) ≠ 0) as Hne.
  { intros Hsz. apply map_size_empty_inv in Hsz. destruct Hinv as (_ & Hdom & _).
    rewrite Hsz, dom_empty_L in Hdom. destruct (sortedKeys h) as [|k ks]; [done|].
    simpl in Hdom. set_solver. }
  assert (4 ≤ dlen (hashDigest h stringKey)) as Hlen4.
  { unfold hashDigest. rewrite Hp. specialize (Hlen stringKey). lia. }
  destruct (GetNodePos_in_range h stringKey Hinv Hne Hlen4) as (pos & Hpos & Hlt).
  destruct (lookup_lt_is_Some_2 (sortedKeys h) pos Hlt) as [key Hkey].
  assert (ringAt (ring h) key = node) as Hat.
  { destruct Hinv as (_ & Hdom & Hown).
    assert (key ∈ dom (ring h)) as [n Hn']%elem_of_dom.
    { rewrite <-Hdom. apply elem_of_list_to_set. by eapply list_elem_of_lookup_2. }
    unfold ringAt. rewrite Hn'. simpl.
    specialize (Hown _ _ Hn'). simpl in Hown. rewrite Hn in Hown.
    by apply list_elem_of_singleton in Hown. }
  split_and!.
  - unfold GetNode. rewrite Hpos. cbn -[ringAt]. rewrite Hkey. cbn -[ringAt]. by rewrite Hat.
  - pose proof (GetNodes_walk h stringKey 1 pos Hpos) as Hget. cbv zeta in Hget.
    rewrite decide_True in Hget by lia.
    rewrite Hget by (rewrite Hn; simpl; lia).
    destruct (ownersFrom_head h pos key Hkey) as [rest Hhead]. by rewrite Hhead, Hat.
  - unfold GetNodes. rewrite Hpos. simpl. rewrite decide_True; [done|].
    rewrite Hn. simpl. lia.
Qed.

Lemma New_single_node_witness :
  ∃ l σ' h, New lengthDigest ["only"] (Some (sampleDigest 16 0)) ∅ = Some (l, σ') ∧
    σ' !! l = Some h ∧
    ∀ stringKey,
      GetNode h stringKey = Some ("only", true) ∧
      GetNodes h stringKey 1 = Some (["only"], true) ∧
      GetNodes h stringKey 2 = Some ([], false).
Proof.
  apply (New_single_node lengthDigest "only" (Some (sampleDigest 16 0)) ∅).
  intros s. unfold dlen. simpl. lia.
Defined.

(** X19. Weights order the shares: in a build with positive weights and
    [40 * len(nodes) * totalWeight] below [2^53], a node of the list whose
    weight is at most that of another node of the list is given at most
    as many points, and it is given no point at all exactly when
    [40 * len(nodes) * weight < totalWeight]. *)
Theorem heavier_node_more_points (hp : provider) (ns : list string) (ws : gmap string Z)
    (a b : string) (ra rb : gmap Z string) (ka kb : list Z) :
  (∀ node w, ws !! node = Some w → (0 < w)%Z) →
  (40 * Z.of_nat (length ns) * weightSum ws ns < 2 ^ 53)%Z → a ∈ ns → b ∈ ns →
  addNodePoints (mkHashRing ∅ hp [] ns ws) (∅, []) a = Some (ra, ka) →
  addNodePoints (mkHashRing ∅ hp [] ns ws) (∅, []) b = Some (rb, kb) →
  ((default 1 (ws !! a) ≤ default 1 (ws !! b))%Z → length ka ≤ length kb) ∧
  (ka = [] ↔ (40 * Z.of_nat (length ns) * default 1 (ws !! a) < weightSum ws ns)%Z).
Proof.
  intros Hpos Hrange Hina Hinb Ha Hb.
  assert (ns ≠ []) as Hne by (intros ->; by apply elem_of_nil in Hina).
  pose proof (weightSum_pos ws ns Hpos Hne) as HT.
  assert (∀ n r ks, n ∈ ns →
            addNodePoints (mkHashRing ∅ hp [] ns ws) (∅, []) n = Some (r, ks) →
            (0 ≤ 40 * Z.of_nat (length ns) * default 1 (ws !! n))%Z ∧
            Z.of_nat (length ks) =
              (40 * Z.of_nat (length ns) * default 1 (ws !! n) / weightSum ws ns * 3)%Z)
    as Hlen.
  { intros n r ks Hin. rewrite addNodePoints_writes.
    intros (wn & Hwn & [= <- <-])%bind_Some.
    assert (0 < default 1 (ws !! n))%Z as Hw.
    { destruct (ws !! n) as [w|] eqn:Hwe; simpl; [by eapply Hpos|lia]. }
    split; [nia|].
    rewrite length_fmap, (nodeWrites_length _ _ _ Hwn), factor_in_range by done.
    assert (0 ≤ 40 * Z.of_nat (length ns) * default 1 (ws !! n) / weightSum ws ns)%Z
      by (apply Z.div_pos; nia).
    lia. }
  destruct (Hlen _ _ _ Hina Ha) as [Ha0 Hka]. destruct (Hlen _ _ _ Hinb Hb) as [Hb0 Hkb].
  split.
  - intros Hw.
    assert (40 * Z.of_nat (length ns) * default 1 (ws !! a) / weightSum ws ns
            ≤ 40 * Z.of_nat (length ns) * default 1 (ws !! b) / weightSum ws ns)%Z
      by (apply Z.div_le_mono; nia).
    lia.
  - pose proof (Z.div_small_iff (40 * Z.of_nat (length ns) * default 1 (ws !! a))%Z
                  (weightSum ws ns) ltac:(lia)) as Hsmall.
    split.
    + intros ->. simpl in Hka. lia.
    + intros Hlt. apply nil_length_inv. lia.
Qed.

Lemma heavier_node_more_points_witness :
  ((default 1 (twoWeights !! "a") ≤ default 1 (twoWeights !! "b"))%Z →
   length (default [] (snd <$> addNodePoints (mkHashRing ∅ (sampleDigest 16 0) [] ["a"; "b"]
                                     twoWeights) (∅, []) "a"))
   ≤ length (default [] (snd <$> addNodePoints (mkHashRing ∅ (sampleDigest 16 0) [] ["a"; "b"]
                                       twoWeights) (∅, []) "b"))) ∧
  (default [] (snd <$> addNodePoints (mkHashRing ∅ (sampleDigest 16 0) [] ["a"; "b"]
                                 twoWeights) (∅, []) "a") = [] ↔
   (40 * Z.of_nat (length ["a"; "b"]) * default 1 (twoWeights !! "a")
    < weightSum twoWeights ["a"; "b"])%Z).
Proof.
  assert (∀ n, is_Some (addNodePoints (mkHashRing ∅ (sampleDigest 16 0) [] ["a"; "b"]
                          twoWeights) (∅, []) n) →
     addNodePoints (mkHashRing ∅ (sampleDigest 16 0) [] ["a"; "b"] twoWeights) (∅, []) n
     = Some (default ∅ (fst <$> addNodePoints (mkHashRing ∅ (sampleDigest 16 0) [] ["a"; "b"]
                                   twoWeights) (∅, []) n),
             default [] (snd <$> addNodePoints (mkHashRing ∅ (sampleDigest 16 0) [] ["a"; "b"]
                                    twoWeights) (∅, []) n))) as Hrun.
  { intros n [[r ks] ->]. done. }
  eapply (heavier_node_more_points (sampleDigest 16 0) ["a"; "b"] twoWeights "a" "b").
  - apply (bool_decide_unpack _). vm_compute. reflexivity.
  - vm_compute. reflexivity.
  - apply (bool_decide_unpack _). vm_compute. reflexivity.
  - apply (bool_decide_unpack _). vm_compute. reflexivity.
  - apply Hrun. apply (bool_decide_unpack _). vm_compute. reflexivity.
  - apply Hrun. apply (bool_decide_unpack _). vm_compute. reflexivity.
Defined.

(** ** HashKeyOrder: the view of [sortedKeys] that [sort.Sort] works on *)

Lemma insert_head_perm (l : list Z) j x y :
  l !! j = Some y → y :: <[j := x]> l ≡ₚ x :: l.
Proof.
  revert j. induction l as [|a l IH]; intros j Hj; [done|].
  destruct j as [|j]; simpl in *.
  - injection Hj as ->. apply perm_swap.
  - rewrite (perm_swap a y), (IH j Hj). apply perm_swap.
Qed.

Lemma Swap_perm h i j h' : Swap h i j = Some h' → h' ≡ₚ h ∧ length h' = length h.
Proof.
  unfold Swap. intros (hj & Hj & (hi & Hi & [= <-])%bind_Some)%bind_Some.
  split; [|by rewrite !length_insert].
  revert i j Hi Hj. induction h as [|a h IH]; intros i j Hi Hj; [done|].
  destruct i as [|i], j as [|j]; simpl in *; simplify_eq.
  - done.
  - by apply insert_head_perm.
  - by apply insert_head_perm.
  - by rewrite (IH i j).
Qed.

Lemma swaps_perm h h' : swaps h h' → h' ≡ₚ h.
Proof.
  induction 1 as [|h i j h1 h2 Hs _ IH]; [done|].
  rewrite IH. by apply Swap_perm in Hs as [? _].
Qed.

Lemma IsSorted_Sorted h : IsSorted h → Sorted Z.le h.
Proof.
  unfold IsSorted, Len, Less. induction h as [|a h IH]; intros Hs; [constructor|].
  constructor.
  - apply IH. intros i Hi. specialize (Hs (S i)). simpl in Hs. apply Hs. lia.
  - destruct h as [|b h]; constructor.
    specialize (Hs 0). simpl in Hs. specialize (Hs ltac:(lia)).
    injection Hs as Hs. apply bool_decide_eq_false in Hs. lia.
Qed.

(** X20. The three methods of [HashKeyOrder] make [sort.Sort] sort
    [sortedKeys] in ascending order: [Swap] fails exactly on an index out
    of range and otherwise exchanges two entries, keeping the length and
    the collection of keys; and whatever sequence of [Swap]s a sort
    performs, if it ends with no entry [Less] than its predecessor, the
    slice is the ascending arrangement of the keys it started with. *)
Theorem HashKeyOrder_sorts (h : list Z) :
  (∀ i j, is_Some (Swap h i j) ↔ i < Len h ∧ j < Len h) ∧
  (∀ i j h', Swap h i j = Some h' →
     Len h' = Len h ∧ h' ≡ₚ h ∧ h' !! i = h !! j ∧ h' !! j = h !! i ∧
     ∀ k, k ≠ i → k ≠ j → h' !! k = h !! k) ∧
  (∀ h', swaps h h' → IsSorted h' → h' = sortKeys h).
Proof.
  split_and!.
  - intros i j. unfold Swap, Len. split.
    + intros [h' (hj & Hj & (hi & Hi & _)%bind_Some)%bind_Some].
      split; by eapply lookup_lt_Some.
    + intros [Hi Hj].
      destruct (lookup_lt_is_Some_2 h i Hi) as [hi Hhi].
      destruct (lookup_lt_is_Some_2 h j Hj) as [hj Hhj].
      rewrite Hhj, Hhi. simpl. eauto.
  - intros i j h' Hs. destruct (Swap_perm h i j h' Hs) as [Hp Hlen].
    unfold Swap in Hs. apply bind_Some in Hs as (hj & Hj & (hi & Hi & [= <-])%bind_Some).
    pose proof (lookup_lt_Some _ _ _ Hi) as Hilt. pose proof (lookup_lt_Some _ _ _ Hj) as Hjlt.
    split_and!; [done|done| | |].
    + destruct (decide (i = j)) as [->|Hne].
      * rewrite list_lookup_insert_eq by (by rewrite length_insert). congruence.
      * rewrite list_lookup_insert_ne by done. rewrite list_lookup_insert_eq by done. done.
    + rewrite list_lookup_insert_eq by (by rewrite length_insert). done.
    + intros k Hki Hkj. by rewrite !list_lookup_insert_ne by done.
  - intros h' Hsw Hsorted. apply (Sorted_unique Z.le).
    + by apply IsSorted_Sorted.
    + apply sortKeys_Sorted.
    + by rewrite sortKeys_Permutation, (swaps_perm h h' Hsw).
Qed.

Lemma HashKeyOrder_sorts_witness :
  Len [1; 3; 2]%Z = Len [3; 1; 2]%Z ∧ [1; 3; 2]%Z ≡ₚ [3; 1; 2]%Z ∧
  [1; 3; 2]%Z !! 0 = [3; 1; 2]%Z !! 1 ∧ [1; 3; 2]%Z !! 1 = [3; 1; 2]%Z !! 0 ∧
  ∀ k, k ≠ 0 → k ≠ 1 → [1; 3; 2]%Z !! k = [3; 1; 2]%Z !! k.
Proof.
  apply (proj1 (proj2 (HashKeyOrder_sorts [3; 1; 2]%Z)) 0 1 [1; 3; 2]%Z).
  reflexivity.
Defined.

(** X21. [NewWithWeights] with a digest of at least 12 bytes does not
    panic; the ring it returns, at a location that was not in use, lists
    each key of the weight map exactly once in [nodes] and keeps the
    weight map as [weights]. *)
Theorem NewWithWeights_nodes (md5 : provider) (order : list string) (ws : gmap string Z)
    (hp : option provider) (σ : heap) :
  range_order ws order → (∀ s, 12 ≤ dlen (default md5 hp s)) →
  ∃ l σ' h, NewWithWeights md5 order ws hp σ = Some (l, σ') ∧ σ !! l = None ∧
            σ' !! l = Some h ∧ weights h = ws ∧ NoDup (nodes h) ∧
            (∀ node, node ∈ nodes h ↔ is_Some (ws !! node)) ∧
            length (nodes h) = size ws.
Proof.
  intros [Hnd Hset] Hlen. rewrite NewWithWeights_run.
  destruct (proj2 (generateCircle_is_Some (mkHashRing ∅ (default md5 hp) [] order ws)))
    as [h Hh].
  { intros n j _ _. specialize (Hlen (nodeKey n j)).
    unfold hashDigest, dlen, dcap in *. simpl. lia. }
  rewrite Hh. simpl. eexists _, _, h. split; [done|].
  split; [apply not_elem_of_dom, is_fresh|]. rewrite lookup_insert_eq. split; [done|].
  destruct (generateCircle_canonical _ _ _ _ Hh) as (_ & _ & Hn & Hw).
  rewrite Hn, Hw. split_and!; [done..| |].
  - intros node. rewrite <-elem_of_dom, <-Hset. by rewrite elem_of_list_to_set.
  - rewrite <-size_dom, <-Hset. by rewrite size_list_to_set.
Qed.

Lemma NewWithWeights_nodes_witness :
  ∃ l σ' h, NewWithWeights lengthDigest ["b"; "a"] twoWeights (Some (sampleDigest 16 0)) ∅
              = Some (l, σ') ∧ (∅ : heap) !! l = None ∧
            σ' !! l = Some h ∧ weights h = twoWeights ∧ NoDup (nodes h) ∧
            (∀ node, node ∈ nodes h ↔ is_Some (twoWeights !! node)) ∧
            length (nodes h) = size twoWeights.
Proof.
  apply (NewWithWeights_nodes lengthDigest ["b"; "a"] twoWeights (Some (sampleDigest 16 0)) ∅).
  - apply (bool_decide_unpack _). vm_compute. reflexivity.
  - intros s. unfold dlen. simpl. lia.
Defined.
